(** * gdu-backend-sync: the reconciliation engine, embedded and verified

    The development follows the three service classes of the repository:
    - [firestoreService.js]  (class FirestoreSyncService): the mirror store,
    - [googleDriveService.js] (class GoogleDriveSyncService): the remote reader,
    - [syncService.js]       (class SyncService): the run orchestration.

    JavaScript objects stored in Firestore are finite maps from field names
    to values; the services' mutable fields, the Firestore collections, the
    log of committed write batches and the counters of the three oracles
    (clock, automatic document ids, uuids) form one explicit [World] that is
    threaded through a small state-and-exception monad. *)

From stdpp Require Import gmap strings list fin_maps pretty.

Set Warnings "-clear-no-such-hyp".

Open Scope string_scope.
Open Scope list_scope.
Open Scope nat_scope.

(** ** JavaScript values *)

Inductive value :=
| VUndefined
| VNull
| VBool (b : bool)
| VNum (n : Z)
| VStr (s : string)
| VDate (t : Z)
| VList (l : list string)
| VObj (o : list (string * bool)).

#[global] Instance value_eq_dec : EqDecision value.
Proof. solve_decision. Defined.

(** Truthiness, as used by [if (x)], [x || y] and [x ? a : b]. *)
Definition truthy (v : value) : bool :=
  match v with
  | VUndefined | VNull => false
  | VBool b => b
  | VNum n => negb (n =? 0)%Z
  | VStr s => negb (String.eqb s EmptyString)
  | VDate _ | VList _ | VObj _ => true
  end.

(** [a || b] *)
Definition js_or (a b : value) : value := if truthy a then a else b.

(** A stored document, or an object literal: field name to value. *)
Abbreviation doc := (gmap string value).

(** Property read [o.k]: a missing property reads as [undefined]. *)
Definition js_get (o : doc) (k : string) : value := default VUndefined (o !! k).

(** ** Records received from the provider *)

Module Folder.
Record t := mk {
  id : string;
  name : string;
  parents : option (list string);
  mimeType : value;
  createdTime : value;
  modifiedTime : value;
  full_path : option string
}.
Definition with_full_path (p : option string) (f : t) : t :=
  mk (id f) (name f) (parents f) (mimeType f) (createdTime f) (modifiedTime f) p.
End Folder.

Module Manager.
Record t := mk {
  id : value;
  emailAddress : value;
  email : value;
  permissionId : value;
  role : value;
  type : value;
  displayName : value;
  photoLink : value
}.
End Manager.

Module Drive.
Record t := mk {
  id : string;
  name : string;
  kind : value;
  colorRgb : value;
  backgroundImageFile : value;
  capabilities : value;
  createdTime : value;
  hidden : value;
  restrictions : value;
  folders : option (list Folder.t);
  managers : option (list Manager.t)
}.
Definition with_data (fs : list Folder.t) (ms : list Manager.t) (d : t) : t :=
  mk (id d) (name d) (kind d) (colorRgb d) (backgroundImageFile d)
     (capabilities d) (createdTime d) (hidden d) (restrictions d)
     (Some fs) (Some ms).
End Drive.

(** ** The mirror database *)

(** config.js, COLLECTIONS *)
Inductive collection :=
| SHARED_DRIVES | FOLDERS | DRIVE_MANAGERS | SYNC_HISTORY | SYNC_STATUS.

#[global] Instance collection_eq_dec : EqDecision collection.
Proof. solve_decision. Defined.

Record DB := mkDB {
  shared_drives : gmap string doc;
  folders : gmap string doc;
  drive_managers : gmap string doc;
  sync_history : gmap string doc;
  sync_status : gmap string doc
}.

Definition coll (c : collection) (d : DB) : gmap string doc :=
  match c with
  | SHARED_DRIVES => shared_drives d
  | FOLDERS => folders d
  | DRIVE_MANAGERS => drive_managers d
  | SYNC_HISTORY => sync_history d
  | SYNC_STATUS => sync_status d
  end.

Definition set_coll (c : collection) (m : gmap string doc) (d : DB) : DB :=
  match c with
  | SHARED_DRIVES => mkDB m (folders d) (drive_managers d) (sync_history d) (sync_status d)
  | FOLDERS => mkDB (shared_drives d) m (drive_managers d) (sync_history d) (sync_status d)
  | DRIVE_MANAGERS => mkDB (shared_drives d) (folders d) m (sync_history d) (sync_status d)
  | SYNC_HISTORY => mkDB (shared_drives d) (folders d) (drive_managers d) m (sync_status d)
  | SYNC_STATUS => mkDB (shared_drives d) (folders d) (drive_managers d) (sync_history d) m
  end.

(** One write of a batch: [batch.delete(ref)] or [batch.set(ref, data, {merge})]. *)
Inductive write :=
| WDelete (c : collection) (id : string)
| WSet (c : collection) (id : string) (data : doc) (merge : bool).

Definition is_delete (w : write) : bool :=
  match w with WDelete _ _ => true | WSet _ _ _ _ => false end.

(** Modelled from the spec: the document store itself (the
    @google-cloud/firestore package) is not part of the repository.
    "Each write is a merge-write: fields present in the new record
    overwrite"; a plain [set] replaces the document. *)
Definition set_doc (merge : bool) (old : option doc) (data : doc) : doc :=
  if merge then data ∪ default ∅ old else data.

Definition apply_write (w : write) (d : DB) : DB :=
  match w with
  | WDelete c i => set_coll c (delete i (coll c d)) d
  | WSet c i data merge =>
      set_coll c (<[i := set_doc merge (coll c d !! i) data]> (coll c d)) d
  end.

Definition apply_writes (ws : list write) (d : DB) : DB :=
  foldl (λ d w, apply_write w d) d ws.

(** ** Run statistics (syncService.js, [this.syncStats]) *)

Record Stats := mkStats {
  drives_count : nat;
  folders_count : nat;
  managers_count : nat;
  errors : list string;
  start_time : option Z;
  end_time : option Z;
  duration_ms : Z;
  duration_minutes : Z  (* in hundredths of a minute *)
}.

(** ** The world *)

Record World := mkWorld {
  fs_initialized : bool;          (* firestoreService.initialized *)
  gd_initialized : bool;          (* googleDriveService.initialized *)
  db : DB;                        (* the Firestore collections *)
  commits : list (list write);    (* committed batches, oldest first *)
  ticks : nat;                    (* readings of the clock so far *)
  ids : nat;                      (* automatic document ids drawn so far *)
  uuids : nat;                    (* uuids drawn so far *)
  isRunning : bool;               (* syncService.isRunning *)
  currentSyncId : option string;  (* syncService.currentSyncId *)
  syncStats : Stats               (* syncService.syncStats *)
}.

Definition set_db (d : DB) (w : World) : World :=
  mkWorld (fs_initialized w) (gd_initialized w) d (commits w) (ticks w) (ids w)
          (uuids w) (isRunning w) (currentSyncId w) (syncStats w).
Definition set_commits (cs : list (list write)) (w : World) : World :=
  mkWorld (fs_initialized w) (gd_initialized w) (db w) cs (ticks w) (ids w)
          (uuids w) (isRunning w) (currentSyncId w) (syncStats w).
Definition set_ticks (n : nat) (w : World) : World :=
  mkWorld (fs_initialized w) (gd_initialized w) (db w) (commits w) n (ids w)
          (uuids w) (isRunning w) (currentSyncId w) (syncStats w).
Definition set_ids (n : nat) (w : World) : World :=
  mkWorld (fs_initialized w) (gd_initialized w) (db w) (commits w) (ticks w) n
          (uuids w) (isRunning w) (currentSyncId w) (syncStats w).
Definition set_uuids (n : nat) (w : World) : World :=
  mkWorld (fs_initialized w) (gd_initialized w) (db w) (commits w) (ticks w) (ids w)
          n (isRunning w) (currentSyncId w) (syncStats w).
Definition set_isRunning (b : bool) (w : World) : World :=
  mkWorld (fs_initialized w) (gd_initialized w) (db w) (commits w) (ticks w) (ids w)
          (uuids w) b (currentSyncId w) (syncStats w).
Definition set_currentSyncId (i : option string) (w : World) : World :=
  mkWorld (fs_initialized w) (gd_initialized w) (db w) (commits w) (ticks w) (ids w)
          (uuids w) (isRunning w) i (syncStats w).
Definition set_syncStats (s : Stats) (w : World) : World :=
  mkWorld (fs_initialized w) (gd_initialized w) (db w) (commits w) (ticks w) (ids w)
          (uuids w) (isRunning w) (currentSyncId w) s.

(** ** The monad: state, exceptions, and divergence

    [Throw e] is a JavaScript exception carrying [e] as its message.
    [Diverge] stands for a computation that does not return: it is produced
    only when the fuel of the recursive folder walk
    (getSubfoldersRecursively) runs out, it is not an exception and no
    [catch] or [finally] sees it. *)

Inductive outcome (A : Type) :=
| Ok (a : A)
| Throw (e : string)
| Diverge.
Arguments Ok {A} a.
Arguments Throw {A} e.
Arguments Diverge {A}.

Definition M (A : Type) : Type := World → outcome A * World.

Definition ret {A} (a : A) : M A := λ w, (Ok a, w).
Definition throw {A} (e : string) : M A := λ w, (Throw e, w).
Definition diverge {A} : M A := λ w, (Diverge, w).

Definition bind {A B} (m : M A) (k : A → M B) : M B :=
  λ w, match m w with
       | (Ok a, w') => k a w'
       | (Throw e, w') => (Throw e, w')
       | (Diverge, w') => (Diverge, w')
       end.

(** [try { m } catch (error) { h error.message }] *)
Definition try_catch {A} (m : M A) (h : string → M A) : M A :=
  λ w, match m w with
       | (Throw e, w') => h e w'
       | r => r
       end.

(** [try { m } finally { f }], for a block [f] that does not throw. *)
Definition finally {A} (m : M A) (f : World → World) : M A :=
  λ w, match m w with
       | (Ok a, w') => (Ok a, f w')
       | (Throw e, w') => (Throw e, f w')
       | (Diverge, w') => (Diverge, w')
       end.

Definition gets {A} (f : World → A) : M A := λ w, (Ok (f w), w).
Definition modify (f : World → World) : M unit := λ w, (Ok tt, f w).

Notation "'do' x <- m ; k" := (bind m (λ x, k))
  (at level 10, x name, m at level 100, k at level 200).
Notation "'do' ' p <- m ; k" := (bind m (λ x, match x with p => k end))
  (at level 10, p pattern, m at level 100, k at level 200).
Notation "m ;;; k" := (bind m (λ _, k))
  (at level 100, k at level 200, right associativity).

(** [for (const x of l) { s = body x s }] *)
Fixpoint for_of {A S} (body : A → S → M S) (l : list A) (s : S) : M S :=
  match l with
  | [] => ret s
  | x :: l' => do s' <- body x s; for_of body l' s'
  end.

(** * firestoreService.js *)

Record SyncResult := mkSyncResult {
  processed : nat;
  deleted : nat;
  total : nat
}.

(** Firestore's limit of writes per batch ([const batchSize = 500]). *)
Definition batchSize : nat := 500.
#[global] Arguments batchSize : simpl never.

Section Services.

(** The three sources of values from outside the program: the clock read
    by [new Date()], the document ids generated by [collection.doc()], and
    [uuidv4()]. The n-th call of each returns the n-th element. *)
Variable clock : nat → Z.
Variable autoId : nat → string.
Variable uuid : nat → string.

Definition new_Date : M Z :=
  λ w, (Ok (clock (ticks w)), set_ticks (S (ticks w)) w).

Definition new_doc_id : M string :=
  λ w, (Ok (autoId (ids w)), set_ids (S (ids w)) w).

Definition uuidv4 : M string :=
  λ w, (Ok (uuid (uuids w)), set_uuids (S (uuids w)) w).

Definition ensureInitialized : M unit :=
  do init <- gets fs_initialized;
  if init then ret tt
  else throw "Firestore Sync Service no está inicializado. Llama a initialize() primero.".

(** Modelled from the spec: [batch.commit()] of the store. The pending
    writes of the batch are applied atomically, in order; the program goes
    on adding to the same batch object, which the model takes to be empty
    again ("committing each full batch before starting the next"). *)
Definition commit (batch : list write) : M unit :=
  modify (λ w, set_commits (commits w ++ [batch])
                 (set_db (apply_writes batch (db w)) w)).

(** A write issued directly on a document reference, outside any batch. *)
Definition write_now (x : write) : M unit :=
  modify (λ w, set_db (apply_write x (db w)) w).

(** The tail of each batching loop: count the write just added and commit
    when the counter reaches the limit. *)
Definition count_and_flush (batch : list write) (batchCount : nat)
  : M (list write * nat) :=
  let batchCount := S batchCount in
  if batchSize <=? batchCount
  then commit batch ;;; ret ([], 0)
  else ret (batch, batchCount).

(** *** syncSharedDrives *)

Definition driveData (drive : Drive.t) (now : Z) (existing : option doc) : doc :=
  let data : doc :=
    <["id" := VStr (Drive.id drive)]>
    (<["name" := VStr (Drive.name drive)]>
    (<["kind" := Drive.kind drive]>
    (<["colorRgb" := js_or (Drive.colorRgb drive) VNull]>
    (<["backgroundImageFile" := js_or (Drive.backgroundImageFile drive) VNull]>
    (<["capabilities" := js_or (Drive.capabilities drive) (VObj [])]>
    (<["createdTime" := Drive.createdTime drive]>
    (<["hidden" := js_or (Drive.hidden drive) (VBool false)]>
    (<["restrictions" := js_or (Drive.restrictions drive) (VObj [])]>
    (<["synced_at" := VDate now]>
    (<["synced_by_backend" := VBool true]> ∅)))))))))) in
  match existing with
  | Some existingData =>
      if truthy (js_get existingData "created_by_frontend")
      then <["created_at" := js_get existingData "created_at"]>
           (<["created_by_frontend" := VBool true]> data)
      else data
  | None => data
  end.

Definition delete_drive_step (driveId : string) (st : list write * nat)
  : M (list write * nat) :=
  let '(batch, batchCount) := st in
  count_and_flush (batch ++ [WDelete SHARED_DRIVES driveId]) batchCount.

Definition upsert_drive_step (existingDrives : gmap string doc)
    (drive : Drive.t) (st : list write * nat) : M (list write * nat) :=
  let '(batch, batchCount) := st in
  do now <- new_Date;
  let data := driveData drive now (existingDrives !! Drive.id drive) in
  count_and_flush (batch ++ [WSet SHARED_DRIVES (Drive.id drive) data true]) batchCount.

Definition drivesToDelete (existingDrives : gmap string doc)
    (drivesFromAPI : list Drive.t) : list string :=
  let existingDriveIds := (map_to_list existingDrives).*1 in
  let currentDriveIds : gset string := list_to_set (Drive.id <$> drivesFromAPI) in
  filter (λ driveId, driveId ∉ currentDriveIds) existingDriveIds.

Definition syncSharedDrives (drivesFromAPI : list Drive.t) : M SyncResult :=
  ensureInitialized ;;;
  do existingDrives <- gets (λ w, shared_drives (db w));
  let toDelete := drivesToDelete existingDrives drivesFromAPI in
  do st <- for_of delete_drive_step toDelete ([], 0);
  do ' (batch, batchCount) <- for_of (upsert_drive_step existingDrives) drivesFromAPI st;
  (if 0 <? batchCount then commit batch else ret tt) ;;;
  let totalProcessed := length drivesFromAPI in
  let totalDeleted := length toDelete in
  ret (mkSyncResult totalProcessed totalDeleted totalProcessed).

(** *** syncFoldersForDrive *)

Definition folder_parent_id (driveId : string) (folder : Folder.t) : value :=
  match Folder.parents folder with
  | None => VNull
  | Some ps =>
      match head ps with
      | None => VUndefined
      | Some p => if String.eqb p driveId then VNull else VStr p
      end
  end.

Definition folder_full_path (folder : Folder.t) : string :=
  match Folder.full_path folder with
  | Some p => if String.eqb p EmptyString then "/" else p
  | None => "/"
  end.

Definition folderData (driveId : string) (folder : Folder.t) (now : Z)
    (existingDoc : option doc) : doc :=
  let data : doc :=
    <["id" := VStr (Folder.id folder)]>
    (<["name" := VStr (Folder.name folder)]>
    (<["driveId" := VStr driveId]>
    (<["parent_id" := folder_parent_id driveId folder]>
    (<["full_path" := VStr (folder_full_path folder)]>
    (<["mimeType" := Folder.mimeType folder]>
    (<["createdTime" := Folder.createdTime folder]>
    (<["modifiedTime" := Folder.modifiedTime folder]>
    (<["synced_at" := VDate now]>
    (<["synced_by_backend" := VBool true]> ∅))))))))) in
  match existingDoc with
  | Some existingData =>
      if truthy (js_get existingData "created_by_frontend")
      then <["created_at" := js_get existingData "created_at"]>
           (<["created_by_frontend" := VBool true]> data)
      else data
  | None => data
  end.

Definition upsert_folder_step (driveId : string) (folder : Folder.t)
    (st : list write * nat) : M (list write * nat) :=
  let '(batch, batchCount) := st in
  do now <- new_Date;
  do existingDoc <- gets (λ w, folders (db w) !! Folder.id folder);
  let data := folderData driveId folder now existingDoc in
  count_and_flush (batch ++ [WSet FOLDERS (Folder.id folder) data true]) batchCount.

Definition syncFoldersForDrive (driveId : string) (foldersFromAPI : list Folder.t)
  : M nat :=
  ensureInitialized ;;;
  do ' (batch, batchCount) <- for_of (upsert_folder_step driveId) foldersFromAPI ([], 0);
  (if 0 <? batchCount then commit batch else ret tt) ;;;
  ret (length foldersFromAPI).

(** *** syncManagersForDrive *)

(** [.where('driveId', '==', driveId).where('synced_by_backend', '==', true)] *)
Definition is_synced_manager_of (driveId : string) (d : doc) : bool :=
  bool_decide (d !! "driveId" = Some (VStr driveId)) &&
  bool_decide (d !! "synced_by_backend" = Some (VBool true)).

Definition existingManagers (driveId : string) (ms : gmap string doc)
  : list (string * doc) :=
  filter (λ kd, is_synced_manager_of driveId kd.2 = true) (map_to_list ms).

Definition managerData (driveId driveName : string) (manager : Manager.t) (now : Z)
  : doc :=
  <["driveId" := VStr driveId]>
  (<["driveName" := VStr driveName]>
  (<["email" := js_or (Manager.email manager) (Manager.emailAddress manager)]>
  (<["role" := Manager.role manager]>
  (<["type" := Manager.type manager]>
  (<["permissionId" := js_or (Manager.permissionId manager) (Manager.id manager)]>
  (<["displayName" := js_or (Manager.displayName manager) VNull]>
  (<["photoLink" := js_or (Manager.photoLink manager) VNull]>
  (<["synced_at" := VDate now]>
  (<["synced_by_backend" := VBool true]> ∅))))))))).

Definition add_manager_step (driveId driveName : string) (manager : Manager.t)
    (batch : list write) : M (list write) :=
  do managerRef <- new_doc_id;
  do now <- new_Date;
  ret (batch ++ [WSet DRIVE_MANAGERS managerRef
                   (managerData driveId driveName manager now) false]).

Definition syncManagersForDrive (driveId driveName : string)
    (managersFromAPI : list Manager.t) : M nat :=
  ensureInitialized ;;;
  do existingSnapshot <- gets (λ w, existingManagers driveId (drive_managers (db w)));
  let batch := (λ kd, WDelete DRIVE_MANAGERS kd.1) <$> existingSnapshot in
  do batch <- for_of (add_manager_step driveId driveName) managersFromAPI batch;
  commit batch ;;;
  ret (length managersFromAPI).

(** *** Run records and the status document *)

Definition recordSyncStart (syncId : string) : M unit :=
  ensureInitialized ;;;
  do sync_date <- new_Date;
  do start <- new_Date;
  write_now (WSet SYNC_HISTORY syncId
    (<["sync_id" := VStr syncId]>
    (<["sync_date" := VDate sync_date]>
    (<["status" := VStr "running"]>
    (<["start_time" := VDate start]>
    (<["drives_count" := VNum 0]>
    (<["folders_count" := VNum 0]>
    (<["managers_count" := VNum 0]>
    (<["errors" := VList []]> ∅)))))))) false).

(** [docRef.update(data)]: fails when the document does not exist. *)
Definition update_doc (c : collection) (i : string) (data : doc) : M unit :=
  do existing <- gets (λ w, coll c (db w) !! i);
  match existing with
  | Some _ => write_now (WSet c i data true)
  | None => throw "NOT_FOUND"
  end.

Definition updateSyncProgress (syncId : string) (progress : doc) : M unit :=
  try_catch
    (ensureInitialized ;;;
     do now <- new_Date;
     update_doc SYNC_HISTORY syncId (<["updated_at" := VDate now]> progress))
    (λ _, ret tt).

Definition opt_date (t : option Z) : value :=
  match t with Some t => VDate t | None => VNull end.

Definition completeSyncRecord (syncId : string) (stats : Stats) (status : string)
  : M unit :=
  try_catch
    (ensureInitialized ;;;
     do end_t <- new_Date;
     do completed <- new_Date;
     update_doc SYNC_HISTORY syncId
       (<["status" := VStr status]>
       (<["end_time" := VDate end_t]>
       (<["duration_ms" := VNum (duration_ms stats)]>
       (<["duration_minutes" := VNum (duration_minutes stats)]>
       (<["drives_count" := js_or (VNum (Z.of_nat (drives_count stats))) (VNum 0)]>
       (<["folders_count" := js_or (VNum (Z.of_nat (folders_count stats))) (VNum 0)]>
       (<["managers_count" := js_or (VNum (Z.of_nat (managers_count stats))) (VNum 0)]>
       (<["errors" := VList (errors stats)]>
       (<["completed_at" := VDate completed]> ∅))))))))))
    (λ _, ret tt).

Definition updateSyncStatus (status : string) (syncId : option string) : M unit :=
  try_catch
    (ensureInitialized ;;;
     do updated <- new_Date;
     let updateData : doc :=
       <["status" := VStr status]> (<["updated_at" := VDate updated]> ∅) in
     let updateData :=
       match syncId with
       | Some i => if String.eqb i EmptyString then updateData
                   else <["current_sync_id" := VStr i]> updateData
       | None => updateData
       end in
     do updateData <-
       (if String.eqb status "completed" || String.eqb status "failed"
        then do last <- new_Date;
             ret (<["current_sync_id" := VNull]>
                    (<["last_sync" := VDate last]> updateData))
        else ret updateData);
     write_now (WSet SYNC_STATUS "current" updateData true))
    (λ _, ret tt).

End Services.

(** * googleDriveService.js *)

(** An answer of the provider's API to one listing, all pages taken
    together: the [do ... while (pageToken)] loops concatenate the pages
    and lose everything when one page fails. *)
Inductive response (A : Type) :=
| Response (data : A)
| Failure (message : string).
Arguments Response {A} data.
Arguments Failure {A} message.

Record Provider := mkProvider {
  (* drive.about.get: the user's email address *)
  about_get : response string;
  (* drive.drives.list *)
  drives_list : response (list Drive.t);
  (* drive.drives.get({driveId}) *)
  drives_get : string → response Drive.t;
  (* drive.files.list, q = "'parent' in parents and mimeType = folder and
     trashed = false", within the corpus of driveId *)
  files_list : string → string → response (list Folder.t);
  (* drive.permissions.list({fileId}) *)
  permissions_list : string → response (list Manager.t)
}.

Definition call {A} (r : response A) : M A :=
  match r with
  | Response a => ret a
  | Failure e => throw e
  end.

(** ** The folder map of calculateFolderPaths

    A JavaScript [Map] keeps its keys in the order of their first insertion;
    [set] on a present key replaces the value in place. *)
Abbreviation folderMap := (list (string * Folder.t)).

Fixpoint fm_get (m : folderMap) (k : string) : option Folder.t :=
  match m with
  | [] => None
  | (k', v) :: m' => if String.eqb k' k then Some v else fm_get m' k
  end.

Fixpoint fm_set (k : string) (v : Folder.t) (m : folderMap) : folderMap :=
  match m with
  | [] => [(k, v)]
  | (k', v') :: m' =>
      if String.eqb k' k then (k', v) :: m' else (k', v') :: fm_set k v m'
  end.

(** [folderMap.get(k).full_path = p]: the object held by the map is mutated. *)
Fixpoint fm_set_full_path (k : string) (p : string) (m : folderMap) : folderMap :=
  match m with
  | [] => []
  | (k', v) :: m' =>
      if String.eqb k' k then (k', Folder.with_full_path (Some p) v) :: m'
      else (k', v) :: fm_set_full_path k p m'
  end.

(** [folder.parents && folder.parents[0]], when truthy *)
Definition first_parent (folder : Folder.t) : option string :=
  match Folder.parents folder with
  | Some (p :: _) => if String.eqb p EmptyString then None else Some p
  | _ => None
  end.

Fixpoint calculatePath (fuel : nat) (driveId : string) (folderId : string)
    (visited : gset string) (m : folderMap) : option (string * folderMap) :=
  match fuel with
  | 0 => None
  | S fuel' =>
      if bool_decide (folderId ∈ visited) then Some ("/", m)
      else
        match fm_get m folderId with
        | None => Some ("/", m)
        | Some folder =>
            match Folder.full_path folder with
            | Some p => Some (p, m)
            | None =>
                let visited := {[folderId]} ∪ visited in
                match first_parent folder with
                | None =>
                    let p := "/" +:+ Folder.name folder in
                    Some (p, fm_set_full_path folderId p m)
                | Some parentId =>
                    if String.eqb parentId driveId then
                      let p := "/" +:+ Folder.name folder in
                      Some (p, fm_set_full_path folderId p m)
                    else
                      match calculatePath fuel' driveId parentId visited m with
                      | None => None
                      | Some (parentPath, m') =>
                          let p := parentPath +:+ "/" +:+ Folder.name folder in
                          Some (p, fm_set_full_path folderId p m')
                      end
                end
            end
        end
  end.

Definition build_folderMap (folders : list Folder.t) : folderMap :=
  foldl (λ m folder,
           fm_set (Folder.id folder) (Folder.with_full_path None folder) m)
        [] folders.

Fixpoint calculate_all (fuel : nat) (driveId : string) (folders : list Folder.t)
    (m : folderMap) : option folderMap :=
  match folders with
  | [] => Some m
  | folder :: rest =>
      match calculatePath fuel driveId (Folder.id folder) ∅ m with
      | None => None
      | Some (_, m') => calculate_all fuel driveId rest m'
      end
  end.

(** [None] when the fuel does not cover the depth of the recursion of
    [calculatePath]; a fuel above the number of folders always does (each
    recursive call adds one key of the map to [visited]). *)
Definition calculateFolderPaths (fuel : nat) (folders : list Folder.t)
    (driveId : string) : option (list Folder.t) :=
  match calculate_all fuel driveId folders (build_folderMap folders) with
  | None => None
  | Some m => Some (m.*2)
  end.

(** The value returned by performFullSync. *)
Module DriveData.
Record stats := mkStats {
  drives_count : nat;
  folders_count : nat;
  managers_count : nat;
  errors : list string
}.
Record t := mk {
  drives : list Drive.t;
  stats_of : stats
}.
End DriveData.

Section GoogleDrive.

Variable P : Provider.

Definition gd_ensureInitialized : M unit :=
  do init <- gets gd_initialized;
  if init then ret tt
  else throw "Google Drive Sync Service no está inicializado. Llama a initialize() primero.".

Definition getAllSharedDrives : M (list Drive.t) :=
  gd_ensureInitialized ;;;
  call (drives_list P).

Definition getDirectSubfolders (driveId parentFolderId : string) : M (list Folder.t) :=
  try_catch (call (files_list P driveId parentFolderId)) (λ _, ret []).

Fixpoint getSubfoldersRecursively (fuel : nat) (driveId : string)
    (parentFolders : list Folder.t) : M (list Folder.t) :=
  match fuel with
  | 0 => diverge
  | S fuel' =>
      try_catch
        (for_of
           (λ folder allSubfolders,
              do subfolders <- getDirectSubfolders driveId (Folder.id folder);
              let allSubfolders := allSubfolders ++ subfolders in
              if 0 <? length subfolders then
                do deeperSubfolders <- getSubfoldersRecursively fuel' driveId subfolders;
                ret (allSubfolders ++ deeperSubfolders)
              else ret allSubfolders)
           parentFolders [])
        (λ _, ret [])
  end.

Definition getFoldersFromDrive (fuel : nat) (driveId driveName : string)
  : M (list Folder.t) :=
  gd_ensureInitialized ;;;
  do allFolders <- call (files_list P driveId driveId);
  do allSubfolders <- getSubfoldersRecursively fuel driveId allFolders;
  let totalFolders := allFolders ++ allSubfolders in
  match calculateFolderPaths (S (length totalFolders)) totalFolders driveId with
  | Some foldersWithPaths => ret foldersWithPaths
  | None => diverge
  end.

Definition is_manager_role (permission : Manager.t) : bool :=
  bool_decide (Manager.role permission = VStr "organizer") ||
  bool_decide (Manager.role permission = VStr "fileOrganizer").

Definition getManagersFromDrive (driveId driveName : string) : M (list Manager.t) :=
  gd_ensureInitialized ;;;
  do permissions <- call (permissions_list P driveId);
  ret (filter (λ p, is_manager_role p = true) permissions).

(** One turn of the loop of performFullSync. The two fetches of
    [Promise.all] write nothing; when both fail the message kept here is the
    one of the folder fetch. *)
Definition fetch_drive_step (fuel : nat) (drive : Drive.t)
    (st : list Drive.t * DriveData.stats) : M (list Drive.t * DriveData.stats) :=
  let '(done, syncStats) := st in
  try_catch
    (do folders <- getFoldersFromDrive fuel (Drive.id drive) (Drive.name drive);
     do managers <- getManagersFromDrive (Drive.id drive) (Drive.name drive);
     let syncStats :=
       DriveData.mkStats (DriveData.drives_count syncStats)
         (DriveData.folders_count syncStats + length folders)
         (DriveData.managers_count syncStats + length managers)
         (DriveData.errors syncStats) in
     ret (done ++ [Drive.with_data folders managers drive], syncStats))
    (λ message,
       let errorMsg :=
         "Error procesando unidad " +:+ Drive.name drive +:+ ": " +:+ message in
       let syncStats :=
         DriveData.mkStats (DriveData.drives_count syncStats)
           (DriveData.folders_count syncStats)
           (DriveData.managers_count syncStats)
           (DriveData.errors syncStats ++ [errorMsg]) in
       ret (done ++ [Drive.with_data [] [] drive], syncStats)).

Definition performFullSync (fuel : nat) : M DriveData.t :=
  gd_ensureInitialized ;;;
  let syncStats := DriveData.mkStats 0 0 0 [] in
  do drives <- getAllSharedDrives;
  let syncStats := DriveData.mkStats (length drives) 0 0 [] in
  do ' (drives, syncStats) <- for_of (fetch_drive_step fuel) drives ([], syncStats);
  ret (DriveData.mk drives syncStats).

Record ConnectionTest := mkConnectionTest {
  ct_success : bool;
  ct_user : option string;
  ct_error : option string
}.

Definition testConnection : M ConnectionTest :=
  try_catch
    (gd_ensureInitialized ;;;
     do user <- call (about_get P);
     ret (mkConnectionTest true (Some user) None))
    (λ message, ret (mkConnectionTest false None (Some message))).

Definition getDriveInfo (driveId : string) : M Drive.t :=
  gd_ensureInitialized ;;;
  call (drives_get P driveId).

End GoogleDrive.

(** * syncService.js *)

(** The value a run resolves to. *)
Record SyncOutcome := mkSyncOutcome {
  success : bool;
  sync_id : option string;
  stats : Stats;
  error : option string;
  status : string
}.

Definition already_running : string := "Ya hay una sincronización en progreso".

Definition emptyStats : Stats := mkStats 0 0 0 [] None None 0 0.

Definition set_counts (d f m : nat) (s : Stats) : Stats :=
  mkStats d f m (errors s) (start_time s) (end_time s)
          (duration_ms s) (duration_minutes s).
Definition set_errors (es : list string) (s : Stats) : Stats :=
  mkStats (drives_count s) (folders_count s) (managers_count s) es
          (start_time s) (end_time s) (duration_ms s) (duration_minutes s).
Definition set_start_time (t : Z) (s : Stats) : Stats :=
  mkStats (drives_count s) (folders_count s) (managers_count s) (errors s)
          (Some t) (end_time s) (duration_ms s) (duration_minutes s).

(** [Math.round(ms / 60000 * 100) / 100], kept in hundredths of a minute. *)
Definition round_minutes (ms : Z) : Z := ((2 * ms + 600) / 1200)%Z.

Definition set_end_time (t : Z) (s : Stats) : Stats :=
  let ms := (t - default 0%Z (start_time s))%Z in
  mkStats (drives_count s) (folders_count s) (managers_count s) (errors s)
          (start_time s) (Some t) ms (round_minutes ms).

Section Sync.

Variable clock : nat → Z.
Variable autoId : nat → string.
Variable uuid : nat → string.
Variable P : Provider.

Definition resetStats : M unit := modify (set_syncStats emptyStats).

Definition update_stats (f : Stats → Stats) : M unit :=
  modify (λ w, set_syncStats (f (syncStats w)) w).

(** [this.syncStats.errors.push(msg)] *)
Definition push_error (msg : string) : M unit :=
  update_stats (λ s, set_errors (errors s ++ [msg]) s).

(** [this.currentSyncId], read during a run. *)
Definition this_currentSyncId : M string :=
  do i <- gets currentSyncId; ret (default EmptyString i).

(** The end of both branches: end time and durations. *)
Definition stamp_end : M unit :=
  do now <- new_Date clock;
  update_stats (set_end_time now).

(** One turn of the loop of syncToFirestore. The two writers of
    [Promise.all] work on different collections (folders, drive_managers). *)
Definition sync_drive_step (n : nat) (drive : Drive.t) (i : nat) : M nat :=
  try_catch
    (syncFoldersForDrive clock (Drive.id drive) (default [] (Drive.folders drive)) ;;;
     syncManagersForDrive clock autoId (Drive.id drive) (Drive.name drive)
       (default [] (Drive.managers drive)) ;;;
     do syncId <- this_currentSyncId;
     updateSyncProgress clock syncId
       (<["current_drive" := VStr (pretty (i + 1) +:+ "/" +:+ pretty n)]>
       (<["current_drive_name" := VStr (Drive.name drive)]> ∅)) ;;;
     ret (S i))
    (λ message,
       let errorMsg := "Error sincronizando unidad " +:+ Drive.name drive +:+
                       " a Firestore: " +:+ message in
       push_error errorMsg ;;;
       ret (S i)).

Definition syncToFirestore (drives : list Drive.t) : M unit :=
  do syncResult <- syncSharedDrives clock drives;
  for_of (sync_drive_step (length drives)) drives 0 ;;;
  ret tt.

Definition performSync_try (fuel : nat) : M SyncOutcome :=
  do syncId <- this_currentSyncId;
  recordSyncStart clock syncId ;;;
  updateSyncStatus clock "running" (Some syncId) ;;;
  do connectionTest <- testConnection P;
  if negb (ct_success connectionTest)
  then throw ("Error de conectividad con Google Drive: " +:+
              default "undefined" (ct_error connectionTest))
  else
    do driveData <- performFullSync P fuel;
    let st := DriveData.stats_of driveData in
    update_stats (λ s, set_errors (DriveData.errors st)
                         (set_counts (DriveData.drives_count st)
                                     (DriveData.folders_count st)
                                     (DriveData.managers_count st) s)) ;;;
    do s <- gets syncStats;
    updateSyncProgress clock syncId
      (<["drives_count" := VNum (Z.of_nat (drives_count s))]>
      (<["status" := VStr "syncing_to_firestore"]> ∅)) ;;;
    syncToFirestore (DriveData.drives driveData) ;;;
    stamp_end ;;;
    do s <- gets syncStats;
    let status := if 0 <? length (errors s) then "completed_with_errors"
                  else "completed" in
    completeSyncRecord clock syncId s status ;;;
    updateSyncStatus clock status None ;;;
    do s <- gets syncStats;
    ret (mkSyncOutcome true (Some syncId) s None status).

Definition performSync_catch (message : string) : M SyncOutcome :=
  stamp_end ;;;
  push_error ("Error crítico: " +:+ message) ;;;
  do syncId <- this_currentSyncId;
  do s <- gets syncStats;
  completeSyncRecord clock syncId s "failed" ;;;
  updateSyncStatus clock "failed" None ;;;
  ret (mkSyncOutcome false (Some syncId) s (Some message) "failed").

(** The part of both entry points before the [try]: the guard and the
    start of the run. *)
Definition enter_run : M unit :=
  do running <- gets isRunning;
  if running then throw already_running
  else
    modify (set_isRunning true) ;;;
    do i <- uuidv4 uuid;
    modify (set_currentSyncId (Some i)) ;;;
    resetStats ;;;
    do start <- new_Date clock;
    update_stats (set_start_time start).

(** The [finally] block of both entry points. *)
Definition leave_run (w : World) : World :=
  set_currentSyncId None (set_isRunning false w).

Definition performSync (fuel : nat) : M SyncOutcome :=
  enter_run ;;;
  finally (try_catch (performSync_try fuel) performSync_catch) leave_run.

(** One turn of the loop over the requested drive ids. *)
Definition fetch_one_step (fuel : nat) (driveId : string)
    (drivesToSync : list Drive.t) : M (list Drive.t) :=
  try_catch
    (do driveInfo <- getDriveInfo P driveId;
     do folders <- getFoldersFromDrive P fuel driveId (Drive.name driveInfo);
     do managers <- getManagersFromDrive P driveId (Drive.name driveInfo);
     update_stats (λ s, set_counts (drives_count s + 1)
                          (folders_count s + length folders)
                          (managers_count s + length managers) s) ;;;
     ret (drivesToSync ++ [Drive.with_data folders managers driveInfo]))
    (λ message,
       push_error ("Error obteniendo datos de unidad " +:+ driveId +:+ ": "
                   +:+ message) ;;;
       ret drivesToSync).

Definition performIncrementalSync_try (fuel : nat) (driveIds : list string)
  : M SyncOutcome :=
  do syncId <- this_currentSyncId;
  recordSyncStart clock syncId ;;;
  updateSyncStatus clock "running" (Some syncId) ;;;
  do drivesToSync <-
    (if 0 <? length driveIds
     then for_of (fetch_one_step fuel) driveIds []
     else
       do driveData <- performFullSync P fuel;
       let st := DriveData.stats_of driveData in
       update_stats (λ s, set_errors (DriveData.errors st)
                            (set_counts (DriveData.drives_count st)
                                        (DriveData.folders_count st)
                                        (DriveData.managers_count st) s)) ;;;
       ret (DriveData.drives driveData));
  syncToFirestore drivesToSync ;;;
  stamp_end ;;;
  do s <- gets syncStats;
  let status := if 0 <? length (errors s) then "completed_with_errors"
                else "completed" in
  completeSyncRecord clock syncId s status ;;;
  updateSyncStatus clock status None ;;;
  do s <- gets syncStats;
  ret (mkSyncOutcome true (Some syncId) s None status).

Definition performIncrementalSync (fuel : nat) (driveIds : list string)
  : M SyncOutcome :=
  enter_run ;;;
  finally (try_catch (performIncrementalSync_try fuel driveIds) performSync_catch)
          leave_run.

End Sync.

(** * Vocabulary of the specifications *)

Definition write_coll (x : write) : collection :=
  match x with WDelete c _ | WSet c _ _ _ => c end.

Definition write_id (x : write) : string :=
  match x with WDelete _ i | WSet _ i _ _ => i end.



(** The effect of one write on the document [i] of collection [c]. *)
Definition write_slot (c : collection) (i : string) (x : write) (o : option doc)
  : option doc :=
  match x with
  | WDelete c' i' => if decide (c' = c ∧ i' = i) then None else o
  | WSet c' i' data merge =>
      if decide (c' = c ∧ i' = i) then Some (set_doc merge o data) else o
  end.

Definition slot_after (c : collection) (i : string) (ops : list write)
    (o : option doc) : option doc :=
  foldl (λ o x, write_slot c i x o) o ops.
#[global] Arguments slot_after : simpl never.

(** The fields of the world that no store operation touches. *)
Definition frame (w w' : World) : Prop :=
  fs_initialized w' = fs_initialized w ∧ gd_initialized w' = gd_initialized w ∧
  uuids w' = uuids w ∧ isRunning w' = isRunning w ∧
  currentSyncId w' = currentSyncId w ∧ syncStats w' = syncStats w.

(** [flushed w0 ops w b]: starting from [w0], the writes [ops] have been
    handed to a batching loop; full batches of exactly [batchSize] writes
    have been committed, and [b] is still pending. *)
Definition flushed (w0 : World) (ops : list write) (w : World) (b : list write)
  : Prop :=
  ∃ new, commits w = commits w0 ++ new ∧
         Forall (λ x, length x = batchSize) new ∧
         concat new ++ b = ops ∧
         db w = apply_writes (concat new) (db w0) ∧
         length b < batchSize ∧
         frame w0 w ∧ ids w = ids w0.

(** [committed w0 ops w new]: a batching loop and its final flush have
    turned the writes [ops] into the batches [new], each within the limit. *)
Definition committed (w0 : World) (ops : list write) (w : World)
    (new : list (list write)) : Prop :=
  commits w = commits w0 ++ new ∧
  Forall (λ x, 0 < length x ≤ batchSize) new ∧
  concat new = ops ∧
  db w = apply_writes ops (db w0) ∧
  ids w = ids w0 ∧ frame w0 w.

Section SpecServices.

Variable clock : nat → Z.
Variable autoId : nat → string.

(** The merge-writes of step 5 of syncSharedDrives, for the drives in order,
    the first of them stamped with the [t]-th reading of the clock. *)
Fixpoint drive_upserts (existingDrives : gmap string doc) (t : nat)
    (drives : list Drive.t) : list write :=
  match drives with
  | [] => []
  | drive :: rest =>
      WSet SHARED_DRIVES (Drive.id drive)
           (driveData drive (clock t) (existingDrives !! Drive.id drive)) true
      :: drive_upserts existingDrives (S t) rest
  end.

(** All the writes of one call of syncSharedDrives. *)
Definition drive_writes (existingDrives : gmap string doc) (t : nat)
    (drives : list Drive.t) : list write :=
  (WDelete SHARED_DRIVES <$> drivesToDelete existingDrives drives) ++
  drive_upserts existingDrives t drives.

(** The merge-writes of syncFoldersForDrive. Each write is computed from
    the document read at that moment, which shows the batches committed so
    far ([d]) but not the pending writes ([b]). *)
Fixpoint folder_writes (driveId : string) (d : DB) (b : list write) (t : nat)
    (fs : list Folder.t) : list write :=
  match fs with
  | [] => []
  | folder :: rest =>
      let x := WSet FOLDERS (Folder.id folder)
                 (folderData driveId folder (clock t)
                    (folders d !! Folder.id folder)) true in
      x :: (if batchSize <=? S (length b)
            then folder_writes driveId (apply_writes (b ++ [x]) d) [] (S t) rest
            else folder_writes driveId d (b ++ [x]) (S t) rest)
  end.

(** The documents created by syncManagersForDrive with their ids, the
    first of them under the [n]-th automatic id and stamped with the [t]-th
    reading of the clock. *)
Fixpoint manager_entries (driveId driveName : string) (n t : nat)
    (managers : list Manager.t) : list (string * doc) :=
  match managers with
  | [] => []
  | manager :: rest =>
      (autoId n, managerData driveId driveName manager (clock t))
      :: manager_entries driveId driveName (S n) (S t) rest
  end.

Definition manager_sets (driveId driveName : string) (n t : nat)
    (managers : list Manager.t) : list write :=
  (λ kd, WSet DRIVE_MANAGERS kd.1 kd.2 false) <$>
  manager_entries driveId driveName n t managers.

(** The one batch of syncManagersForDrive. *)
Definition manager_writes (driveId driveName : string) (ms : gmap string doc)
    (n t : nat) (managers : list Manager.t) : list write :=
  (WDelete DRIVE_MANAGERS <$> (existingManagers driveId ms).*1) ++
  manager_sets driveId driveName n t managers.

End SpecServices.

(** A manager record "by email, role and permissionId": as stored, and as
    supplied (syncManagersForDrive reads [email || emailAddress] and
    [permissionId || id]). *)
Definition stored_key (d : doc) : value * value * value :=
  (js_get d "email", js_get d "role", js_get d "permissionId").

Definition supplied_key (m : Manager.t) : value * value * value :=
  (js_or (Manager.email m) (Manager.emailAddress m), Manager.role m,
   js_or (Manager.permissionId m) (Manager.id m)).



(** ** Concrete data for the examples *)

Definition ex_clock (n : nat) : Z := 1000 + Z.of_nat n.
Definition ex_autoId (n : nat) : string := "auto-" +:+ pretty n.
Definition ex_uuid (n : nat) : string := "run-" +:+ pretty n.

Definition ex_drive (i n : string) : Drive.t :=
  Drive.mk i n (VStr "drive#drive") VUndefined VUndefined VUndefined
           (VStr "2024-01-01T00:00:00Z") VUndefined VUndefined None None.

Definition ex_folder (i n : string) (parents : list string) : Folder.t :=
  Folder.mk i n (Some parents) (VStr "application/vnd.google-apps.folder")
            (VStr "2024-01-02T00:00:00Z") (VStr "2024-01-03T00:00:00Z") None.

Definition ex_permission (i e r : string) : Manager.t :=
  Manager.mk (VStr i) (VStr e) VUndefined VUndefined (VStr r) (VStr "user")
             VUndefined VUndefined.


Definition ex_world (d : DB) : World :=
  mkWorld true true d [] 0 0 0 false None emptyStats.

(** ** Path resolution *)

(** The keys of a folder map. *)
Definition fm_keys (m : folderMap) : gset string := list_to_set m.*1.

(** The path currently recorded for [X] is unset or is [PX]; nothing else
    of the record has changed. *)
Definition entry_ok (m : folderMap) (X : Folder.t) (PX : string) : Prop :=
  ∃ p, fm_get m (Folder.id X) = Some (Folder.with_full_path p X) ∧
       (p = None ∨ p = Some PX).

(** The path recorded for [X] is [PX]. *)
Definition entry_done (m : folderMap) (X : Folder.t) (PX : string) : Prop :=
  fm_get m (Folder.id X) = Some (Folder.with_full_path (Some PX) X).

(** Every entry of the folder map is filed under its own id. *)
Definition fm_wf (m : folderMap) : Prop :=
  Forall (λ kv, Folder.id kv.2 = kv.1) m.

(** The path recorded under key [k], if any. *)
Definition path_at (m : folderMap) (k : string) : option string :=
  fm_get m k ≫= Folder.full_path.

(** ** The remote reader as pure functions of the provider *)

Section SpecGoogleDrive.

Variable P : Provider.

(** What getDirectSubfolders returns: a failed listing counts as empty. *)
Definition children (driveId parentFolderId : string) : list Folder.t :=
  match files_list P driveId parentFolderId with
  | Response l => l
  | Failure _ => []
  end.


(** The recursive walk, without the world. *)
Fixpoint walk (fuel : nat) (driveId : string) (parentFolders : list Folder.t)
  : option (list Folder.t) :=
  match fuel with
  | 0 => None
  | S fuel' =>
      (fix go (l acc : list Folder.t) : option (list Folder.t) :=
         match l with
         | [] => Some acc
         | folder :: l' =>
             let subfolders := children driveId (Folder.id folder) in
             if 0 <? length subfolders then
               match walk fuel' driveId subfolders with
               | Some deeper => go l' ((acc ++ subfolders) ++ deeper)
               | None => None
               end
             else go l' (acc ++ subfolders)
         end) parentFolders []
  end.

Definition fetch_folders (fuel : nat) (driveId : string)
  : outcome (list Folder.t) :=
  match files_list P driveId driveId with
  | Failure e => Throw e
  | Response allFolders =>
      match walk fuel driveId allFolders with
      | None => Diverge
      | Some allSubfolders =>
          let totalFolders := allFolders ++ allSubfolders in
          match calculateFolderPaths (S (length totalFolders)) totalFolders driveId with
          | Some r => Ok r
          | None => Diverge
          end
      end
  end.

Definition fetch_managers (driveId : string) : outcome (list Manager.t) :=
  match permissions_list P driveId with
  | Failure e => Throw e
  | Response permissions => Ok (filter (λ p, is_manager_role p = true) permissions)
  end.

(** What the two fetches of one turn of performFullSync amount to. *)
Definition fetch_drive (fuel : nat) (driveId : string)
  : outcome (list Folder.t * list Manager.t) :=
  match fetch_folders fuel driveId with
  | Ok folders =>
      match fetch_managers driveId with
      | Ok managers => Ok (folders, managers)
      | Throw e => Throw e
      | Diverge => Diverge
      end
  | Throw e => Throw e
  | Diverge => Diverge
  end.

(** The drive as performFullSync hands it on: with its folders and
    managers, or with none when a fetch failed. *)
Definition fetched (fuel : nat) (drive : Drive.t) : Drive.t :=
  match fetch_drive fuel (Drive.id drive) with
  | Ok (folders, managers) => Drive.with_data folders managers drive
  | _ => Drive.with_data [] [] drive
  end.




End SpecGoogleDrive.

(** ** Run bookkeeping *)

(** Nothing of the mirrored data, of the batch log or of the services has
    changed: only the run records, the status document and the clock may
    differ. *)
Definition bookkeeping (w w' : World) : Prop :=
  shared_drives (db w') = shared_drives (db w) ∧
  folders (db w') = folders (db w) ∧
  drive_managers (db w') = drive_managers (db w) ∧
  commits w' = commits w ∧ ids w' = ids w ∧ frame w w'.

(** ** What a run leaves in the mirror *)





(** The mirrored data, the batch log, the id counter and the services'
    initialisation are as before. *)
Definition data_same (w w' : World) : Prop :=
  shared_drives (db w') = shared_drives (db w) ∧
  folders (db w') = folders (db w) ∧
  drive_managers (db w') = drive_managers (db w) ∧
  commits w' = commits w ∧ ids w' = ids w ∧
  fs_initialized w' = fs_initialized w ∧ gd_initialized w' = gd_initialized w.

(** The terminal status of a run that was not aborted. *)
Definition final_status (errs : list string) : string :=
  if 0 <? length errs then "completed_with_errors" else "completed".


(** ** Further vocabulary *)




(** The singleton status document. *)
Definition status_doc (w : World) : doc :=
  default ∅ (sync_status (db w) !! "current").


(** A chain of three folders under the drive: the paths expected for
    them, and the invariant of their resolution. *)
Section ChainSpec.

Variables A B C : Folder.t.

Definition chain_path_A : string := "/" +:+ Folder.name A.
Definition chain_path_B : string := chain_path_A +:+ "/" +:+ Folder.name B.
Definition chain_path_C : string := chain_path_B +:+ "/" +:+ Folder.name C.

Definition chain_inv (m : folderMap) : Prop :=
  entry_ok m A chain_path_A ∧ entry_ok m B chain_path_B ∧ entry_ok m C chain_path_C.

Definition chain_pre (x : string) (visited : gset string) : Prop :=
  (Folder.id A ∉ visited) ∧
  (Folder.id B ∈ visited → x = Folder.id A) ∧
  (Folder.id C ∈ visited → x = Folder.id A ∨ x = Folder.id B).

Definition chain_post (x : string) (p : string) (m' : folderMap) : Prop :=
  chain_inv m' ∧
  (x = Folder.id A → p = chain_path_A ∧ entry_done m' A chain_path_A) ∧
  (x = Folder.id B → p = chain_path_B ∧ entry_done m' B chain_path_B) ∧
  (x = Folder.id C → p = chain_path_C ∧ entry_done m' C chain_path_C).

End ChainSpec.

(** * Example data *)

(** Concrete remotes, mirrors and runs, on which the statements below are
    evaluated. *)


Definition ex_manager_doc (driveId email : string) (synced : bool) : doc :=
  <["driveId" := VStr driveId]>
  (<["email" := VStr email]>
  (<["role" := VStr "organizer"]>
  (<["permissionId" := VStr "p0"]>
  (<["synced_by_backend" := VBool synced]> ∅)))).

Definition ex_db4 : DB :=
  mkDB ∅ ∅
    (<["m-old" := ex_manager_doc "D1" "old@example.org" true]>
    (<["m-other" := ex_manager_doc "D2" "other@example.org" true]>
    (<["m-manual" := ex_manager_doc "D1" "manual@example.org" false]> ∅)))
    ∅ ∅.

Definition ex_managers4 : list Manager.t :=
  [ex_permission "p1" "ana@example.org" "organizer";
   ex_permission "p2" "luis@example.org" "fileOrganizer"].

Definition ex_cycle : list Folder.t :=
  [ex_folder "D" "D" ["E"]; ex_folder "E" "E" ["D"]].

Definition ex_tree : list Folder.t :=
  [ex_folder "c" "C" ["b"]; ex_folder "x" "X" ["a"]; ex_folder "b" "B" ["a"];
   ex_folder "a" "A" ["drive-1"]].

(** The 501 organizers of one drive. *)
Definition ex_many_managers : list Manager.t :=
  (λ n, ex_permission ("p" +:+ pretty n) ("user" +:+ pretty n +:+ "@example.org")
          "organizer") <$> seq 0 501.


(** A provider with the tree drive-1 / a / {b / c, x}. *)
Definition ex_tree_provider : Provider :=
  mkProvider (Response "admin@example.org")
    (Response [ex_drive "drive-1" "one"])
    (λ _, Failure "not found")
    (λ _ parent,
       if String.eqb parent "drive-1" then Response [ex_folder "a" "A" ["drive-1"]]
       else if String.eqb parent "a"
            then Response [ex_folder "b" "B" ["a"]; ex_folder "x" "X" ["a"]]
       else if String.eqb parent "b" then Response [ex_folder "c" "C" ["b"]]
       else Response [])
    (λ _, Response [ex_permission "p1" "ana@example.org" "organizer";
                    ex_permission "p2" "eva@example.org" "reader"]).


(** A world in which a run has been started. *)
Definition ex_running : World :=
  mkWorld true true (mkDB ∅ ∅ ∅ ∅ ∅) [] 1 0 1 true (Some "run-0")
          (set_start_time 1000 emptyStats).

(** Remote holds D1 and D2; listing the folders of D1 fails. *)
Definition ex_remote (fail_D1 : bool) : Provider :=
  mkProvider (Response "admin@example.org")
    (Response [ex_drive "D1" "one"; ex_drive "D2" "two"])
    (λ _, Failure "not found")
    (λ driveId parent,
       if fail_D1 && String.eqb driveId "D1" then Failure "quota exceeded"
       else if String.eqb parent "D2"
            then Response [ex_folder "f2" "reports" ["D2"]]
            else Response [])
    (λ _, Response [ex_permission "p1" "ana@example.org" "organizer";
                    ex_permission "p2" "eva@example.org" "reader"]).

(** The mirror holds D1 and D3. *)
Definition ex_db1 : DB :=
  mkDB (<["D1" := {["id" := VStr "D1"]}]> (<["D3" := {["id" := VStr "D3"]}]> ∅))
       ∅ ∅ ∅ ∅.



(** A full sync in which the folder listing of D1 fails. *)
Definition ex_partial_run : outcome SyncOutcome * World :=
  performSync ex_clock ex_autoId ex_uuid (ex_remote true) 3 (ex_world ex_db1).

From stdpp Require Import sorting.

(** * Further vocabulary for the service functions *)



(** * More of the three services *)

(** ** firestoreService.js: status, statistics, locally created drives *)

(** The value of getDatabaseStats: the three counts with a timestamp, or
    zeros with the message of the error. *)
Record DatabaseStats := mkDatabaseStats {
  db_drives_count : nat;
  db_folders_count : nat;
  db_managers_count : nat;
  db_timestamp : option Z;
  db_error : option string
}.

Module FirestoreService.
Section FirestoreService.

Variable clock : nat → Z.
Variable autoId : nat → string.

(** The status document, [{status: 'idle', last_sync: null,
    current_sync_id: null}] when there is none, [{status: 'unknown'}] on
    an error. *)
Definition getSyncStatus : M doc :=
  try_catch
    (ensureInitialized ;;;
     do doc <- gets (λ w, sync_status (db w) !! "current");
     match doc with
     | Some data => ret data
     | None =>
         ret (<["status" := VStr "idle"]>
             (<["last_sync" := VNull]>
             (<["current_sync_id" := VNull]> ∅)))
     end)
    (λ _, ret (<["status" := VStr "unknown"]> ∅)).

(** [collection.count().get()] on the three data collections; the
    timestamp is taken after the counts. *)
Definition getDatabaseStats : M DatabaseStats :=
  try_catch
    (ensureInitialized ;;;
     do drives <- gets (λ w, size (shared_drives (db w)));
     do folders <- gets (λ w, size (folders (db w)));
     do managers <- gets (λ w, size (drive_managers (db w)));
     do timestamp <- new_Date clock;
     ret (mkDatabaseStats drives folders managers (Some timestamp) None))
    (λ message, ret (mkDatabaseStats 0 0 0 None (Some message))).

(** The document that saveNewSharedDrive stores and returns. *)
Definition newDriveData (driveData : Drive.t) (created_at synced_at : Z) : doc :=
  <["id" := VStr (Drive.id driveData)]>
  (<["name" := VStr (Drive.name driveData)]>
  (<["kind" := Drive.kind driveData]>
  (<["colorRgb" := js_or (Drive.colorRgb driveData) VNull]>
  (<["backgroundImageFile" := js_or (Drive.backgroundImageFile driveData) VNull]>
  (<["capabilities" := js_or (Drive.capabilities driveData) (VObj [])]>
  (<["createdTime" := Drive.createdTime driveData]>
  (<["hidden" := js_or (Drive.hidden driveData) (VBool false)]>
  (<["restrictions" := js_or (Drive.restrictions driveData) (VObj [])]>
  (<["created_by_frontend" := VBool true]>
  (<["created_at" := VDate created_at]>
  (<["synced_at" := VDate synced_at]>
  (<["synced_by_backend" := VBool true]> ∅)))))))))))).

(** [driveRef.set(firestoreData)] is a plain set; the managers are written
    only when the list is not empty. *)
Definition saveNewSharedDrive (driveData : Drive.t) (managers : list Manager.t)
  : M doc :=
  ensureInitialized ;;;
  do created_at <- new_Date clock;
  do synced_at <- new_Date clock;
  let firestoreData := newDriveData driveData created_at synced_at in
  write_now (WSet SHARED_DRIVES (Drive.id driveData) firestoreData false) ;;;
  (if 0 <? length managers
   then syncManagersForDrive clock autoId (Drive.id driveData)
          (Drive.name driveData) managers ;;; ret tt
   else ret tt) ;;;
  ret firestoreData.

(** The date of a run record. *)
Definition sync_date_of (d : doc) : option Z :=
  match d !! "sync_date" with
  | Some (VDate t) => Some t
  | _ => None
  end.

(** The order of [orderBy('sync_date', 'desc')]: later dates first, and
    among equal dates the greater document id first. *)
Definition newer_first (a b : Z * (string * doc)) : Prop :=
  (b.1 < a.1)%Z ∨ (a.1 = b.1 ∧ String.leb b.2.1 a.2.1 = true).

#[global] Instance newer_first_dec a b : Decision (newer_first a b).
Proof. unfold newer_first. apply _. Defined.

(** Modelled from the spec: the answer of the store to the query
    [collection(SYNC_HISTORY).orderBy('sync_date', 'desc').offset(keepLast)]:
    the run records by run date, descending, without the first [keepLast]
    ("all but the keepLast most-recent (by run date, descending) SyncRun
    records"). A record takes part with the date it carries in sync_date,
    the field that recordSyncStart writes. *)
Definition history_query (keepLast : nat) (history : gmap string doc)
  : list (string * doc) :=
  (drop keepLast
     (merge_sort newer_first
        (omap (λ kd, (λ t, (t, kd)) <$> sync_date_of kd.2) (map_to_list history)))).*2.

(** All the deletes go into one batch. *)
Definition cleanupSyncHistory (keepLast : nat) : M nat :=
  try_catch
    (ensureInitialized ;;;
     do snapshot <- gets (λ w, history_query keepLast (sync_history (db w)));
     if bool_decide (snapshot = [])
     then ret 0
     else
       let batch := (λ kd, WDelete SYNC_HISTORY kd.1) <$> snapshot in
       commit batch ;;;
       ret (length snapshot))
    (λ _, ret 0).

End FirestoreService.
End FirestoreService.

(** ** googleDriveService.js: creating a drive *)

(** The two write calls of the provider's API. The request id of
    [drives.create] (made of [Date.now()] and [Math.random()]) is an
    idempotency token and does not show in the answer. *)
Record Creator := mkCreator {
  (* drive.drives.create({resource: {name}}) *)
  drives_create : string → response Drive.t;
  (* drive.permissions.create({fileId, resource: {role: 'organizer',
     type: 'user', emailAddress}}) *)
  permissions_create : string → string → response Manager.t
}.

(** The value of createSharedDrive. *)
Record CreatedDrive := mkCreatedDrive {
  cd_drive : Drive.t;
  cd_managers : list Manager.t
}.

Module GoogleDriveService.
Section GoogleDriveService.

Variable clock : nat → Z.
(** [date.toISOString()] *)
Variable toISOString : Z → string.
Variable C : Creator.

(** [this.drive] is taken to be set, as it is wherever the function is
    called after [ensureInitialized]. *)
Definition addManagerToSharedDrive (driveId email : string) : M Manager.t :=
  call (permissions_create C driveId email).

(** One turn of the loop over the requested manager emails. *)
Definition add_manager_email_step (driveId : string) (managerEmail : string)
    (addedManagers : list Manager.t) : M (list Manager.t) :=
  try_catch
    (do permission <- addManagerToSharedDrive driveId managerEmail;
     ret (addedManagers ++
          [Manager.mk VUndefined VUndefined (VStr managerEmail)
             (Manager.id permission) (VStr "organizer") (VStr "user")
             VUndefined VUndefined]))
    (λ _, ret addedManagers).

(** [newDrive.createdTime || new Date().toISOString()] reads the clock
    only when the answer has no creation time. *)
Definition created_time_or_now (newDrive : Drive.t) : M value :=
  if truthy (Drive.createdTime newDrive) then ret (Drive.createdTime newDrive)
  else do now <- new_Date clock; ret (VStr (toISOString now)).

Definition createSharedDrive (name : string) (managers : list string)
  : M CreatedDrive :=
  gd_ensureInitialized ;;;
  do newDrive <- call (drives_create C name);
  do addedManagers <-
    for_of (add_manager_email_step (Drive.id newDrive)) managers [];
  do createdTime <- created_time_or_now newDrive;
  ret (mkCreatedDrive
         (Drive.mk (Drive.id newDrive) (Drive.name newDrive)
            (js_or (Drive.kind newDrive) (VStr "drive#drive"))
            (js_or (Drive.colorRgb newDrive) VNull)
            (js_or (Drive.backgroundImageFile newDrive) VNull)
            (js_or (Drive.capabilities newDrive) (VObj []))
            createdTime
            (js_or (Drive.hidden newDrive) (VBool false))
            (js_or (Drive.restrictions newDrive) (VObj []))
            None None)
         addedManagers).

End GoogleDriveService.
End GoogleDriveService.

(** ** syncService.js: status, maintenance, health *)

(** The value of getSyncStatus: the full report, or the short one of the
    [catch] branch. [SYNC.INTERVAL_HOURS] and [SYNC.ENABLED] are read from
    the SYNC object of config.js. *)
Inductive SyncStatusReport :=
| StatusReport (is_running : bool) (sync_id : option string)
    (start_time : option Z) (firestore_status : doc)
    (database_stats : DatabaseStats) (interval_hours enabled : value)
| StatusFailure (is_running : bool) (sync_id : option string) (error : string).

(** The value of healthCheck. *)
Inductive HealthReport :=
| Healthy (google_drive : ConnectionTest) (firestore_connected : bool)
    (firestore_stats : DatabaseStats) (is_running : bool)
    (current_sync_id : option string)
| Unhealthy (error : string).

(** The value of performMaintenance. *)
Inductive MaintenanceReport :=
| Maintained (cleaned_records : nat)
| MaintenanceFailed (error : string).

Module SyncService.
Section SyncService.

Variable clock : nat → Z.
Variable P : Provider.

(** The SYNC object of config.js has the keys INTERVAL_MINUTES, TIMEZONE,
    MAX_RETRIES, RETRY_DELAY_SECONDS, BATCH_SIZE and AUTO_SYNC_ENABLED: the
    two keys read here are not among them. *)
Definition SYNC_INTERVAL_HOURS : value := VUndefined.
Definition SYNC_ENABLED : value := VUndefined.

Definition getSyncStatus : M SyncStatusReport :=
  try_catch
    (do firestoreStatus <- FirestoreService.getSyncStatus;
     do dbStats <- FirestoreService.getDatabaseStats clock;
     do running <- gets isRunning;
     do syncId <- gets currentSyncId;
     do stats <- gets syncStats;
     ret (StatusReport running syncId (start_time stats) firestoreStatus dbStats
            SYNC_INTERVAL_HOURS SYNC_ENABLED))
    (λ message,
       do running <- gets isRunning;
       do syncId <- gets currentSyncId;
       ret (StatusFailure running syncId message)).

Definition performMaintenance : M MaintenanceReport :=
  try_catch
    (do cleanedRecords <- FirestoreService.cleanupSyncHistory 50;
     ret (Maintained cleanedRecords))
    (λ message, ret (MaintenanceFailed message)).

Definition healthCheck : M HealthReport :=
  try_catch
    (do driveTest <- testConnection P;
     do firestoreStats <- FirestoreService.getDatabaseStats clock;
     do running <- gets isRunning;
     do syncId <- gets currentSyncId;
     ret (Healthy driveTest true firestoreStats running syncId))
    (λ message, ret (Unhealthy message)).

End SyncService.
End SyncService.

(** The entry that createSharedDrive keeps for a requested manager: none
    when the permission could not be created. *)
Definition added_manager (C : Creator) (driveId email : string)
  : option Manager.t :=
  match permissions_create C driveId email with
  | Response permission =>
      Some (Manager.mk VUndefined VUndefined (VStr email) (Manager.id permission)
              (VStr "organizer") (VStr "user") VUndefined VUndefined)
  | Failure _ => None
  end.

(** ** What a run leaves alone *)





(** The failure that stops a full sync before it reads or writes any
    mirrored data: the store or the Drive service is not initialised, the
    connectivity probe fails, or the drives cannot be listed. *)
Definition abort_message (P : Provider) (w : World) : option string :=
  if fs_initialized w then
    if gd_initialized w then
      match about_get P with
      | Failure e => Some ("Error de conectividad con Google Drive: " +:+ e)
      | Response _ =>
          match drives_list P with
          | Failure e => Some e
          | Response _ => None
          end
      end
    else Some ("Error de conectividad con Google Drive: " +:+
               "Google Drive Sync Service no está inicializado. Llama a initialize() primero.")
  else Some "Firestore Sync Service no está inicializado. Llama a initialize() primero.".

(** ** One requested drive of an incremental sync *)

Section SpecIncremental.

Variable P : Provider.





End SpecIncremental.

(** ** The path of a folder *)

Section SpecPaths.

Variable folders : list Folder.t.
Variable driveId : string.

(** The rules of calculateFolderPaths: a folder directly under the drive
    (or with no parent) has the path /name; a folder whose parent is in
    the list has the path of the parent followed by /name; a folder whose
    parent is not in the list gets the fallback / for it, hence //name. *)
Inductive path_of : Folder.t → string → Prop :=
| path_top f :
    f ∈ folders →
    first_parent f = None ∨ first_parent f = Some driveId →
    path_of f ("/" +:+ Folder.name f)
| path_orphan f q :
    f ∈ folders →
    first_parent f = Some q → q ≠ driveId → q ∉ Folder.id <$> folders →
    path_of f ("//" +:+ Folder.name f)
| path_child f g pg :
    f ∈ folders → g ∈ folders →
    first_parent f = Some (Folder.id g) → Folder.id g ≠ driveId →
    path_of g pg →
    path_of f (pg +:+ "/" +:+ Folder.name f).

(** Every entry of the folder map belongs to a folder of the list and is
    that folder with no path yet or with its path. *)
Definition paths_ok (m : folderMap) : Prop :=
  (∀ k, is_Some (fm_get m k) → k ∈ Folder.id <$> folders) ∧
  (∀ X, X ∈ folders →
        ∃ o, fm_get m (Folder.id X) = Some (Folder.with_full_path o X) ∧
             ∀ p, o = Some p → path_of X p).

End SpecPaths.

(** ** The fields that a sync writes *)




(** ** The run history by date *)

(** No later date follows an earlier one. *)
Definition not_older (a b : Z * (string * doc)) : Prop := (b.1 ≤ a.1)%Z.

(** The records of the history with their dates. *)
Definition dated (history : gmap string doc) : list (Z * (string * doc)) :=
  omap (λ kd, (λ t, (t, kd)) <$> FirestoreService.sync_date_of kd.2)
       (map_to_list history).

(** The same, newest first. *)
Definition ranked (history : gmap string doc) : list (Z * (string * doc)) :=
  merge_sort FirestoreService.newer_first (dated history).

(** * Further example data *)



(** A mirror with the record of a run in progress. *)
Definition ex_db_running : DB :=
  mkDB (<["D1" := {["id" := VStr "D1"]}]> ∅) ∅ ∅
       (<["run-0" := <["sync_id" := VStr "run-0"]>
                     (<["status" := VStr "running"]>
                     (<["start_time" := VDate 1000]> ∅))]> ∅)
       (<["current" := <["status" := VStr "running"]>
                       (<["current_sync_id" := VStr "run-0"]> ∅)]> ∅).

(** The statistics of a run over two drives. *)
Definition ex_stats : Stats :=
  mkStats 2 1 2 [] (Some 1000%Z) (Some 1012%Z) 12 0.

(** A provider that creates the drive "N1" and grants every permission
    but the one for bad@example.org. *)
Definition ex_creator : Creator :=
  mkCreator
    (λ name, Response (Drive.mk "N1" name VUndefined VUndefined VUndefined
                         VUndefined VUndefined VUndefined VUndefined None None))
    (λ _ email,
       if String.eqb email "bad@example.org" then Failure "invalid sharing request"
       else Response (Manager.mk (VStr ("perm-" +:+ email)) (VStr email)
                        VUndefined VUndefined (VStr "organizer") (VStr "user")
                        VUndefined VUndefined)).

Definition ex_toISOString (t : Z) : string := "T" +:+ pretty t.

(** A provider whose connectivity probe fails. *)
Definition ex_offline : Provider :=
  mkProvider (Failure "invalid_grant") (Failure "invalid_grant")
    (λ _, Failure "invalid_grant") (λ _ _, Failure "invalid_grant")
    (λ _, Failure "invalid_grant").


(** Three run records, dated 10, 30 and 20. *)
Definition ex_history_db : DB :=
  mkDB ∅ ∅ ∅
    (<["r1" := {["sync_date" := VDate 10]}]>
    (<["r2" := {["sync_date" := VDate 30]}]>
    (<["r3" := {["sync_date" := VDate 20]}]> ∅))) ∅.

(** A chain c under b under a under the drive, and a folder o whose
    parent is not listed. *)
Definition ex_forest : list Folder.t :=
  [ex_folder "c" "C" ["b"]; ex_folder "o" "O" ["gone"]; ex_folder "b" "B" ["a"];
   ex_folder "a" "A" ["drive-1"]].

Definition ex_depth (f : Folder.t) : nat :=
  if String.eqb (Folder.id f) "c" then 2
  else if String.eqb (Folder.id f) "b" then 1
  else 0.



(** * Proofs *)

(** * Reasoning about the monad *)

Lemma bind_Ok {A B} (m : M A) (k : A → M B) w a w' :
  m w = (Ok a, w') → bind m k w = k a w'.
Proof. unfold bind. by intros ->. Qed.

Lemma bind_Throw {A B} (m : M A) (k : A → M B) w e w' :
  m w = (Throw e, w') → bind m k w = (Throw e, w').
Proof. unfold bind. by intros ->. Qed.

Lemma bind_Diverge {A B} (m : M A) (k : A → M B) w w' :
  m w = (Diverge, w') → bind m k w = (Diverge, w').
Proof. unfold bind. by intros ->. Qed.

Lemma try_catch_Ok {A} (m : M A) h w a w' :
  m w = (Ok a, w') → try_catch m h w = (Ok a, w').
Proof. unfold try_catch. by intros ->. Qed.

Lemma try_catch_Throw {A} (m : M A) h w e w' :
  m w = (Throw e, w') → try_catch m h w = h e w'.
Proof. unfold try_catch. by intros ->. Qed.

Lemma try_catch_Diverge {A} (m : M A) h w w' :
  m w = (Diverge, w') → try_catch m h w = (Diverge, w').
Proof. unfold try_catch. by intros ->. Qed.

Lemma ensureInitialized_ok w :
  fs_initialized w = true → ensureInitialized w = (Ok tt, w).
Proof. unfold ensureInitialized, bind, gets. by intros ->. Qed.

Lemma ensureInitialized_throw w :
  fs_initialized w = false → ∃ e, ensureInitialized w = (Throw e, w).
Proof. unfold ensureInitialized, bind, gets. intros ->. by eexists. Qed.

(** * Reasoning about the store *)

Lemma coll_set_coll_eq c m d : coll c (set_coll c m d) = m.
Proof. by destruct c. Qed.

Lemma coll_set_coll_ne c c' m d : c ≠ c' → coll c' (set_coll c m d) = coll c' d.
Proof. by destruct c, c'. Qed.

Lemma apply_writes_app a b d :
  apply_writes (a ++ b) d = apply_writes b (apply_writes a d).
Proof. apply foldl_app. Qed.

Lemma apply_write_other c x d :
  (match x with WDelete c' _ | WSet c' _ _ _ => c' ≠ c end) →
  coll c (apply_write x d) = coll c d.
Proof. destruct x; simpl; intros ?; by apply coll_set_coll_ne. Qed.

Lemma apply_writes_other c ops d :
  Forall (λ x, write_coll x ≠ c) ops →
  coll c (apply_writes ops d) = coll c d.
Proof.
  revert d. induction ops as [|x ops IH]; intros d Hall; [done|].
  inversion Hall; subst. simpl. rewrite IH; [|done].
  apply apply_write_other. by destruct x.
Qed.

Lemma frame_refl w : frame w w.
Proof. by repeat split. Qed.

Lemma frame_trans w1 w2 w3 : frame w1 w2 → frame w2 w3 → frame w1 w3.
Proof. unfold frame. intros (?&?&?&?&?&?) (?&?&?&?&?&?). repeat split; congruence. Qed.

Lemma flushed_start w : flushed w [] w [].
Proof.
  exists nil. rewrite app_nil_r. repeat split; try done.
  simpl; unfold batchSize; lia.
Qed.

Lemma flushed_ticks w0 ops w b n :
  flushed w0 ops w b → flushed w0 ops (set_ticks n w) b.
Proof. intros (new & ?); exists new. done. Qed.

Lemma count_and_flush_spec w0 ops w b x :
  flushed w0 ops w b →
  ∃ b' w', count_and_flush (b ++ [x]) (length b) w = (Ok (b', length b'), w') ∧
           flushed w0 (ops ++ [x]) w' b' ∧ ticks w' = ticks w.
Proof.
  intros (new & Hc & Hall & Hops & Hdb & Hlen & Hfr & Hids).
  unfold count_and_flush.
  destruct (batchSize <=? S (length b)) eqn:Hfull.
  - apply Nat.leb_le in Hfull.
    exists nil; eexists. split; [reflexivity|]. split; [|done].
    exists (new ++ [b ++ [x]]). simpl. split_and!.
    + by rewrite Hc, app_assoc.
    + apply Forall_app; split; [done|]. constructor; [|done].
      rewrite length_app; simpl. lia.
    + rewrite app_nil_r, concat_app; simpl. by rewrite app_nil_r, <- Hops, app_assoc.
    + rewrite Hdb, concat_app; simpl. by rewrite app_nil_r, !apply_writes_app.
    + unfold batchSize; lia.
    + done.
    + done.
  - apply Nat.leb_gt in Hfull.
    exists (b ++ [x]), w. split.
    { unfold ret. by rewrite length_app, Nat.add_1_r. }
    split; [|done]. exists new. split_and!; try done.
    + by rewrite <- Hops, app_assoc.
    + rewrite length_app; simpl. lia.
Qed.

Lemma final_flush_spec w0 ops w b :
  flushed w0 ops w b →
  ∃ w' new, (if 0 <? length b then commit b else ret tt) w = (Ok tt, w') ∧
            committed w0 ops w' new ∧ ticks w' = ticks w.
Proof.
  intros (new & Hc & Hall & Hops & Hdb & Hlen & Hfr & Hids).
  assert (Hall' : Forall (λ x : list write, 0 < length x ≤ batchSize) new).
  { eapply Forall_impl; [exact Hall|]. intros x ->. unfold batchSize; lia. }
  destruct (0 <? length b) eqn:Hpos.
  - apply Nat.ltb_lt in Hpos.
    eexists; exists (new ++ [b]). split; [reflexivity|]. split; [|done].
    unfold committed; simpl. split_and!.
    + by rewrite Hc, app_assoc.
    + apply Forall_app; split; [done|]. constructor; [lia|done].
    + rewrite concat_app; simpl. by rewrite app_nil_r.
    + by rewrite Hdb, <- Hops, apply_writes_app.
    + done.
    + done.
  - apply Nat.ltb_ge in Hpos.
    assert (b = []) as -> by (destruct b; [done|simpl in Hpos; lia]).
    exists w, new. split; [done|]. split; [|done].
    rewrite app_nil_r in Hops. unfold committed. split_and!; try done.
    by rewrite <- Hops.
Qed.

Section StoreProofs.

Variable clock : nat → Z.
Variable autoId : nat → string.

Lemma delete_loop_spec w0 ops dels w b :
  flushed w0 ops w b →
  ∃ b' w', for_of delete_drive_step dels (b, length b) w = (Ok (b', length b'), w') ∧
           flushed w0 (ops ++ (WDelete SHARED_DRIVES <$> dels)) w' b' ∧
           ticks w' = ticks w.
Proof.
  revert ops w b. induction dels as [|i dels IH]; intros ops w b Hfl.
  - exists b, w. simpl. by rewrite app_nil_r.
  - destruct (count_and_flush_spec _ _ _ _ (WDelete SHARED_DRIVES i) Hfl)
      as (b1 & w1 & Hstep & Hfl1 & Ht1).
    destruct (IH _ _ _ Hfl1) as (b2 & w2 & Hrest & Hfl2 & Ht2).
    exists b2, w2. split; [|split].
    + simpl. unfold bind. simpl. rewrite Hstep. exact Hrest.
    + by rewrite fmap_cons, cons_middle, app_assoc.
    + congruence.
Qed.

Lemma upsert_loop_spec existing w0 ops drives w b :
  flushed w0 ops w b →
  ∃ b' w', for_of (upsert_drive_step clock existing) drives (b, length b) w
             = (Ok (b', length b'), w') ∧
           flushed w0 (ops ++ drive_upserts clock existing (ticks w) drives) w' b' ∧
           ticks w' = ticks w + length drives.
Proof.
  revert ops w b. induction drives as [|d drives IH]; intros ops w b Hfl.
  - exists b, w. simpl. rewrite app_nil_r. split_and!; [done|done|lia].
  - apply (flushed_ticks _ _ _ _ (S (ticks w))) in Hfl.
    destruct (count_and_flush_spec _ _ _ _
      (WSet SHARED_DRIVES (Drive.id d)
         (driveData d (clock (ticks w)) (existing !! Drive.id d)) true) Hfl)
      as (b1 & w1 & Hstep & Hfl1 & Ht1).
    destruct (IH _ _ _ Hfl1) as (b2 & w2 & Hrest & Hfl2 & Ht2).
    exists b2, w2. split; [|split].
    + simpl. unfold bind at 1. simpl. unfold bind at 1. unfold new_Date at 1.
      rewrite Hstep. exact Hrest.
    + simpl. rewrite cons_middle, app_assoc. by rewrite Ht1 in Hfl2.
    + rewrite Ht2, Ht1. simpl. lia.
Qed.

Lemma syncSharedDrives_spec drives w :
  fs_initialized w = true →
  let existing := shared_drives (db w) in
  ∃ w' new,
    syncSharedDrives clock drives w
      = (Ok (mkSyncResult (length drives)
               (length (drivesToDelete existing drives)) (length drives)), w') ∧
    committed w (drive_writes clock existing (ticks w) drives) w' new ∧
    ticks w' = ticks w + length drives.
Proof.
  intros Hinit existing.
  destruct (delete_loop_spec w [] (drivesToDelete existing drives) w []
              (flushed_start w)) as (b1 & w1 & Hdel & Hfl1 & Ht1).
  destruct (upsert_loop_spec existing _ _ drives _ _ Hfl1)
    as (b2 & w2 & Hups & Hfl2 & Ht2).
  destruct (final_flush_spec _ _ _ _ Hfl2) as (w3 & new & Hfin & Hcom & Ht3).
  exists w3, new. split; [|split].
  - unfold syncSharedDrives.
    rewrite (bind_Ok _ _ _ _ _ (ensureInitialized_ok _ Hinit)).
    erewrite bind_Ok; [|reflexivity]. fold existing.
    rewrite (bind_Ok _ _ _ _ _ Hdel), (bind_Ok _ _ _ _ _ Hups).
    by rewrite (bind_Ok _ _ _ _ _ Hfin).
  - unfold drive_writes. rewrite Ht1 in Hcom. exact Hcom.
  - lia.
Qed.

End StoreProofs.

(** ** One document at a time *)

Lemma apply_write_slot c i x d :
  coll c (apply_write x d) !! i = write_slot c i x (coll c d !! i).
Proof.
  destruct x as [c' i'|c' i' data merge]; simpl; case_decide as Hd.
  - destruct Hd as [-> ->]. by rewrite coll_set_coll_eq, lookup_delete_eq.
  - destruct (decide (c' = c)) as [->|Hc].
    + rewrite coll_set_coll_eq, lookup_delete_ne; [done|]. intros ->; by apply Hd.
    + by rewrite coll_set_coll_ne.
  - destruct Hd as [-> ->]. by rewrite coll_set_coll_eq, lookup_insert_eq.
  - destruct (decide (c' = c)) as [->|Hc].
    + rewrite coll_set_coll_eq, lookup_insert_ne; [done|]. intros ->; by apply Hd.
    + by rewrite coll_set_coll_ne.
Qed.

Lemma slot_after_cons c i x ops o :
  slot_after c i (x :: ops) o = slot_after c i ops (write_slot c i x o).
Proof. done. Qed.

Lemma apply_writes_slot c i ops d :
  coll c (apply_writes ops d) !! i = slot_after c i ops (coll c d !! i).
Proof.
  revert d. induction ops as [|x ops IH]; intros d; [done|].
  rewrite slot_after_cons, <- apply_write_slot. apply IH.
Qed.


Lemma slot_after_untouched c i ops o :
  Forall (λ x, ¬ (write_coll x = c ∧ write_id x = i)) ops →
  slot_after c i ops o = o.
Proof.
  revert o. induction ops as [|x ops IH]; intros o Hall; [done|].
  inversion Hall as [|? ? Hx Hrest]; subst.
  rewrite slot_after_cons, IH; [|done].
  destruct x; simpl in *; by rewrite decide_False.
Qed.

Lemma slot_after_deletes c i dels o :
  slot_after c i (WDelete c <$> dels) o = if decide (i ∈ dels) then None else o.
Proof.
  revert o. induction dels as [|j dels IH]; intros o.
  - by rewrite decide_False by set_solver.
  - rewrite fmap_cons, slot_after_cons, IH.
    unfold write_slot. destruct (decide (j = i)) as [->|Hne].
    + rewrite (decide_True (P := c = c ∧ i = i)) by done.
      rewrite (decide_True (P := i ∈ i :: dels)) by set_solver.
      by case_decide.
    + rewrite (decide_False (P := c = c ∧ j = i)) by naive_solver.
      destruct (decide (i ∈ dels)).
      * by rewrite decide_True by set_solver.
      * by rewrite decide_False by set_solver.
Qed.





Section DriveStoreProofs.

Variable clock : nat → Z.










End DriveStoreProofs.

(** ** syncFoldersForDrive and syncManagersForDrive *)

Section FolderManagerProofs.

Variable clock : nat → Z.
Variable autoId : nat → string.

Lemma folder_writes_cons driveId d b t f fs :
  folder_writes clock driveId d b t (f :: fs) =
  WSet FOLDERS (Folder.id f)
       (folderData driveId f (clock t) (folders d !! Folder.id f)) true
  :: (if batchSize <=? S (length b)
      then folder_writes clock driveId
             (apply_writes (b ++ [WSet FOLDERS (Folder.id f)
                (folderData driveId f (clock t) (folders d !! Folder.id f)) true]) d)
             [] (S t) fs
      else folder_writes clock driveId d
             (b ++ [WSet FOLDERS (Folder.id f)
                (folderData driveId f (clock t) (folders d !! Folder.id f)) true])
             (S t) fs).
Proof. done. Qed.

Lemma folder_loop_spec driveId w0 ops fs w b :
  flushed w0 ops w b →
  ∃ b' w', for_of (upsert_folder_step clock driveId) fs (b, length b) w
             = (Ok (b', length b'), w') ∧
           flushed w0 (ops ++ folder_writes clock driveId (db w) b (ticks w) fs) w' b' ∧
           ticks w' = ticks w + length fs.
Proof.
  revert ops w b. induction fs as [|f fs IH]; intros ops w b Hfl.
  - exists b, w. simpl. rewrite app_nil_r. split_and!; [done|done|lia].
  - pose (x := WSet FOLDERS (Folder.id f)
                (folderData driveId f (clock (ticks w)) (folders (db w) !! Folder.id f))
                true).
    pose proof (flushed_ticks _ _ _ _ (S (ticks w)) Hfl) as Hfl'.
    destruct (count_and_flush_spec _ _ _ _ x Hfl') as (b1 & w1 & Hstep & Hfl1 & Ht1).
    destruct (IH _ _ _ Hfl1) as (b2 & w2 & Hrest & Hfl2 & Ht2).
    exists b2, w2. split; [|split].
    + simpl. unfold bind at 1. simpl. unfold bind at 1. unfold new_Date at 1.
      unfold bind at 1. unfold gets at 1. simpl. fold x.
      rewrite Hstep. exact Hrest.
    + rewrite folder_writes_cons. fold x. rewrite cons_middle, app_assoc.
      unfold count_and_flush in Hstep.
      destruct (batchSize <=? S (length b)) eqn:Hfull.
      * unfold bind, commit, modify, ret in Hstep. simpl in Hstep.
        simplify_eq. exact Hfl2.
      * unfold ret in Hstep. simplify_eq. exact Hfl2.
    + rewrite Ht2, Ht1. simpl. lia.
Qed.

Lemma syncFoldersForDrive_spec driveId fs w :
  fs_initialized w = true →
  ∃ w' new,
    syncFoldersForDrive clock driveId fs w = (Ok (length fs), w') ∧
    committed w (folder_writes clock driveId (db w) [] (ticks w) fs) w' new ∧
    ticks w' = ticks w + length fs.
Proof.
  intros Hinit.
  destruct (folder_loop_spec driveId w [] fs w [] (flushed_start w))
    as (b1 & w1 & Hloop & Hfl1 & Ht1).
  destruct (final_flush_spec _ _ _ _ Hfl1) as (w2 & new & Hfin & Hcom & Ht2).
  exists w2, new. split; [|split].
  - unfold syncFoldersForDrive.
    rewrite (bind_Ok _ _ _ _ _ (ensureInitialized_ok _ Hinit)).
    change (@nil write, 0) with (@nil write, length (@nil write)).
    rewrite (bind_Ok _ _ _ _ _ Hloop). by rewrite (bind_Ok _ _ _ _ _ Hfin).
  - exact Hcom.
  - lia.
Qed.

Lemma manager_loop_spec driveId driveName managers batch w :
  ∃ w', for_of (add_manager_step clock autoId driveId driveName) managers batch w
          = (Ok (batch ++ manager_sets clock autoId driveId driveName
                             (ids w) (ticks w) managers), w') ∧
        db w' = db w ∧ commits w' = commits w ∧
        ids w' = ids w + length managers ∧
        ticks w' = ticks w + length managers ∧ frame w w'.
Proof.
  revert batch w. induction managers as [|m managers IH]; intros batch w.
  - exists w. simpl. rewrite app_nil_r. split_and!; try done; lia.
  - destruct (IH (batch ++ [WSet DRIVE_MANAGERS (autoId (ids w))
                     (managerData driveId driveName m (clock (ticks w))) false])
                 (set_ticks (S (ticks w)) (set_ids (S (ids w)) w)))
      as (w' & Hrest & Hdb & Hc & Hids & Ht & Hfr).
    exists w'. split_and!.
    + simpl. unfold bind at 1. unfold add_manager_step at 1.
      unfold bind at 1. unfold new_doc_id at 1. unfold bind at 1.
      unfold new_Date at 1. unfold ret at 1. simpl.
      rewrite Hrest. simpl. by rewrite <- app_assoc.
    + by rewrite Hdb.
    + by rewrite Hc.
    + rewrite Hids. simpl. lia.
    + rewrite Ht. simpl. lia.
    + exact Hfr.
Qed.

Lemma syncManagersForDrive_spec driveId driveName managers w :
  fs_initialized w = true →
  let ops := manager_writes clock autoId driveId driveName
               (drive_managers (db w)) (ids w) (ticks w) managers in
  ∃ w',
    syncManagersForDrive clock autoId driveId driveName managers w
      = (Ok (length managers), w') ∧
    commits w' = commits w ++ [ops] ∧
    db w' = apply_writes ops (db w) ∧
    ids w' = ids w + length managers ∧
    ticks w' = ticks w + length managers ∧ frame w w'.
Proof.
  intros Hinit ops.
  destruct (manager_loop_spec driveId driveName managers
              ((λ kd : string * doc, WDelete DRIVE_MANAGERS kd.1) <$>
                 existingManagers driveId (drive_managers (db w))) w)
    as (w1 & Hloop & Hdb & Hc & Hids & Ht & Hfr).
  eexists. split_and!.
  - unfold syncManagersForDrive.
    rewrite (bind_Ok _ _ _ _ _ (ensureInitialized_ok _ Hinit)).
    erewrite bind_Ok; [|reflexivity].
    rewrite (bind_Ok _ _ _ _ _ Hloop).
    unfold bind, commit, modify, ret. reflexivity.
  - simpl. rewrite Hc. unfold ops, manager_writes.
    by rewrite <- list_fmap_compose.
  - simpl. rewrite Hdb. unfold ops, manager_writes.
    by rewrite <- list_fmap_compose.
  - done.
  - done.
  - done.
Qed.

End FolderManagerProofs.

(** ** Fields written by the frontend survive a sync *)





Section PreserveProofs.

Variable clock : nat → Z.




End PreserveProofs.

Section Claim3.

Variable clock : nat → Z.


End Claim3.


(** ** Replacing the managers of a drive *)

Lemma apply_writes_deletes_lookup c ks d i :
  coll c (apply_writes (WDelete c <$> ks) d) !! i
  = if decide (i ∈ ks) then None else coll c d !! i.
Proof. by rewrite apply_writes_slot, slot_after_deletes. Qed.

Lemma existingManagers_spec driveId ms k d :
  (k, d) ∈ existingManagers driveId ms ↔
  ms !! k = Some d ∧ is_synced_manager_of driveId d = true.
Proof.
  unfold existingManagers. rewrite list_elem_of_filter, elem_of_map_to_list.
  simpl. tauto.
Qed.

Lemma existingManagers_after_deletes driveId d :
  existingManagers driveId
    (drive_managers
       (apply_writes
          (WDelete DRIVE_MANAGERS <$> (existingManagers driveId (drive_managers d)).*1)
          d)) = [].
Proof.
  apply elem_of_nil_inv. intros [k doc] Hin.
  apply existingManagers_spec in Hin as [Hlook Hsync].
  change (drive_managers ?y) with (coll DRIVE_MANAGERS y) in Hlook.
  rewrite apply_writes_deletes_lookup in Hlook.
  case_decide as Hk; [done|]. apply Hk.
  apply list_elem_of_fmap. exists (k, doc). split; [done|].
  by apply existingManagers_spec.
Qed.

Lemma existingManagers_insert_fresh driveId ms k d :
  ms !! k = None →
  is_synced_manager_of driveId d = true →
  existingManagers driveId (<[k := d]> ms) ≡ₚ (k, d) :: existingManagers driveId ms.
Proof.
  intros Hk Hd. unfold existingManagers.
  rewrite map_to_list_insert by done. by rewrite filter_cons_True.
Qed.

Lemma apply_writes_sets_fresh driveId es d :
  NoDup es.*1 →
  Forall (λ k, drive_managers d !! k = None) es.*1 →
  Forall (λ kd, is_synced_manager_of driveId kd.2 = true) es →
  existingManagers driveId
    (drive_managers
       (apply_writes ((λ kd, WSet DRIVE_MANAGERS kd.1 kd.2 false) <$> es) d))
  ≡ₚ es ++ existingManagers driveId (drive_managers d).
Proof.
  revert d. induction es as [|[k doc] es IH]; intros d Hnd Hfresh Hsync; [done|].
  rewrite fmap_cons in Hnd, Hfresh. simpl in Hnd, Hfresh.
  apply NoDup_cons in Hnd as [Hk Hnd].
  inversion Hfresh as [|? ? Hkd Hfresh']; subst.
  inversion Hsync as [|? ? Hdoc Hsync']; subst. simpl in Hdoc.
  rewrite fmap_cons. simpl.
  change (apply_writes (?x :: ?l) d) with (apply_writes l (apply_write x d)).
  rewrite IH; [|done| |done].
  - simpl. rewrite existingManagers_insert_fresh by done.
    by rewrite Permutation_middle.
  - apply Forall_forall. intros k' Hk'. simpl.
    rewrite lookup_insert_ne by (intros ->; done).
    by rewrite Forall_forall in Hfresh'; apply Hfresh'.
Qed.

Section Claim4.

Variable clock : nat → Z.
Variable autoId : nat → string.

Lemma manager_entries_keys driveId driveName n t managers :
  (manager_entries clock autoId driveId driveName n t managers).*1
  = autoId <$> seq n (length managers).
Proof.
  revert n t. induction managers as [|m managers IH]; intros n t; [done|].
  simpl. f_equal. apply IH.
Qed.

Lemma manager_entries_synced driveId driveName n t managers :
  Forall (λ kd, is_synced_manager_of driveId kd.2 = true)
         (manager_entries clock autoId driveId driveName n t managers).
Proof.
  revert n t. induction managers as [|m managers IH]; intros n t; constructor.
  - simpl. unfold is_synced_manager_of. apply andb_true_intro.
    split; by apply bool_decide_eq_true.
  - apply IH.
Qed.

Lemma manager_entries_stored_keys driveId driveName n t managers :
  (λ kd, stored_key kd.2) <$> manager_entries clock autoId driveId driveName n t managers
  = supplied_key <$> managers.
Proof.
  revert n t. induction managers as [|m managers IH]; intros n t; [done|].
  simpl. f_equal. apply IH.
Qed.

(** C4. After syncManagersForDrive returns, the records of the drive that
    carry synced_by_backend = true are, by (email, role, permissionId),
    exactly the supplied managers (each supplied manager once, no earlier
    record left), and every record that was not a backend-synced record of
    this drive is unchanged. The automatic ids of the new documents are
    distinct and unused. *)
Theorem syncManagersForDrive_replaces (w : World) (driveId driveName : string)
    (managers : list Manager.t) :
  fs_initialized w = true →
  NoDup (autoId <$> seq (ids w) (length managers)) →
  Forall (λ k, drive_managers (db w) !! k = None)
         (autoId <$> seq (ids w) (length managers)) →
  ∃ w',
    syncManagersForDrive clock autoId driveId driveName managers w
      = (Ok (length managers), w') ∧
    (λ kd, stored_key kd.2) <$> existingManagers driveId (drive_managers (db w'))
      ≡ₚ supplied_key <$> managers ∧
    (∀ k d, drive_managers (db w) !! k = Some d →
            is_synced_manager_of driveId d = false →
            drive_managers (db w') !! k = Some d).
Proof.
  intros Hinit Hnd Hfresh.
  destruct (syncManagersForDrive_spec clock autoId driveId driveName managers w Hinit)
    as (w' & Hrun & _ & Hdb & _).
  exists w'. split; [exact Hrun|]. rewrite Hdb. unfold manager_writes, manager_sets.
  rewrite apply_writes_app.
  set (d1 := apply_writes (WDelete DRIVE_MANAGERS <$>
               (existingManagers driveId (drive_managers (db w))).*1) (db w)).
  set (es := manager_entries clock autoId driveId driveName (ids w) (ticks w) managers).
  assert (Hkeys : es.*1 = autoId <$> seq (ids w) (length managers))
    by apply manager_entries_keys.
  assert (Hd1 : ∀ k, drive_managers d1 !! k
                     = if decide (k ∈ (existingManagers driveId (drive_managers (db w))).*1)
                       then None else drive_managers (db w) !! k).
  { intros k. apply (apply_writes_deletes_lookup DRIVE_MANAGERS). }
  split.
  - rewrite apply_writes_sets_fresh.
    + unfold d1. rewrite existingManagers_after_deletes, app_nil_r.
      unfold es. by rewrite manager_entries_stored_keys.
    + by rewrite Hkeys.
    + rewrite Hkeys. eapply Forall_impl; [exact Hfresh|].
      intros k Hk. simpl in Hk. rewrite Hd1. by case_decide.
    + apply manager_entries_synced.
  - intros k d Hk Hns.
    change (drive_managers ?y) with (coll DRIVE_MANAGERS y).
    rewrite apply_writes_slot, slot_after_untouched.
    + change (coll DRIVE_MANAGERS d1) with (drive_managers d1).
      rewrite Hd1, decide_False; [done|].
      intros ([k' d'] & Heq & Hin)%list_elem_of_fmap. simpl in Heq. subst k'.
      apply existingManagers_spec in Hin as [Hl Hs]. congruence.
    + apply Forall_fmap, Forall_forall. intros [k' d'] Hin [_ Heq].
      simpl in Heq. subst k'.
      assert (Hkin : k ∈ es.*1) by (apply list_elem_of_fmap; by exists (k, d')).
      rewrite Hkeys in Hkin. rewrite Forall_forall in Hfresh.
      specialize (Hfresh _ Hkin). simpl in Hfresh. congruence.
Qed.

End Claim4.

Lemma syncManagersForDrive_replaces_witness :
  fs_initialized (ex_world ex_db4) = true ∧
  NoDup (ex_autoId <$> seq (ids (ex_world ex_db4)) (length ex_managers4)) ∧
  Forall (λ k, drive_managers (db (ex_world ex_db4)) !! k = None)
         (ex_autoId <$> seq (ids (ex_world ex_db4)) (length ex_managers4)) ∧
  ∃ w',
    syncManagersForDrive ex_clock ex_autoId "D1" "one" ex_managers4 (ex_world ex_db4)
      = (Ok (length ex_managers4), w') ∧
    (λ kd, stored_key kd.2) <$> existingManagers "D1" (drive_managers (db w'))
      ≡ₚ supplied_key <$> ex_managers4 ∧
    (∀ k d, drive_managers (db (ex_world ex_db4)) !! k = Some d →
            is_synced_manager_of "D1" d = false →
            drive_managers (db w') !! k = Some d).
Proof.
  assert (Hnd : NoDup (ex_autoId <$> seq (ids (ex_world ex_db4)) (length ex_managers4))).
  { apply (bool_decide_unpack _). vm_compute. exact I. }
  assert (Hfresh : Forall (λ k, drive_managers (db (ex_world ex_db4)) !! k = None)
            (ex_autoId <$> seq (ids (ex_world ex_db4)) (length ex_managers4))).
  { repeat constructor. }
  split; [reflexivity|]. split; [exact Hnd|]. split; [exact Hfresh|].
  exact (syncManagersForDrive_replaces ex_clock ex_autoId (ex_world ex_db4)
           "D1" "one" ex_managers4 eq_refl Hnd Hfresh).
Defined.

(** ** The size of the batches *)

Section BatchSizes.

Variable clock : nat → Z.
Variable autoId : nat → string.

Lemma batches_split (new : list (list write)) :
  Forall (λ b, 0 < length b ≤ batchSize) new →
  batchSize < length (concat new) → 1 < length new.
Proof.
  intros Hall Hlong. destruct new as [|b1 [|b2 new]]; simpl in *; [lia| |lia].
  inversion Hall; subst. rewrite app_nil_r in Hlong. lia.
Qed.

Lemma drive_upserts_length existing t drives :
  length (drive_upserts clock existing t drives) = length drives.
Proof. revert t. induction drives; intros t; simpl; [done|]. by rewrite IHdrives. Qed.

Lemma manager_entries_length driveId driveName n t managers :
  length (manager_entries clock autoId driveId driveName n t managers)
  = length managers.
Proof.
  revert n t. induction managers; intros n t; simpl; [done|]. by rewrite IHmanagers.
Qed.

(** The drive deletions and upserts are committed in batches of at most
    [batchSize] writes, several of them when there are more writes. *)
Lemma syncSharedDrives_batches_bounded drives w :
  fs_initialized w = true →
  ∃ r w' new,
    syncSharedDrives clock drives w = (Ok r, w') ∧
    commits w' = commits w ++ new ∧
    length (concat new)
      = length (drivesToDelete (shared_drives (db w)) drives) + length drives ∧
    Forall (λ b, 0 < length b ≤ batchSize) new ∧
    (batchSize < length (concat new) → 1 < length new).
Proof.
  intros Hinit.
  destruct (syncSharedDrives_spec clock drives w Hinit)
    as (w' & new & Hrun & (Hc & Hall & Hcat & _) & _).
  do 3 eexists. split_and!; [exact Hrun|exact Hc| |exact Hall|exact (batches_split new Hall)].
  rewrite Hcat. unfold drive_writes.
  by rewrite length_app, length_fmap, drive_upserts_length.
Qed.

Lemma folder_writes_length driveId d b t fs :
  length (folder_writes clock driveId d b t fs) = length fs.
Proof.
  revert d b t. induction fs as [|f fs IH]; intros d b t; [done|].
  rewrite folder_writes_cons, !length_cons. f_equal.
  destruct (batchSize <=? S (length b)); apply IH.
Qed.

(** So are the folder upserts. *)
Lemma syncFoldersForDrive_batches_bounded driveId fs w :
  fs_initialized w = true →
  ∃ n w' new,
    syncFoldersForDrive clock driveId fs w = (Ok n, w') ∧
    commits w' = commits w ++ new ∧
    length (concat new) = length fs ∧
    Forall (λ b, 0 < length b ≤ batchSize) new ∧
    (batchSize < length (concat new) → 1 < length new).
Proof.
  intros Hinit.
  destruct (syncFoldersForDrive_spec clock driveId fs w Hinit)
    as (w' & new & Hrun & (Hc & Hall & Hcat & _) & _).
  do 3 eexists. split_and!; [exact Hrun|exact Hc| |exact Hall|exact (batches_split new Hall)].
  rewrite Hcat. apply folder_writes_length.
Qed.

(** The manager replacement is committed as one batch, whatever its size. *)
Lemma syncManagersForDrive_one_batch driveId driveName managers w :
  fs_initialized w = true →
  ∃ w' b,
    syncManagersForDrive clock autoId driveId driveName managers w
      = (Ok (length managers), w') ∧
    commits w' = commits w ++ [b] ∧
    length b = length (existingManagers driveId (drive_managers (db w)))
               + length managers.
Proof.
  intros Hinit.
  destruct (syncManagersForDrive_spec clock autoId driveId driveName managers w Hinit)
    as (w' & Hrun & Hc & _).
  eexists w', _. split_and!; [exact Hrun|exact Hc|].
  unfold manager_writes, manager_sets.
  by rewrite length_app, !length_fmap, manager_entries_length.
Qed.

(** C6. The batch-size ceiling does not hold for the manager replacement:
    with no manager stored and 501 managers supplied for a drive,
    syncManagersForDrive commits a single batch of 501 writes. *)
Theorem manager_batch_over_limit :
  ∃ w' b,
    syncManagersForDrive clock autoId "D1" "one" ex_many_managers
      (ex_world (mkDB ∅ ∅ ∅ ∅ ∅))
      = (Ok 501, w') ∧
    commits w' = [b] ∧ length b = 501 ∧ batchSize < length b.
Proof.
  assert (Hmany : length ex_many_managers = 501)
    by (unfold ex_many_managers; by rewrite length_fmap, length_seq).
  destruct (syncManagersForDrive_one_batch "D1" "one" ex_many_managers
              (ex_world (mkDB ∅ ∅ ∅ ∅ ∅)) eq_refl) as (w' & b & Hrun & Hc & Hlen).
  rewrite Hmany in Hrun, Hlen.
  exists w', b. split_and!; [exact Hrun|exact Hc|exact Hlen|].
  rewrite Hlen. unfold batchSize. lia.
Qed.

End BatchSizes.

(** ** calculateFolderPaths *)

Lemma fm_get_Some_key m k v : fm_get m k = Some v → k ∈ m.*1.
Proof.
  induction m as [|[k' v'] m IH]; simpl; [done|].
  destruct (String.eqb_spec k' k) as [->|_]; [set_solver|].
  intros H. apply IH in H. set_solver.
Qed.

Lemma fm_get_Some_elem m k v : fm_get m k = Some v → v ∈ m.*2.
Proof.
  induction m as [|[k' v'] m IH]; simpl; [done|].
  destruct (String.eqb_spec k' k) as [->|_].
  - intros [= ->]. set_solver.
  - intros H. apply IH in H. set_solver.
Qed.

Lemma fm_set_full_path_keys k p m : (fm_set_full_path k p m).*1 = m.*1.
Proof.
  induction m as [|[k' v'] m IH]; csimpl; [done|].
  destruct (String.eqb k' k); csimpl; [done|]. by rewrite IH.
Qed.

Lemma fm_get_set_full_path k p m k' :
  fm_get (fm_set_full_path k p m) k'
  = if decide (k = k') then Folder.with_full_path (Some p) <$> fm_get m k
    else fm_get m k'.
Proof.
  induction m as [|[k0 v0] m IH]; simpl.
  - by case_decide.
  - destruct (String.eqb_spec k0 k) as [->|Hne]; simpl.
    + case_decide as Hd.
      * subst k'. by rewrite String.eqb_refl.
      * destruct (String.eqb_spec k k'); [done|done].
    + rewrite IH. case_decide as Hd.
      * subst k'. by destruct (String.eqb_spec k0 k).
      * done.
Qed.

Lemma fm_set_keys k v m :
  (fm_set k v m).*1 = if decide (k ∈ m.*1) then m.*1 else m.*1 ++ [k].
Proof.
  induction m as [|[k' v'] m IH].
  - by rewrite decide_False by set_solver.
  - change (fm_set k v ((k', v') :: m))
      with (if String.eqb k' k then (k', v) :: m else (k', v') :: fm_set k v m).
    destruct (String.eqb_spec k' k) as [->|Hne]; rewrite !fmap_cons; cbn [fst].
    + by rewrite decide_True by set_solver.
    + rewrite IH. destruct (decide (k ∈ m.*1)).
      * by rewrite decide_True by set_solver.
      * by rewrite decide_False by set_solver.
Qed.

Lemma fm_get_set k v m k' :
  fm_get (fm_set k v m) k' = if decide (k = k') then Some v else fm_get m k'.
Proof.
  induction m as [|[k0 v0] m IH]; simpl.
  - case_decide as Hd.
    + subst. by rewrite String.eqb_refl.
    + by destruct (String.eqb_spec k k').
  - destruct (String.eqb_spec k0 k) as [->|Hne]; simpl.
    + case_decide as Hd.
      * subst. by rewrite String.eqb_refl.
      * by destruct (String.eqb_spec k k').
    + rewrite IH. case_decide as Hd; [|done].
      subst. by destruct (String.eqb_spec k0 k').
Qed.

Lemma build_folderMap_snoc fs f :
  build_folderMap (fs ++ [f])
  = fm_set (Folder.id f) (Folder.with_full_path None f) (build_folderMap fs).
Proof. unfold build_folderMap. by rewrite foldl_app. Qed.

Lemma build_folderMap_keys fs :
  NoDup (build_folderMap fs).*1 ∧
  length (build_folderMap fs) ≤ length fs ∧
  ∀ k, k ∈ (build_folderMap fs).*1 ↔ k ∈ Folder.id <$> fs.
Proof.
  induction fs as [|f fs (IH1 & IH2 & IH3)] using rev_ind.
  - split_and!; [constructor|done|done].
  - rewrite build_folderMap_snoc.
    assert (Hlen : length (fm_set (Folder.id f) (Folder.with_full_path None f)
                     (build_folderMap fs)) = length (fm_set (Folder.id f)
                     (Folder.with_full_path None f) (build_folderMap fs)).*1)
      by (by rewrite length_fmap).
    rewrite fm_set_keys in *. rewrite length_app. simpl.
    case_decide as Hin.
    + split_and!; [done|rewrite Hlen, length_fmap; lia|].
      intros k. rewrite IH3, fmap_app. apply IH3 in Hin. set_solver.
    + split_and!.
      * apply NoDup_app. split_and!; [done|set_solver|apply NoDup_singleton].
      * rewrite Hlen, length_app, length_fmap. simpl. lia.
      * intros k. rewrite fmap_app, !elem_of_app, IH3. set_solver.
Qed.

Lemma build_folderMap_get fs X :
  NoDup (Folder.id <$> fs) → X ∈ fs →
  fm_get (build_folderMap fs) (Folder.id X) = Some (Folder.with_full_path None X).
Proof.
  induction fs as [|f fs IH] using rev_ind; [set_solver|].
  rewrite fmap_app. simpl. intros Hnd Hin.
  apply NoDup_app in Hnd as (Hnd & Hdisj & _).
  rewrite build_folderMap_snoc, fm_get_set.
  apply elem_of_app in Hin as [Hin|Hin].
  - rewrite decide_False; [by apply IH|].
    intros Heq. apply (Hdisj (Folder.id X)).
    + apply list_elem_of_fmap. by exists X.
    + rewrite Heq. set_solver.
  - assert (X = f) as -> by set_solver. by rewrite decide_True.
Qed.

(** The recursion of calculatePath stops: every call that recurses adds a
    key of the map to [visited]. *)
Lemma calculatePath_total fuel driveId folderId visited m :
  size (fm_keys m ∖ visited) < fuel →
  ∃ p m', calculatePath fuel driveId folderId visited m = Some (p, m') ∧
          m'.*1 = m.*1.
Proof.
  revert folderId visited m.
  induction fuel as [|fuel IH]; intros folderId visited m Hsize; [lia|].
  simpl. case_bool_decide as Hvis; [by eauto|].
  destruct (fm_get m folderId) as [folder|] eqn:Hget; [|by eauto].
  destruct (Folder.full_path folder) as [p|]; [by eauto|].
  destruct (first_parent folder) as [parentId|].
  2:{ eexists _, _. split; [done|]. apply fm_set_full_path_keys. }
  destruct (String.eqb parentId driveId).
  { eexists _, _. split; [done|]. apply fm_set_full_path_keys. }
  destruct (IH parentId ({[folderId]} ∪ visited) m) as (pp & m1 & Hrec & Hkeys).
  { apply fm_get_Some_key in Hget.
    assert (fm_keys m ∖ ({[folderId]} ∪ visited) ⊂ fm_keys m ∖ visited) as Hsub.
    { unfold fm_keys.
      assert (folderId ∈ (list_to_set m.*1 : gset string))
        by (by apply elem_of_list_to_set).
      split; [set_solver|]. intros Hsub. specialize (Hsub folderId). set_solver. }
    apply subset_size in Hsub. lia. }
  rewrite Hrec. eexists _, _. split; [done|].
  by rewrite fm_set_full_path_keys.
Qed.

Lemma calculate_all_total fuel driveId folders m :
  length m < fuel → NoDup m.*1 →
  ∃ m', calculate_all fuel driveId folders m = Some m' ∧ m'.*1 = m.*1.
Proof.
  revert m. induction folders as [|f folders IH]; intros m Hlen Hnd; [by eauto|].
  simpl.
  destruct (calculatePath_total fuel driveId (Folder.id f) ∅ m)
    as (p & m1 & Hcalc & Hkeys).
  { unfold fm_keys. rewrite difference_empty_L, size_list_to_set by done.
    by rewrite length_fmap. }
  rewrite Hcalc.
  destruct (IH m1) as (m2 & Hall & Hkeys2).
  - assert (length m1 = length m1.*1) as -> by (by rewrite length_fmap).
    rewrite Hkeys, length_fmap. done.
  - by rewrite Hkeys.
  - exists m2. split; [done|]. congruence.
Qed.


Lemma fm_set_wf k v m : Folder.id v = k → fm_wf m → fm_wf (fm_set k v m).
Proof.
  intros Hid. induction m as [|[k' v'] m IH]; intros Hwf; simpl.
  - by repeat constructor.
  - apply Forall_cons in Hwf as [Hkv Hm]. simpl in Hkv.
    destruct (String.eqb_spec k' k) as [Heq|Hne]; constructor; simpl;
      first [congruence | by apply IH | done].
Qed.

Lemma fm_set_full_path_wf k p m : fm_wf m → fm_wf (fm_set_full_path k p m).
Proof.
  induction m as [|[k' v'] m IH]; intros Hwf; simpl; [done|].
  apply Forall_cons in Hwf as [Hkv Hm]. simpl in Hkv.
  destruct (String.eqb k' k); constructor; simpl;
    first [done | by apply IH].
Qed.

Lemma build_folderMap_wf fs : fm_wf (build_folderMap fs).
Proof.
  induction fs as [|f fs IH] using rev_ind; [constructor|].
  rewrite build_folderMap_snoc. by apply fm_set_wf.
Qed.

Lemma fm_wf_ids m : fm_wf m → Folder.id <$> m.*2 = m.*1.
Proof.
  induction m as [|[k v] m IH]; intros Hwf; [done|].
  apply Forall_cons in Hwf as [Hkv Hm]. simpl in Hkv. csimpl. rewrite Hkv. f_equal. auto.
Qed.

Lemma calculatePath_wf fuel driveId folderId visited m p m' :
  calculatePath fuel driveId folderId visited m = Some (p, m') → fm_wf m → fm_wf m'.
Proof.
  revert folderId visited m p m'.
  induction fuel as [|fuel IH]; intros folderId visited m p m'; [done|].
  simpl. case_bool_decide; [by intros [= <- <-]|].
  destruct (fm_get m folderId) as [folder|]; [|by intros [= <- <-]].
  destruct (Folder.full_path folder); [by intros [= <- <-]|].
  destruct (first_parent folder) as [parentId|].
  2:{ intros [= <- <-] ?. by apply fm_set_full_path_wf. }
  destruct (String.eqb parentId driveId).
  { intros [= <- <-] ?. by apply fm_set_full_path_wf. }
  destruct (calculatePath fuel driveId parentId _ m) as [[pp m1]|] eqn:Hrec; [|done].
  intros [= <- <-] ?. apply fm_set_full_path_wf. eauto.
Qed.

(** A call never touches the entries of the folders it was told are
    already being visited. *)
Lemma calculatePath_visited fuel driveId folderId visited m p m' k :
  calculatePath fuel driveId folderId visited m = Some (p, m') →
  k ∈ visited → fm_get m' k = fm_get m k.
Proof.
  revert folderId visited m p m'.
  induction fuel as [|fuel IH]; intros folderId visited m p m'; [done|].
  simpl. case_bool_decide as Hvis; [by intros [= <- <-]|].
  destruct (fm_get m folderId) as [folder|]; [|by intros [= <- <-]].
  destruct (Folder.full_path folder); [by intros [= <- <-]|].
  destruct (first_parent folder) as [parentId|].
  2:{ intros [= <- <-] Hk. rewrite fm_get_set_full_path, decide_False; [done|].
      by intros ->. }
  destruct (String.eqb parentId driveId).
  { intros [= <- <-] Hk. rewrite fm_get_set_full_path, decide_False; [done|].
    by intros ->. }
  destruct (calculatePath fuel driveId parentId _ m) as [[pp m1]|] eqn:Hrec; [|done].
  intros [= <- <-] Hk. rewrite fm_get_set_full_path, decide_False by (by intros ->).
  eapply IH; [exact Hrec|]. set_solver.
Qed.

(** A path, once recorded, stays. *)
Lemma calculatePath_keeps fuel driveId folderId visited m p m' k f :
  calculatePath fuel driveId folderId visited m = Some (p, m') →
  fm_get m k = Some f → is_Some (Folder.full_path f) → fm_get m' k = Some f.
Proof.
  revert folderId visited m p m'.
  induction fuel as [|fuel IH]; intros folderId visited m p m'; [done|].
  simpl. case_bool_decide as Hvis; [by intros [= <- <-]|].
  destruct (fm_get m folderId) as [folder|] eqn:Hget; [|by intros [= <- <-]].
  destruct (Folder.full_path folder) eqn:Hpath; [by intros [= <- <-]|].
  assert (Hne : ∀ g, fm_get m k = Some g → is_Some (Folder.full_path g) → folderId ≠ k).
  { intros g Hg [q Hq] ->. congruence. }
  destruct (first_parent folder) as [parentId|].
  2:{ intros [= <- <-] Hk Hs. rewrite fm_get_set_full_path, decide_False; eauto. }
  destruct (String.eqb parentId driveId).
  { intros [= <- <-] Hk Hs. rewrite fm_get_set_full_path, decide_False; eauto. }
  destruct (calculatePath fuel driveId parentId _ m) as [[pp m1]|] eqn:Hrec; [|done].
  intros [= <- <-] Hk Hs. rewrite fm_get_set_full_path, decide_False; eauto.
Qed.

(** The folder asked for ends with a path. *)
Lemma calculatePath_sets fuel driveId folderId m p m' f :
  calculatePath fuel driveId folderId ∅ m = Some (p, m') →
  fm_get m folderId = Some f →
  ∃ f', fm_get m' folderId = Some f' ∧ Folder.full_path f' = Some p.
Proof.
  destruct fuel as [|fuel]; [done|]. simpl.
  rewrite bool_decide_eq_false_2 by set_solver. intros Hcalc Hget.
  rewrite Hget in Hcalc.
  destruct (Folder.full_path f) eqn:Hpath; [simplify_eq; eauto|].
  destruct (first_parent f) as [parentId|].
  2:{ simplify_eq. rewrite fm_get_set_full_path, decide_True, Hget by done. eauto. }
  destruct (String.eqb parentId driveId).
  { simplify_eq. rewrite fm_get_set_full_path, decide_True, Hget by done. eauto. }
  destruct (calculatePath fuel driveId parentId _ m) as [[pp m1]|] eqn:Hrec; [|done].
  simplify_eq. rewrite fm_get_set_full_path, decide_True by done.
  erewrite calculatePath_visited; [|exact Hrec|set_solver]. rewrite Hget. eauto.
Qed.

Lemma fm_get_elem m k v : NoDup m.*1 → (k, v) ∈ m → fm_get m k = Some v.
Proof.
  induction m as [|[k0 v0] m IH]; [set_solver|].
  csimpl. intros [Hk0 Hnd]%NoDup_cons Hin.
  destruct (String.eqb_spec k0 k) as [->|Hne].
  - apply elem_of_cons in Hin as [Heq|Hin]; [congruence|].
    exfalso. apply Hk0. apply list_elem_of_fmap. by exists (k, v).
  - apply elem_of_cons in Hin as [Heq|Hin]; [congruence|]. by apply IH.
Qed.

Lemma fm_get_is_Some m k : is_Some (fm_get m k) ↔ k ∈ m.*1.
Proof.
  split; [intros [v Hv]; by eapply fm_get_Some_key|].
  induction m as [|[k' v'] m IH]; csimpl; [set_solver|].
  destruct (String.eqb_spec k' k) as [->|Hne]; [by eauto|].
  intros Hin. apply IH. set_solver.
Qed.

Lemma calculatePath_keys fuel driveId folderId visited m p m' :
  calculatePath fuel driveId folderId visited m = Some (p, m') → m'.*1 = m.*1.
Proof.
  revert folderId visited m p m'.
  induction fuel as [|fuel IH]; intros folderId visited m p m'; [done|].
  simpl. case_bool_decide; [by intros [= <- <-]|].
  destruct (fm_get m folderId) as [folder|]; [|by intros [= <- <-]].
  destruct (Folder.full_path folder); [by intros [= <- <-]|].
  destruct (first_parent folder) as [parentId|].
  2:{ intros [= <- <-]. apply fm_set_full_path_keys. }
  destruct (String.eqb parentId driveId).
  { intros [= <- <-]. apply fm_set_full_path_keys. }
  destruct (calculatePath fuel driveId parentId _ m) as [[pp m1]|] eqn:Hrec; [|done].
  intros [= <- <-]. rewrite fm_set_full_path_keys. eauto.
Qed.

Lemma calculate_all_spec fuel driveId folders m m' :
  calculate_all fuel driveId folders m = Some m' →
  (fm_wf m → fm_wf m') ∧
  (∀ k f, fm_get m k = Some f → is_Some (Folder.full_path f) →
          fm_get m' k = Some f) ∧
  (∀ k, k ∈ Folder.id <$> folders → is_Some (fm_get m k) →
        is_Some (path_at m' k)).
Proof.
  revert m. induction folders as [|f folders IH]; intros m; simpl.
  - intros [= <-]. split_and!; [done|done|set_solver].
  - destruct (calculatePath fuel driveId (Folder.id f) ∅ m) as [[p m1]|] eqn:Hcalc;
      [|done].
    intros Hall. destruct (IH _ Hall) as (IHwf & IHkeep & IHset).
    split_and!.
    + intros Hwf. apply IHwf. eapply calculatePath_wf; eauto.
    + intros k g Hk Hs. apply IHkeep; [|done]. eapply calculatePath_keeps; eauto.
    + intros k Hin [g Hg].
      destruct (decide (k = Folder.id f)) as [->|Hne].
      * destruct (calculatePath_sets _ _ _ _ _ _ _ Hcalc Hg) as (f' & Hf' & Hp).
        unfold path_at. rewrite (IHkeep _ _ Hf') by eauto. simpl. eauto.
      * apply IHset; [set_solver|].
        apply fm_get_is_Some. rewrite (calculatePath_keys _ _ _ _ _ _ _ Hcalc).
        apply fm_get_is_Some. eauto.
Qed.

(** calculateFolderPaths returns for every list of folders, cyclic or not,
    as soon as the fuel exceeds the number of folders; the result lists each
    folder id once, each with a path. *)
Lemma calculateFolderPaths_total fuel folders driveId :
  length folders < fuel →
  ∃ r, calculateFolderPaths fuel folders driveId = Some r ∧
       NoDup (Folder.id <$> r) ∧
       (∀ k, k ∈ Folder.id <$> r ↔ k ∈ Folder.id <$> folders) ∧
       Forall (λ f, is_Some (Folder.full_path f)) r.
Proof.
  intros Hfuel. unfold calculateFolderPaths.
  destruct (build_folderMap_keys folders) as (Hnd & Hlen & Hk).
  destruct (calculate_all_total fuel driveId folders (build_folderMap folders))
    as (m & Hm & Hkeys); [lia|done|].
  rewrite Hm. destruct (calculate_all_spec _ _ _ _ _ Hm) as (Hwf & Hkeep & Hset).
  specialize (Hwf (build_folderMap_wf folders)).
  eexists. split; [done|]. rewrite (fm_wf_ids _ Hwf), Hkeys.
  split_and!; [done|done|].
  apply Forall_forall. intros f Hf.
  apply list_elem_of_fmap in Hf as ([k f'] & -> & Hin). simpl.
  assert (Hkin : k ∈ Folder.id <$> folders).
  { apply Hk. rewrite <- Hkeys. apply list_elem_of_fmap. by exists (k, f'). }
  destruct (Hset k Hkin) as [q Hq].
  { apply fm_get_is_Some. by apply Hk. }
  unfold path_at in Hq.
  destruct (fm_get m k) as [g|] eqn:Hg; [|done]. simpl in Hq.
  rewrite <- Hkeys in Hnd. rewrite (fm_get_elem _ _ _ Hnd Hin) in Hg.
  simplify_eq. eauto.
Qed.

(** ** A chain of three folders under the drive *)

Lemma first_parent_with_full_path p X :
  first_parent (Folder.with_full_path p X) = first_parent X.
Proof. done. Qed.

Lemma with_full_path_twice p q X :
  Folder.with_full_path p (Folder.with_full_path q X) = Folder.with_full_path p X.
Proof. done. Qed.

Section Chain.

Variable driveId : string.
Variables A B C : Folder.t.

Hypothesis parents_A : Folder.parents A = Some [driveId].
Hypothesis parents_B : Folder.parents B = Some [Folder.id A].
Hypothesis parents_C : Folder.parents C = Some [Folder.id B].
Hypothesis id_A : Folder.id A ≠ EmptyString ∧ Folder.id A ≠ driveId.
Hypothesis id_B : Folder.id B ≠ EmptyString ∧ Folder.id B ≠ driveId.
Hypothesis A_B : Folder.id A ≠ Folder.id B.
Hypothesis B_C : Folder.id B ≠ Folder.id C.
Hypothesis A_C : Folder.id A ≠ Folder.id C.

Local Abbreviation PA := (chain_path_A A).
Local Abbreviation PB := (chain_path_B A B).
Local Abbreviation PC := (chain_path_C A B C).

Lemma first_parent_A : first_parent A = None ∨ first_parent A = Some driveId.
Proof.
  unfold first_parent. rewrite parents_A. destruct (String.eqb driveId EmptyString); auto.
Qed.

Lemma first_parent_B : first_parent B = Some (Folder.id A).
Proof.
  unfold first_parent. rewrite parents_B.
  destruct (String.eqb_spec (Folder.id A) EmptyString); [|done]. by destruct id_A.
Qed.

Lemma first_parent_C : first_parent C = Some (Folder.id B).
Proof.
  unfold first_parent. rewrite parents_C.
  destruct (String.eqb_spec (Folder.id B) EmptyString); [|done]. by destruct id_B.
Qed.

Lemma entry_ok_update m X PX x p :
  entry_ok m X PX → (x = Folder.id X → p = PX) →
  entry_ok (fm_set_full_path x p m) X PX ∧
  (x = Folder.id X → entry_done (fm_set_full_path x p m) X PX).
Proof.
  intros (p0 & Hget & Hp0) Hp. unfold entry_ok, entry_done.
  rewrite fm_get_set_full_path. case_decide as Hx.
  - subst x. rewrite Hget. simpl. rewrite with_full_path_twice, Hp by done.
    split; [|done]. eauto.
  - split; [eauto|]. intros ->. done.
Qed.

Lemma chain_update m x p :
  chain_inv A B C m →
  (x = Folder.id A → p = PA) → (x = Folder.id B → p = PB) →
  (x = Folder.id C → p = PC) →
  chain_post A B C x p (fm_set_full_path x p m).
Proof.
  intros (Ha & Hb & Hc) Hpa Hpb Hpc.
  destruct (entry_ok_update m A PA x p Ha Hpa) as [Ha1 Ha2].
  destruct (entry_ok_update m B PB x p Hb Hpb) as [Hb1 Hb2].
  destruct (entry_ok_update m C PC x p Hc Hpc) as [Hc1 Hc2].
  unfold chain_post, chain_inv. split_and!; auto.
Qed.

Lemma chain_step fuel x visited m p m' :
  calculatePath fuel driveId x visited m = Some (p, m') →
  chain_inv A B C m → chain_pre A B C x visited → chain_post A B C x p m'.
Proof.
  revert x visited m p m'.
  induction fuel as [|fuel IH]; intros x visited m p m'; [done|].
  simpl. intros Hcalc Hinv (Hva & Hvb & Hvc).
  pose proof Hinv as (Ha & Hb & Hc).
  destruct Ha as (pa & Hga & Hpa), Hb as (pb & Hgb & Hpb), Hc as (pc & Hgc & Hpc).
  case_bool_decide as Hvis.
  { simplify_eq. split; [done|]. split_and!; intros ->.
    - done.
    - specialize (Hvb Hvis). done.
    - destruct (Hvc Hvis); done. }
  destruct (fm_get m x) as [folder|] eqn:Hget.
  2:{ simplify_eq. split; [done|]. split_and!; intros ->; congruence. }
  destruct (Folder.full_path folder) as [q|] eqn:Hpath.
  { simplify_eq. split; [done|]. unfold entry_done.
    split_and!; intros ->; rewrite Hget in *; simplify_eq; simpl in Hpath;
      subst; naive_solver. }
  assert (Hroot : ∀ q, Some (q, fm_set_full_path x q m) = Some (p, m') →
                       q = "/" +:+ Folder.name folder →
                       (x = Folder.id B → False) → (x = Folder.id C → False) →
                       chain_post A B C x p m').
  { intros q [= <- <-] -> HnB HnC. apply chain_update; [done| | |]; intros ->.
    - rewrite Hget in Hga. by simplify_eq.
    - by destruct HnB.
    - by destruct HnC. }
  destruct (first_parent folder) as [parentId|] eqn:Hfp.
  2:{ eapply Hroot; [exact Hcalc|done| |]; intros ->; rewrite Hget in *;
        simplify_eq; rewrite first_parent_with_full_path in Hfp.
      - by rewrite first_parent_B in Hfp.
      - by rewrite first_parent_C in Hfp. }
  destruct (String.eqb_spec parentId driveId) as [->|Hnd].
  { eapply Hroot; [exact Hcalc|done| |]; intros ->; rewrite Hget in *;
      simplify_eq; rewrite first_parent_with_full_path in Hfp.
    - rewrite first_parent_B in Hfp. simplify_eq. by destruct id_A.
    - rewrite first_parent_C in Hfp. simplify_eq. by destruct id_B. }
  destruct (calculatePath fuel driveId parentId ({[x]} ∪ visited) m)
    as [[pp m1]|] eqn:Hrec; [|done].
  simplify_eq.
  assert (HxA : x ≠ Folder.id A).
  { intros ->. rewrite Hget in Hga. simplify_eq.
    rewrite first_parent_with_full_path in Hfp.
    destruct first_parent_A as [H|H]; rewrite H in Hfp; by simplify_eq. }
  assert (HyB : x = Folder.id B → parentId = Folder.id A).
  { intros ->. rewrite Hget in Hgb. simplify_eq.
    rewrite first_parent_with_full_path, first_parent_B in Hfp. by simplify_eq. }
  assert (HyC : x = Folder.id C → parentId = Folder.id B).
  { intros ->. rewrite Hget in Hgc. simplify_eq.
    rewrite first_parent_with_full_path, first_parent_C in Hfp. by simplify_eq. }
  destruct (IH _ _ _ _ _ Hrec Hinv) as (Hinv1 & HrA & HrB & HrC).
  { split_and!.
    - set_solver.
    - intros [Hin|Hin]%elem_of_union.
      + apply elem_of_singleton in Hin. auto.
      + specialize (Hvb Hin). done.
    - intros [Hin|Hin]%elem_of_union.
      + apply elem_of_singleton in Hin. auto.
      + destruct (Hvc Hin) as [->| ->]; [done|]. left. auto. }
  apply chain_update; [done| | |]; intros ->.
  - done.
  - rewrite Hget in Hgb. simplify_eq. simpl.
    destruct (HrA (HyB eq_refl)) as [-> _]. done.
  - rewrite Hget in Hgc. simplify_eq. simpl.
    destruct (HrB (HyC eq_refl)) as [-> _]. done.
Qed.

Lemma entry_done_keeps fuel x visited m p m' X PX :
  calculatePath fuel driveId x visited m = Some (p, m') →
  entry_done m X PX → entry_done m' X PX.
Proof. intros Hcalc Hd. eapply calculatePath_keeps; [exact Hcalc|exact Hd|]. simpl. eauto. Qed.

Lemma chain_all fuel l m m' :
  calculate_all fuel driveId l m = Some m' →
  chain_inv A B C m →
  chain_inv A B C m' ∧
  ((entry_done m A PA ∨ Folder.id A ∈ Folder.id <$> l) → entry_done m' A PA) ∧
  ((entry_done m B PB ∨ Folder.id B ∈ Folder.id <$> l) → entry_done m' B PB) ∧
  ((entry_done m C PC ∨ Folder.id C ∈ Folder.id <$> l) → entry_done m' C PC).
Proof.
  revert m. induction l as [|f l IH]; intros m; simpl.
  - intros [= <-] Hinv. split; [done|]. split_and!; intros [?|?]; set_solver.
  - destruct (calculatePath fuel driveId (Folder.id f) ∅ m) as [[p m1]|] eqn:Hcalc;
      [|done].
    intros Hall Hinv.
    destruct (chain_step _ _ _ _ _ _ Hcalc Hinv) as (Hinv1 & HsA & HsB & HsC).
    { split_and!; set_solver. }
    destruct (IH _ Hall Hinv1) as (Hinv' & HA' & HB' & HC').
    split; [done|].
    split_and!; intros [Hd|Hin].
    + apply HA'. left. eapply entry_done_keeps; eauto.
    + apply elem_of_cons in Hin as [Heq|Hin]; [|by auto].
      apply HA'. left. by apply HsA.
    + apply HB'. left. eapply entry_done_keeps; eauto.
    + apply elem_of_cons in Hin as [Heq|Hin]; [|by auto].
      apply HB'. left. by apply HsB.
    + apply HC'. left. eapply entry_done_keeps; eauto.
    + apply elem_of_cons in Hin as [Heq|Hin]; [|by auto].
      apply HC'. left. by apply HsC.
Qed.

End Chain.

Lemma NoDup_fmap_elem {X Y} (f : X → Y) (l : list X) x y :
  NoDup (f <$> l) → x ∈ l → y ∈ l → f x = f y → x = y.
Proof.
  induction l as [|a l IH]; [set_solver|].
  rewrite fmap_cons. intros [Ha Hnd]%NoDup_cons Hx Hy Hfxy.
  apply elem_of_cons in Hx as [->|Hx]; apply elem_of_cons in Hy as [->|Hy].
  - done.
  - exfalso. apply Ha. rewrite Hfxy. apply list_elem_of_fmap. by exists y.
  - exfalso. apply Ha. rewrite <- Hfxy. apply list_elem_of_fmap. by exists x.
  - by apply IH.
Qed.

(** C8. Among any folders with distinct ids, a folder A directly under the
    drive, B under A and C under B get the paths /A, /A/B and /A/B/C.
    Path resolution returns for every list of folders, whatever the parent
    pointers, with a path for every folder; on the cycle D -> E -> D it
    assigns //E/D to D and //E to E. *)
Theorem calculateFolderPaths_resolves (folders : list Folder.t) (driveId : string)
    (A B C : Folder.t) :
  NoDup (Folder.id <$> folders) →
  A ∈ folders → B ∈ folders → C ∈ folders →
  Folder.parents A = Some [driveId] →
  Folder.parents B = Some [Folder.id A] →
  Folder.parents C = Some [Folder.id B] →
  Folder.id A ≠ EmptyString → Folder.id A ≠ driveId →
  Folder.id B ≠ EmptyString → Folder.id B ≠ driveId →
  (∃ r, calculateFolderPaths (S (length folders)) folders driveId = Some r ∧
        Folder.with_full_path (Some ("/" +:+ Folder.name A)) A ∈ r ∧
        Folder.with_full_path
          (Some (("/" +:+ Folder.name A) +:+ "/" +:+ Folder.name B)) B ∈ r ∧
        Folder.with_full_path
          (Some ((("/" +:+ Folder.name A) +:+ "/" +:+ Folder.name B)
                 +:+ "/" +:+ Folder.name C)) C ∈ r) ∧
  (∀ fs d, ∃ r, calculateFolderPaths (S (length fs)) fs d = Some r ∧
                Forall (λ f, is_Some (Folder.full_path f)) r) ∧
  calculateFolderPaths (S (length ex_cycle)) ex_cycle "drive-1"
  = Some [Folder.with_full_path (Some "//E/D") (ex_folder "D" "D" ["E"]);
          Folder.with_full_path (Some "//E") (ex_folder "E" "E" ["D"])].
Proof.
  intros Hnd HA HB HC HpA HpB HpC HA1 HA2 HB1 HB2.
  assert (HAB : Folder.id A ≠ Folder.id B).
  { intros Heq. assert (A = B) as -> by eauto using NoDup_fmap_elem. congruence. }
  assert (HBC : Folder.id B ≠ Folder.id C).
  { intros Heq. assert (B = C) as -> by eauto using NoDup_fmap_elem. congruence. }
  assert (HAC : Folder.id A ≠ Folder.id C).
  { intros Heq. assert (A = C) as -> by eauto using NoDup_fmap_elem. congruence. }
  split_and!.
  - destruct (calculateFolderPaths_total (S (length folders)) folders driveId)
      as (r & Hr & _); [lia|].
    exists r. split; [done|]. unfold calculateFolderPaths in Hr.
    destruct (calculate_all _ _ _ _) as [m|] eqn:Hall; [|done]. simplify_eq.
    destruct (chain_all driveId A B C HpA HpB HpC (conj HA1 HA2) (conj HB1 HB2)
                HAB HBC HAC _ _ _ _ Hall) as (_ & HdA & HdB & HdC).
    { split_and!; eexists None; (split; [|by left]); by apply build_folderMap_get. }
    split_and!; eapply fm_get_Some_elem.
    + apply HdA. right. apply list_elem_of_fmap. by exists A.
    + apply HdB. right. apply list_elem_of_fmap. by exists B.
    + apply HdC. right. apply list_elem_of_fmap. by exists C.
  - intros fs d.
    destruct (calculateFolderPaths_total (S (length fs)) fs d)
      as (r & Hr & _ & _ & Hpaths); [lia|]. eauto.
  - by vm_compute.
Qed.

Lemma calculateFolderPaths_resolves_witness :
  ∃ r, calculateFolderPaths (S (length ex_tree)) ex_tree "drive-1" = Some r ∧
       Folder.with_full_path (Some "/A") (ex_folder "a" "A" ["drive-1"]) ∈ r ∧
       Folder.with_full_path (Some "/A/B") (ex_folder "b" "B" ["a"]) ∈ r ∧
       Folder.with_full_path (Some "/A/B/C") (ex_folder "c" "C" ["b"]) ∈ r.
Proof.
  assert (Hnd : NoDup (Folder.id <$> ex_tree)).
  { apply (bool_decide_unpack _). vm_compute. exact I. }
  assert (HA : ex_folder "a" "A" ["drive-1"] ∈ ex_tree)
    by (unfold ex_tree; set_solver).
  assert (HB : ex_folder "b" "B" ["a"] ∈ ex_tree) by (unfold ex_tree; set_solver).
  assert (HC : ex_folder "c" "C" ["b"] ∈ ex_tree) by (unfold ex_tree; set_solver).
  exact (proj1 (calculateFolderPaths_resolves ex_tree "drive-1"
           (ex_folder "a" "A" ["drive-1"]) (ex_folder "b" "B" ["a"])
           (ex_folder "c" "C" ["b"]) Hnd HA HB HC eq_refl eq_refl eq_refl
           ltac:(done) ltac:(done) ltac:(done) ltac:(done))).
Defined.

(** ** The folder walk *)

Section WalkProofs.

Variable P : Provider.

Lemma gd_ensureInitialized_ok w :
  gd_initialized w = true → gd_ensureInitialized w = (Ok tt, w).
Proof. unfold gd_ensureInitialized, bind, gets. by intros ->. Qed.





Lemma getManagersFromDrive_pure driveId driveName w :
  gd_initialized w = true →
  getManagersFromDrive P driveId driveName w = (fetch_managers P driveId, w).
Proof.
  intros Hinit. unfold getManagersFromDrive, fetch_managers.
  rewrite (bind_Ok _ _ _ _ _ (gd_ensureInitialized_ok _ Hinit)).
  unfold bind, call. by destruct (permissions_list P driveId).
Qed.

End WalkProofs.

Section WalkFacts.

Variable P : Provider.
Variable driveId : string.




End WalkFacts.






(** ** Run records and status: best-effort writes *)

Lemma bookkeeping_refl w : bookkeeping w w.
Proof. unfold bookkeeping, frame. by split_and!. Qed.

Lemma bookkeeping_trans w1 w2 w3 :
  bookkeeping w1 w2 → bookkeeping w2 w3 → bookkeeping w1 w3.
Proof.
  unfold bookkeeping. intros (?&?&?&?&?&?) (?&?&?&?&?&?).
  split_and!; try congruence. by eapply frame_trans.
Qed.

Lemma bookkeeping_ticks w n : bookkeeping w (set_ticks n w).
Proof. unfold bookkeeping, frame. by split_and!. Qed.

Lemma bookkeeping_history w x :
  write_coll x = SYNC_HISTORY ∨ write_coll x = SYNC_STATUS →
  bookkeeping w (set_db (apply_write x (db w)) w).
Proof.
  intros Hx. unfold bookkeeping. simpl.
  change (shared_drives ?y) with (coll SHARED_DRIVES y).
  change (folders ?y) with (coll FOLDERS y).
  change (drive_managers ?y) with (coll DRIVE_MANAGERS y).
  rewrite !apply_write_other by (destruct x; simpl in *; naive_solver).
  unfold frame. by split_and!.
Qed.

Section BookkeepingProofs.

Variable clock : nat → Z.

Lemma new_Date_eq w :
  new_Date clock w = (Ok (clock (ticks w)), set_ticks (S (ticks w)) w).
Proof. done. Qed.

Lemma write_now_eq x w :
  write_now x w = (Ok tt, set_db (apply_write x (db w)) w).
Proof. done. Qed.

Lemma recordSyncStart_spec syncId w :
  fs_initialized w = true →
  ∃ w', recordSyncStart clock syncId w = (Ok tt, w') ∧ bookkeeping w w' ∧
        is_Some (sync_history (db w') !! syncId).
Proof.
  intros Hinit. unfold recordSyncStart.
  rewrite (bind_Ok _ _ _ _ _ (ensureInitialized_ok _ Hinit)).
  rewrite (bind_Ok _ _ _ _ _ (new_Date_eq _)), (bind_Ok _ _ _ _ _ (new_Date_eq _)).
  rewrite write_now_eq.
  eexists. split; [done|]. split.
  - eapply bookkeeping_trans; [|apply bookkeeping_history; by left].
    eapply bookkeeping_trans; apply bookkeeping_ticks.
  - simpl. rewrite lookup_insert_eq. eauto.
Qed.

Lemma update_doc_spec c i data w :
  c = SYNC_HISTORY ∨ c = SYNC_STATUS →
  ∃ r w', update_doc c i data w = (r, w') ∧ bookkeeping w w' ∧ r ≠ Diverge.
Proof.
  intros Hc. unfold update_doc, bind, gets.
  destruct (coll c (db w) !! i).
  - rewrite write_now_eq. eexists _, _. split; [done|]. split; [|done].
    by apply bookkeeping_history.
  - eexists _, _. split; [done|]. split; [apply bookkeeping_refl|done].
Qed.

Lemma swallow_spec (m : M unit) w :
  (∃ r w', m w = (r, w') ∧ bookkeeping w w' ∧ r ≠ Diverge) →
  ∃ w', try_catch m (λ _, ret tt) w = (Ok tt, w') ∧ bookkeeping w w'.
Proof.
  intros (r & w' & Hm & Hb & Hr). unfold try_catch. rewrite Hm.
  destruct r as [[]|e|]; [by eauto|by eauto|done].
Qed.


Lemma completeSyncRecord_spec syncId stats status w :
  ∃ w', completeSyncRecord clock syncId stats status w = (Ok tt, w') ∧
        bookkeeping w w'.
Proof.
  apply swallow_spec. unfold bind at 1.
  destruct (fs_initialized w) eqn:Hinit.
  - rewrite ensureInitialized_ok by done.
    rewrite (bind_Ok _ _ _ _ _ (new_Date_eq _)), (bind_Ok _ _ _ _ _ (new_Date_eq _)).
    match goal with |- context [update_doc SYNC_HISTORY syncId ?data ?w1] =>
      destruct (update_doc_spec SYNC_HISTORY syncId data w1)
        as (r & w' & -> & Hb & Hr); [by left|] end.
    eexists _, _. split; [done|]. split; [|done].
    eapply bookkeeping_trans; [|exact Hb].
    eapply bookkeeping_trans; apply bookkeeping_ticks.
  - destruct (ensureInitialized_throw _ Hinit) as [e ->].
    eexists _, _. split; [done|]. split; [apply bookkeeping_refl|done].
Qed.

Lemma updateSyncStatus_spec status syncId w :
  ∃ w', updateSyncStatus clock status syncId w = (Ok tt, w') ∧ bookkeeping w w'.
Proof.
  apply swallow_spec. unfold bind at 1.
  destruct (fs_initialized w) eqn:Hinit.
  - rewrite ensureInitialized_ok by done.
    rewrite (bind_Ok _ _ _ _ _ (new_Date_eq _)).
    destruct (String.eqb status "completed" || String.eqb status "failed").
    + rewrite (bind_Ok _ _ _ _ _ (bind_Ok _ _ _ _ _ (new_Date_eq _))).
      rewrite write_now_eq.
      eexists _, _. split; [done|]. split; [|done].
      eapply bookkeeping_trans; [|apply bookkeeping_history; by right].
      eapply bookkeeping_trans; apply bookkeeping_ticks.
    + unfold bind, ret at 1. rewrite write_now_eq.
      eexists _, _. split; [done|]. split; [|done].
      eapply bookkeeping_trans; [|apply bookkeeping_history; by right].
      apply bookkeeping_ticks.
  - destruct (ensureInitialized_throw _ Hinit) as [e ->].
    eexists _, _. split; [done|]. split; [apply bookkeeping_refl|done].
Qed.

End BookkeepingProofs.

(** ** performFullSync *)

Section FullSyncProofs.

Variable P : Provider.







Lemma fetched_name fuel d : Drive.name (fetched P fuel d) = Drive.name d.
Proof. unfold fetched. by destruct (fetch_drive P fuel (Drive.id d)) as [[??]| |]. Qed.



End FullSyncProofs.

(** ** Manager records after a replace *)

Section ManagersReplaced.

Variable clock : nat → Z.
Variable autoId : nat → string.




End ManagersReplaced.

(** ** syncToFirestore *)



(** A merge-write keeps the fields it does not carry and never removes a
    document. *)
Lemma write_slot_set_some c i x o :
  is_delete x = false → is_Some o → is_Some (write_slot c i x o).
Proof. destruct x; [done|]. simpl. intros _ Ho. by case_decide. Qed.

Section SyncLoopProofs.

Variable clock : nat → Z.
Variable autoId : nat → string.








Lemma managerData_fields driveId driveName m now :
  managerData driveId driveName m now !! "driveId" = Some (VStr driveId) ∧
  managerData driveId driveName m now !! "synced_by_backend" = Some (VBool true) ∧
  stored_key (managerData driveId driveName m now) = supplied_key m.
Proof. done. Qed.




End SyncLoopProofs.

(** ** performSync *)

Lemma data_same_refl w : data_same w w.
Proof. unfold data_same. by split_and!. Qed.

Lemma data_same_trans w1 w2 w3 : data_same w1 w2 → data_same w2 w3 → data_same w1 w3.
Proof.
  unfold data_same. intros (?&?&?&?&?&?&?) (?&?&?&?&?&?&?). split_and!; congruence.
Qed.

Lemma bookkeeping_data_same w w' : bookkeeping w w' → data_same w w'.
Proof.
  unfold bookkeeping, data_same, frame.
  intros (?&?&?&?&?&?&?&?). by split_and!.
Qed.




Section PerformSyncProofs.

Variable clock : nat → Z.
Variable autoId : nat → string.
Variable uuid : nat → string.
Variable P : Provider.

Lemma enter_run_running w :
  isRunning w = true → enter_run clock uuid w = (Throw already_running, w).
Proof. unfold enter_run, bind, gets. by intros ->. Qed.

Lemma enter_run_idle w :
  isRunning w = false →
  ∃ w', enter_run clock uuid w = (Ok tt, w') ∧
        isRunning w' = true ∧
        currentSyncId w' = Some (uuid (uuids w)) ∧
        syncStats w' = set_start_time (clock (ticks w)) emptyStats ∧
        data_same w w'.
Proof.
  intros Hidle. unfold enter_run, bind, gets. rewrite Hidle.
  eexists. split; [reflexivity|]. simpl. unfold data_same. by split_and!.
Qed.

Lemma update_stats_eq f w :
  update_stats f w = (Ok tt, set_syncStats (f (syncStats w)) w).
Proof. done. Qed.

Lemma stamp_end_eq w :
  stamp_end clock w
  = (Ok tt, set_syncStats (set_end_time (clock (ticks w)) (syncStats w))
              (set_ticks (S (ticks w)) w)).
Proof. done. Qed.

Lemma this_currentSyncId_eq w :
  this_currentSyncId w = (Ok (default EmptyString (currentSyncId w)), w).
Proof. done. Qed.





End PerformSyncProofs.

Section RunProofs.

Variable clock : nat → Z.
Variable autoId : nat → string.
Variable uuid : nat → string.
Variable P : Provider.


(** The [catch] block always returns: both of its writes are best-effort. *)
Lemma performSync_catch_ok message w :
  ∃ out w', performSync_catch clock message w = (Ok out, w') ∧
            success out = false ∧ status out = "failed".
Proof.
  unfold performSync_catch.
  rewrite (bind_Ok _ _ _ _ _ (stamp_end_eq clock _)).
  unfold push_error. rewrite (bind_Ok _ _ _ _ _ (update_stats_eq _ _)).
  rewrite (bind_Ok _ _ _ _ _ (this_currentSyncId_eq _)).
  erewrite bind_Ok; [|reflexivity].
  match goal with |- context [bind (completeSyncRecord clock ?i ?s ?st) _ ?w0] =>
    destruct (completeSyncRecord_spec clock i s st w0) as (w1 & Hrun1 & _) end.
  rewrite (bind_Ok _ _ _ _ _ Hrun1).
  destruct (updateSyncStatus_spec clock "failed" None w1) as (w2 & Hrun2 & _).
  rewrite (bind_Ok _ _ _ _ _ Hrun2). by eexists _, _.
Qed.

(** Neither entry point throws once the guard is passed. *)
Lemma run_never_throws (body : M SyncOutcome) w :
  isRunning w = false →
  ∀ e w', (enter_run clock uuid ;;;
           finally (try_catch body (performSync_catch clock)) leave_run) w
          ≠ (Throw e, w').
Proof.
  intros Hidle e w'.
  destruct (enter_run_idle clock uuid w Hidle) as (w1 & Henter & _).
  rewrite (bind_Ok _ _ _ _ _ Henter). unfold finally, try_catch.
  destruct (body w1) as [[out|msg|] w2]; [done| |done].
  by destruct (performSync_catch_ok msg w2) as (out & w3 & -> & _).
Qed.

End RunProofs.

(** ** Whole runs *)

Section DriveReconciliation.

Variable clock : nat → Z.




End DriveReconciliation.

Section WholeRuns.

Variable clock : nat → Z.
Variable autoId : nat → string.
Variable uuid : nat → string.
Variable P : Provider.


(** C2. While a run is in progress ([isRunning] is set, which the start of
    a run does), performSync and performIncrementalSync throw the "already
    running" error at once and change nothing, in particular not the id of
    the run in progress; they throw in no other case. *)
Theorem second_call_fails_fast (fuel : nat) (driveIds : list string) (w : World) :
  isRunning w = true →
  performSync clock autoId uuid P fuel w = (Throw already_running, w) ∧
  performIncrementalSync clock autoId uuid P fuel driveIds w
    = (Throw already_running, w) ∧
  (∀ w0, isRunning w0 = false →
         ∃ w1, enter_run clock uuid w0 = (Ok tt, w1) ∧ isRunning w1 = true ∧
               currentSyncId w1 = Some (uuid (uuids w0))) ∧
  (∀ w0 e w1, isRunning w0 = false →
              performSync clock autoId uuid P fuel w0 ≠ (Throw e, w1) ∧
              performIncrementalSync clock autoId uuid P fuel driveIds w0
                ≠ (Throw e, w1)).
Proof.
  intros Hrun. split_and!.
  - unfold performSync. by rewrite (bind_Throw _ _ _ _ _ (enter_run_running clock uuid w Hrun)).
  - unfold performIncrementalSync.
    by rewrite (bind_Throw _ _ _ _ _ (enter_run_running clock uuid w Hrun)).
  - intros w0 Hidle.
    destruct (enter_run_idle clock uuid w0 Hidle) as (w1 & ? & ? & ? & _). eauto.
  - intros w0 e w1 Hidle. split; by apply run_never_throws.
Qed.

End WholeRuns.

Lemma second_call_fails_fast_witness :
  isRunning ex_running = true ∧
  performSync ex_clock ex_autoId ex_uuid ex_tree_provider 4 ex_running
    = (Throw already_running, ex_running) ∧
  performIncrementalSync ex_clock ex_autoId ex_uuid ex_tree_provider 4 ["drive-1"]
    ex_running = (Throw already_running, ex_running).
Proof.
  split; [reflexivity|].
  pose proof (second_call_fails_fast ex_clock ex_autoId ex_uuid ex_tree_provider 4
                ["drive-1"] ex_running eq_refl) as (H1 & H2 & _).
  by split.
Defined.



Section Claim9.

Variable clock : nat → Z.
Variable autoId : nat → string.
Variable uuid : nat → string.
Variable P : Provider.




End Claim9.





(** ** A second run against an unchanged remote *)


Lemma driveData_synced_at drive t e :
  driveData drive t e !! "synced_at" = Some (VDate t).
Proof.
  unfold driveData.
  by destruct e as [old|]; [destruct (truthy (js_get old "created_by_frontend"))|].
Qed.


Section SecondRun.

Variable clock : nat → Z.





End SecondRun.


Section Claim10.

Variable clock : nat → Z.
Variable autoId : nat → string.
Variable uuid : nat → string.
Variable P : Provider.


End Claim10.



(** C5. A full sync in which the folder listing of one drive fails ends in
    the terminal status completed_with_errors and leaves the service idle;
    yet the status document still names the finished run in
    current_sync_id and has no last_sync: [updateSyncStatus] treats only
    completed and failed as terminal. *)
Theorem completed_with_errors_not_terminal :
  (∃ out, ex_partial_run.1 = Ok out ∧
          status out = "completed_with_errors" ∧ sync_id out = Some "run-0") ∧
  isRunning ex_partial_run.2 = false ∧
  currentSyncId ex_partial_run.2 = None ∧
  status_doc ex_partial_run.2 !! "status" = Some (VStr "completed_with_errors") ∧
  status_doc ex_partial_run.2 !! "current_sync_id" = Some (VStr "run-0") ∧
  status_doc ex_partial_run.2 !! "last_sync" = None.
Proof.
  split_and!; [eexists; split_and!|..]; vm_compute; reflexivity.
Qed.

(** * The batches of the drive and folder writers *)





Section Batches.

Variable clock : nat → Z.




End Batches.



(** * The store functions on their own *)

Lemma js_or_num n : js_or (VNum (Z.of_nat n)) (VNum 0) = VNum (Z.of_nat n).
Proof.
  unfold js_or. simpl. destruct (Z.eqb_spec (Z.of_nat n) 0) as [->|]; done.
Qed.


Section StoreAlone.

Variable clock : nat → Z.



(** The nine fields that completeSyncRecord writes. *)
Lemma completeSyncRecord_done syncId stats status old w :
  fs_initialized w = true →
  sync_history (db w) !! syncId = Some old →
  ∃ data,
    completeSyncRecord clock syncId stats status w
      = (Ok tt, set_db (apply_write (WSet SYNC_HISTORY syncId data true) (db w))
                  (set_ticks (S (S (ticks w))) w)) ∧
    dom data = list_to_set ["status"; "end_time"; "duration_ms"; "duration_minutes";
                            "drives_count"; "folders_count"; "managers_count";
                            "errors"; "completed_at"] ∧
    data !! "status" = Some (VStr status) ∧
    data !! "end_time" = Some (VDate (clock (ticks w))) ∧
    data !! "drives_count" = Some (VNum (Z.of_nat (drives_count stats))) ∧
    data !! "folders_count" = Some (VNum (Z.of_nat (folders_count stats))) ∧
    data !! "managers_count" = Some (VNum (Z.of_nat (managers_count stats))) ∧
    data !! "errors" = Some (VList (errors stats)).
Proof.
  intros Hinit Hold. eexists. split_and!.
  - unfold completeSyncRecord. apply try_catch_Ok.
    rewrite (bind_Ok _ _ _ _ _ (ensureInitialized_ok _ Hinit)).
    rewrite (bind_Ok _ _ _ _ _ (new_Date_eq _ _)), (bind_Ok _ _ _ _ _ (new_Date_eq _ _)).
    unfold update_doc. erewrite bind_Ok; [|unfold gets; reflexivity].
    cbn [set_ticks db coll]. rewrite Hold. reflexivity.
  - rewrite !dom_insert_L, dom_empty_L. set_solver.
  - done.
  - done.
  - rewrite !lookup_insert_ne by done. by rewrite lookup_insert_eq, js_or_num.
  - rewrite !lookup_insert_ne by done. by rewrite lookup_insert_eq, js_or_num.
  - rewrite !lookup_insert_ne by done. by rewrite lookup_insert_eq, js_or_num.
  - done.
Qed.

Lemma completeSyncRecord_missing syncId stats status w :
  fs_initialized w = true →
  sync_history (db w) !! syncId = None →
  completeSyncRecord clock syncId stats status w
  = (Ok tt, set_ticks (S (S (ticks w))) w).
Proof.
  intros Hinit Hold. unfold completeSyncRecord, try_catch.
  rewrite (bind_Ok _ _ _ _ _ (ensureInitialized_ok _ Hinit)).
  rewrite (bind_Ok _ _ _ _ _ (new_Date_eq _ _)), (bind_Ok _ _ _ _ _ (new_Date_eq _ _)).
  unfold update_doc. erewrite bind_Ok; [|unfold gets; reflexivity].
  cbn [set_ticks db coll]. by rewrite Hold.
Qed.

(** X4. completeSyncRecord is an update: on an existing run record it
    overwrites the nine terminal fields (status, end_time, the durations, the
    three counts, errors, completed_at) and keeps every other field of the
    record; when there is no record for the id it writes nothing, and
    still returns. It never touches another record or collection. *)
Theorem completeSyncRecord_updates (syncId : string) (stats : Stats)
    (status : string) (w : World) :
  fs_initialized w = true →
  ∃ w',
    completeSyncRecord clock syncId stats status w = (Ok tt, w') ∧
    commits w' = commits w ∧
    (∀ c, c ≠ SYNC_HISTORY → coll c (db w') = coll c (db w)) ∧
    (∀ i, i ≠ syncId → sync_history (db w') !! i = sync_history (db w) !! i) ∧
    match sync_history (db w) !! syncId with
    | None => sync_history (db w') !! syncId = None
    | Some old =>
        ∃ new, sync_history (db w') !! syncId = Some new ∧
               new !! "status" = Some (VStr status) ∧
               new !! "drives_count" = Some (VNum (Z.of_nat (drives_count stats))) ∧
               new !! "folders_count" = Some (VNum (Z.of_nat (folders_count stats))) ∧
               new !! "managers_count"
                 = Some (VNum (Z.of_nat (managers_count stats))) ∧
               new !! "errors" = Some (VList (errors stats)) ∧
               (∀ k, k ∉ ["status"; "end_time"; "duration_ms"; "duration_minutes";
                          "drives_count"; "folders_count"; "managers_count";
                          "errors"; "completed_at"] →
                     new !! k = old !! k)
    end.
Proof.
  intros Hinit. destruct (sync_history (db w) !! syncId) as [old|] eqn:Hold.
  - destruct (completeSyncRecord_done syncId stats status old w Hinit Hold)
      as (data & Hrun & Hdom & Hst & _ & Hd & Hf & Hm & He).
    eexists. split; [exact Hrun|]. cbn [commits set_db set_ticks db apply_write].
    split_and!.
    + done.
    + intros c Hc. by rewrite coll_set_coll_ne.
    + intros i Hi. change (sync_history ?y) with (coll SYNC_HISTORY y).
      rewrite coll_set_coll_eq. by rewrite lookup_insert_ne.
    + change (sync_history ?y) with (coll SYNC_HISTORY y).
      rewrite coll_set_coll_eq, lookup_insert_eq.
      eexists. split; [done|]. cbn [coll set_doc]. rewrite Hold.
      change (default ∅ (Some old)) with old.
      split_and!; try (rewrite lookup_union; first [rewrite Hst|rewrite Hd|rewrite Hf
                        |rewrite Hm|rewrite He]; by destruct (old !! _)).
      intros k Hk. rewrite lookup_union.
      assert (Hnone : data !! k = None).
      { apply not_elem_of_dom. rewrite Hdom, elem_of_list_to_set. exact Hk. }
      rewrite Hnone. by destruct (old !! k).
  - rewrite (completeSyncRecord_missing _ _ _ _ Hinit Hold).
    eexists. split; [done|]. by split_and!.
Qed.

(** What updateSyncStatus writes into the status document. *)
Lemma updateSyncStatus_done status syncId w :
  fs_initialized w = true →
  ∃ data n,
    updateSyncStatus clock status syncId w
      = (Ok tt, set_db (apply_write (WSet SYNC_STATUS "current" data true) (db w))
                  (set_ticks n w)) ∧
    ticks w < n ∧
    data !! "status" = Some (VStr status) ∧
    (status = "completed" ∨ status = "failed" →
     data !! "current_sync_id" = Some VNull ∧
     data !! "last_sync" = Some (VDate (clock (S (ticks w))))) ∧
    (status ≠ "completed" → status ≠ "failed" →
     data !! "last_sync" = None ∧
     data !! "current_sync_id"
       = match syncId with
         | Some i => if String.eqb i EmptyString then None else Some (VStr i)
         | None => None
         end) ∧
    (∀ k, k ∉ ["status"; "updated_at"; "current_sync_id"; "last_sync"] →
          data !! k = None).
Proof.
  intros Hinit. unfold updateSyncStatus.
  destruct (String.eqb status "completed" || String.eqb status "failed") eqn:Hterm.
  - eexists _, _. split_and!.
    + apply try_catch_Ok.
      rewrite (bind_Ok _ _ _ _ _ (ensureInitialized_ok _ Hinit)).
      rewrite (bind_Ok _ _ _ _ _ (new_Date_eq _ _)).
      rewrite (bind_Ok _ _ _ _ _ (bind_Ok _ _ _ _ _ (new_Date_eq _ _))).
      rewrite write_now_eq. reflexivity.
    + simpl. lia.
    + rewrite !lookup_insert_ne by done.
      destruct syncId as [i|]; [destruct (String.eqb i EmptyString)|];
        rewrite ?lookup_insert_ne by done; by rewrite lookup_insert_eq.
    + intros _. split; [by rewrite lookup_insert_eq|].
      rewrite lookup_insert_ne by done. by rewrite lookup_insert_eq.
    + intros H1 H2. apply orb_prop in Hterm as [H|H]; apply String.eqb_eq in H; done.
    + intros k Hk. rewrite !not_elem_of_cons in Hk. destruct Hk as (?&?&?&?&_).
      rewrite !lookup_insert_ne by done.
      destruct syncId as [i|]; [destruct (String.eqb i EmptyString)|];
        by rewrite !lookup_insert_ne by done.
  - apply orb_false_elim in Hterm as [H1 H2].
    apply String.eqb_neq in H1, H2.
    eexists _, _. split_and!.
    + apply try_catch_Ok.
      rewrite (bind_Ok _ _ _ _ _ (ensureInitialized_ok _ Hinit)).
      rewrite (bind_Ok _ _ _ _ _ (new_Date_eq _ _)).
      unfold bind at 1. unfold ret at 1. rewrite write_now_eq. reflexivity.
    + simpl. lia.
    + destruct syncId as [i|]; [destruct (String.eqb i EmptyString)|];
        rewrite ?lookup_insert_ne by done; by rewrite lookup_insert_eq.
    + intros [?|?]; done.
    + intros _ _.
      destruct syncId as [i|]; [destruct (String.eqb i EmptyString)|]; done.
    + intros k Hk. rewrite !not_elem_of_cons in Hk. destruct Hk as (?&?&?&?&_).
      destruct syncId as [i|]; [destruct (String.eqb i EmptyString)|];
        by rewrite !lookup_insert_ne by done.
Qed.

(** X5. Writing and reading the status document. After
    updateSyncStatus(status, syncId), getSyncStatus returns a document with
    that status. For [completed] and [failed] it has current_sync_id = null
    and last_sync = the time of the update; for any other status it has
    the given syncId as current_sync_id (the earlier one when none is
    given) and its earlier last_sync. Fields written by neither are kept. *)
Theorem status_written_then_read (status : string) (syncId : option string)
    (w : World) :
  fs_initialized w = true →
  ∃ w' d,
    updateSyncStatus clock status syncId w = (Ok tt, w') ∧
    FirestoreService.getSyncStatus w' = (Ok d, w') ∧
    d !! "status" = Some (VStr status) ∧
    (status = "completed" ∨ status = "failed" →
     d !! "current_sync_id" = Some VNull ∧
     d !! "last_sync" = Some (VDate (clock (S (ticks w))))) ∧
    (status ≠ "completed" → status ≠ "failed" →
     d !! "last_sync" = status_doc w !! "last_sync" ∧
     d !! "current_sync_id"
       = match syncId with
         | Some i => if String.eqb i EmptyString
                     then status_doc w !! "current_sync_id" else Some (VStr i)
         | None => status_doc w !! "current_sync_id"
         end) ∧
    (∀ k, k ∉ ["status"; "updated_at"; "current_sync_id"; "last_sync"] →
          d !! k = status_doc w !! k).
Proof.
  intros Hinit.
  destruct (updateSyncStatus_done status syncId w Hinit)
    as (data & n & Hrun & Hn & Hst & Hterm & Hother & Hrest).
  eexists _, (data ∪ status_doc w). split; [exact Hrun|]. split_and!.
  - unfold FirestoreService.getSyncStatus. apply try_catch_Ok.
    match goal with |- bind _ _ ?w1 = _ =>
      rewrite (bind_Ok _ _ _ _ _ (ensureInitialized_ok w1 Hinit)) end.
    erewrite bind_Ok; [|unfold gets; reflexivity].
    cbn [db set_db set_ticks apply_write].
    change (sync_status ?y) with (coll SYNC_STATUS y).
    rewrite coll_set_coll_eq, lookup_insert_eq. done.
  - rewrite lookup_union, Hst. by destruct (status_doc w !! "status").
  - intros Ht. destruct (Hterm Ht) as [H1 H2]. rewrite !lookup_union, H1, H2.
    split; [by destruct (status_doc w !! "current_sync_id")
           |by destruct (status_doc w !! "last_sync")].
  - intros H1 H2. destruct (Hother H1 H2) as [Hl Hc]. rewrite !lookup_union, Hl, Hc.
    split; [by destruct (status_doc w !! "last_sync")|].
    destruct syncId as [i|]; [destruct (String.eqb i EmptyString)|];
      by destruct (status_doc w !! "current_sync_id").
  - intros k Hk. rewrite lookup_union, (Hrest k Hk).
    by destruct (status_doc w !! k).
Qed.

End StoreAlone.


Lemma completeSyncRecord_updates_witness :
  fs_initialized (ex_world ex_db_running) = true ∧
  ∃ w' new,
    completeSyncRecord ex_clock "run-0" ex_stats "completed" (ex_world ex_db_running)
      = (Ok tt, w') ∧
    sync_history (db w') !! "run-0" = Some new ∧
    new !! "status" = Some (VStr "completed") ∧
    new !! "drives_count" = Some (VNum 2) ∧
    new !! "sync_id" = Some (VStr "run-0") ∧
    new !! "start_time" = Some (VDate 1000).
Proof.
  split; [reflexivity|].
  destruct (completeSyncRecord_updates ex_clock "run-0" ex_stats "completed"
              (ex_world ex_db_running) eq_refl)
    as (w' & Hrun & _ & _ & _ & Hrec).
  change (sync_history (db (ex_world ex_db_running)) !! "run-0")
    with (Some (<["sync_id" := VStr "run-0"]>
               (<["status" := VStr "running"]>
               (<["start_time" := VDate 1000]> (∅ : doc))))) in Hrec.
  destruct Hrec as (new & Hnew & Hst & Hd & _ & _ & _ & Hkeep).
  exists w', new. split_and!; [exact Hrun|exact Hnew|exact Hst|exact Hd| |].
  - rewrite Hkeep; [reflexivity|]. rewrite !not_elem_of_cons. split_and!; try done.
    apply not_elem_of_nil.
  - rewrite Hkeep; [reflexivity|]. rewrite !not_elem_of_cons. split_and!; try done.
    apply not_elem_of_nil.
Defined.

Lemma status_written_then_read_witness :
  fs_initialized (ex_world ex_db_running) = true ∧
  ∃ w' d,
    updateSyncStatus ex_clock "completed" None (ex_world ex_db_running) = (Ok tt, w') ∧
    FirestoreService.getSyncStatus w' = (Ok d, w') ∧
    d !! "status" = Some (VStr "completed") ∧
    d !! "current_sync_id" = Some VNull ∧
    d !! "last_sync" = Some (VDate 1001).
Proof.
  split; [reflexivity|].
  destruct (status_written_then_read ex_clock "completed" None
              (ex_world ex_db_running) eq_refl)
    as (w' & d & Hrun & Hget & Hst & Hterm & _).
  destruct (Hterm (or_introl eq_refl)) as [Hc Hl].
  exists w', d. by split_and!.
Defined.

(** * Status and health reports *)

Section Reports.

Variable clock : nat → Z.
Variable P : Provider.

Lemma getDatabaseStats_eq w :
  FirestoreService.getDatabaseStats clock w
  = if fs_initialized w
    then (Ok (mkDatabaseStats (size (shared_drives (db w))) (size (folders (db w)))
                (size (drive_managers (db w))) (Some (clock (ticks w))) None),
          set_ticks (S (ticks w)) w)
    else (Ok (mkDatabaseStats 0 0 0 None
                (Some "Firestore Sync Service no está inicializado. Llama a initialize() primero.")),
          w).
Proof.
  unfold FirestoreService.getDatabaseStats, ensureInitialized, try_catch, bind, gets.
  cbv beta. by destruct (fs_initialized w).
Qed.

Lemma fs_getSyncStatus_eq w :
  ∃ d, FirestoreService.getSyncStatus w = (Ok d, w) ∧
       (fs_initialized w = false → d = <["status" := VStr "unknown"]> ∅).
Proof.
  unfold FirestoreService.getSyncStatus, ensureInitialized, try_catch, bind, gets.
  cbv beta. destruct (fs_initialized w); [|by eexists].
  unfold ret. cbv beta iota zeta.
  destruct (sync_status (db w) !! "current"); eexists; (split; [reflexivity|done]).
Qed.

Lemma testConnection_eq w :
  testConnection P w
  = (Ok (if gd_initialized w
         then match about_get P with
              | Response user => mkConnectionTest true (Some user) None
              | Failure e => mkConnectionTest false None (Some e)
              end
         else mkConnectionTest false None
                (Some "Google Drive Sync Service no está inicializado. Llama a initialize() primero.")),
     w).
Proof.
  unfold testConnection, gd_ensureInitialized, try_catch, bind, gets, call.
  cbv beta. destruct (gd_initialized w); [|done]. by destruct (about_get P).
Qed.

(** X6. healthCheck never throws and never reports failure: in every
    state it returns the report with success and firestore.connected = true.
    A failing Drive probe shows only as google_drive.success = false, a
    store that is not initialised only as zero counts with an error inside
    the statistics. It writes nothing. *)
Theorem healthCheck_never_fails (w : World) :
  ∃ driveTest stats w',
    SyncService.healthCheck clock P w
      = (Ok (Healthy driveTest true stats (isRunning w) (currentSyncId w)), w') ∧
    db w' = db w ∧ commits w' = commits w ∧
    (ct_success driveTest = true ↔
     gd_initialized w = true ∧ ∃ user, about_get P = Response user) ∧
    (if fs_initialized w
     then db_error stats = None ∧
          db_drives_count stats = size (shared_drives (db w)) ∧
          db_folders_count stats = size (folders (db w)) ∧
          db_managers_count stats = size (drive_managers (db w))
     else is_Some (db_error stats) ∧ db_drives_count stats = 0 ∧
          db_folders_count stats = 0 ∧ db_managers_count stats = 0).
Proof.
  pose proof (getDatabaseStats_eq w) as Hstats.
  assert (Hct : ct_success
                  (if gd_initialized w
                   then match about_get P with
                        | Response user => mkConnectionTest true (Some user) None
                        | Failure e => mkConnectionTest false None (Some e)
                        end
                   else mkConnectionTest false None
                          (Some "Google Drive Sync Service no está inicializado. Llama a initialize() primero."))
                = true ↔
                gd_initialized w = true ∧ ∃ user, about_get P = Response user).
  { destruct (gd_initialized w); [|by intuition].
    destruct (about_get P) as [user|e]; simpl.
    - split; [intros _; split; [done|by exists user]|done].
    - split; [done|]. by intros [_ [? ?]]. }
  unfold SyncService.healthCheck.
  destruct (fs_initialized w) eqn:Hinit;
    (eexists _, _, _; refine (conj _ (conj _ (conj _ (conj _ _))));
     [apply try_catch_Ok; rewrite (bind_Ok _ _ _ _ _ (testConnection_eq w));
      unfold bind at 1; rewrite Hstats; reflexivity
     |done|done|exact Hct|simpl; by eauto]).
Qed.

(** X7. getSyncStatus of the sync service never takes its error branch
    and never throws: it returns the full report with the service's running
    flag and run id, the status document as getSyncStatus of the store reads
    it ([status: unknown] when the store is not initialised), the database
    statistics, and sync_config with interval_hours and enabled undefined
    (config.js defines neither SYNC.INTERVAL_HOURS nor SYNC.ENABLED); it
    writes nothing. *)
Theorem getSyncStatus_never_fails (w : World) :
  ∃ firestoreStatus stats w',
    SyncService.getSyncStatus clock w
      = (Ok (StatusReport (isRunning w) (currentSyncId w) (start_time (syncStats w))
               firestoreStatus stats VUndefined VUndefined), w') ∧
    db w' = db w ∧ commits w' = commits w ∧
    FirestoreService.getSyncStatus w = (Ok firestoreStatus, w) ∧
    (FirestoreService.getDatabaseStats clock w).1 = Ok stats.
Proof.
  destruct (fs_getSyncStatus_eq w) as (d & Hd & _).
  pose proof (getDatabaseStats_eq w) as Hstats.
  unfold SyncService.getSyncStatus.
  destruct (fs_initialized w) eqn:Hinit;
    (eexists d, _, _; refine (conj _ (conj _ (conj _ (conj _ _))));
     [apply try_catch_Ok; rewrite (bind_Ok _ _ _ _ _ Hd);
      unfold bind at 1; rewrite Hstats; reflexivity
     |done|done|exact Hd|by rewrite Hstats]).
Qed.

End Reports.

(** * Drives created locally *)

Section LocalDrives.

Variable clock : nat → Z.
Variable autoId : nat → string.

Lemma saveNewSharedDrive_spec driveData managers w :
  fs_initialized w = true →
  let d := FirestoreService.newDriveData driveData (clock (ticks w))
             (clock (S (ticks w))) in
  ∃ w',
    FirestoreService.saveNewSharedDrive clock autoId driveData managers w
      = (Ok d, w') ∧
    fs_initialized w' = true ∧
    shared_drives (db w') = <[Drive.id driveData := d]> (shared_drives (db w)) ∧
    folders (db w') = folders (db w) ∧
    (managers = [] → drive_managers (db w') = drive_managers (db w) ∧
                     commits w' = commits w) ∧
    (managers ≠ [] →
     ∃ w0, db w0 = apply_write (WSet SHARED_DRIVES (Drive.id driveData) d false) (db w) ∧
           ids w0 = ids w ∧ commits w0 = commits w ∧ fs_initialized w0 = true ∧
           syncManagersForDrive clock autoId (Drive.id driveData)
             (Drive.name driveData) managers w0 = (Ok (length managers), w')).
Proof.
  intros Hinit d. unfold FirestoreService.saveNewSharedDrive.
  rewrite (bind_Ok _ _ _ _ _ (ensureInitialized_ok _ Hinit)).
  rewrite (bind_Ok _ _ _ _ _ (new_Date_eq _ _)), (bind_Ok _ _ _ _ _ (new_Date_eq _ _)).
  cbn [ticks set_ticks]. fold d.
  rewrite (bind_Ok _ _ _ _ _ (write_now_eq _ _)).
  set (w0 := set_db _ _).
  assert (Hinit0 : fs_initialized w0 = true) by exact Hinit.
  destruct managers as [|m managers].
  - exists w0. split_and!; try done.
  - destruct (syncManagersForDrive_spec clock autoId (Drive.id driveData)
                (Drive.name driveData) (m :: managers) w0 Hinit0)
      as (w' & Hrun & Hc & Hdb & Hids & _ & Hfr).
    assert (Hmw : Forall (λ x, write_coll x = DRIVE_MANAGERS)
                    (manager_writes clock autoId (Drive.id driveData)
                       (Drive.name driveData) (drive_managers (db w0)) (ids w0)
                       (ticks w0) (m :: managers))).
    { unfold manager_writes, manager_sets. apply Forall_app. split.
      - apply Forall_fmap, Forall_forall. by intros.
      - apply Forall_fmap, Forall_forall. by intros. }
    exists w'. split_and!.
    + cbn [length Nat.ltb Nat.leb]. unfold bind at 1. unfold bind at 1.
      rewrite Hrun. reflexivity.
    + destruct Hfr as (-> & _). exact Hinit0.
    + rewrite Hdb. change (shared_drives ?y) with (coll SHARED_DRIVES y).
      rewrite apply_writes_other; [done|].
      eapply Forall_impl; [exact Hmw|]. by intros x ->.
    + rewrite Hdb. change (folders ?y) with (coll FOLDERS y).
      rewrite apply_writes_other; [done|].
      eapply Forall_impl; [exact Hmw|]. by intros x ->.
    + done.
    + intros _. exists w0. by split_and!.
Qed.


End LocalDrives.


(** * Creating a drive *)

Section CreateDrive.

Variable clock : nat → Z.
Variable autoId : nat → string.
Variable toISOString : Z → string.
Variable C : Creator.

Lemma add_managers_loop driveId (managers : list string) acc w :
  for_of (GoogleDriveService.add_manager_email_step C driveId) managers acc w
  = (Ok (acc ++ omap (added_manager C driveId) managers), w).
Proof.
  revert acc. induction managers as [|email managers IH]; intros acc.
  - simpl. by rewrite app_nil_r.
  - assert (Hstep : GoogleDriveService.add_manager_email_step C driveId email acc w
                    = (Ok (acc ++ option_list (added_manager C driveId email)), w)).
    { unfold GoogleDriveService.add_manager_email_step,
        GoogleDriveService.addManagerToSharedDrive, added_manager,
        try_catch, bind, call, ret, throw.
      destruct (permissions_create C driveId email) as [p|e]; cbn [option_list].
      - reflexivity.
      - by rewrite app_nil_r. }
    cbn [for_of]. rewrite (bind_Ok _ _ _ _ _ Hstep), IH. simpl omap.
    destruct (added_manager C driveId email); cbn [option_list].
    + by rewrite <- app_assoc.
    + by rewrite app_nil_r.
Qed.

Lemma createSharedDrive_run name managers w newDrive :
  gd_initialized w = true →
  drives_create C name = Response newDrive →
  ∃ r w',
    GoogleDriveService.createSharedDrive clock toISOString C name managers w
      = (Ok r, w') ∧
    db w' = db w ∧ commits w' = commits w ∧ ids w' = ids w ∧
    fs_initialized w' = fs_initialized w ∧
    Drive.id (cd_drive r) = Drive.id newDrive ∧
    Drive.name (cd_drive r) = Drive.name newDrive ∧
    cd_managers r = omap (added_manager C (Drive.id newDrive)) managers.
Proof.
  intros Hinit Hnew. unfold GoogleDriveService.createSharedDrive.
  rewrite (bind_Ok _ _ _ _ _ (gd_ensureInitialized_ok _ Hinit)).
  unfold bind at 1. unfold call at 1. rewrite Hnew.
  unfold ret at 1. cbv beta iota.
  rewrite (bind_Ok _ _ _ _ _ (add_managers_loop _ _ _ _)). cbn [app].
  unfold GoogleDriveService.created_time_or_now.
  destruct (truthy (Drive.createdTime newDrive)).
  - eexists _, _. split; [reflexivity|]. by split_and!.
  - eexists _, _. split; [reflexivity|]. by split_and!.
Qed.

Lemma omap_length_le {A B} (f : A → option B) (l : list A) :
  length (omap f l) ≤ length l.
Proof.
  induction l as [|x l IH]; [done|]. simpl.
  unfold omap in IH. destruct (f x); simpl; lia.
Qed.

(** X9. createSharedDrive on an initialised service throws exactly the
    error of the drive creation when that fails; once the drive is created
    it never fails on a manager: it returns the requested emails whose
    permission could be created, in the order of the request, each as an
    organizer of type user with the id of its permission, and silently
    leaves out the others. It never writes to the mirror. *)
Theorem createSharedDrive_managers (name : string) (managers : list string)
    (w : World) :
  gd_initialized w = true →
  match drives_create C name with
  | Failure e =>
      GoogleDriveService.createSharedDrive clock toISOString C name managers w
      = (Throw e, w)
  | Response newDrive =>
      ∃ r w',
        GoogleDriveService.createSharedDrive clock toISOString C name managers w
          = (Ok r, w') ∧
        db w' = db w ∧ commits w' = commits w ∧
        Drive.id (cd_drive r) = Drive.id newDrive ∧
        Drive.name (cd_drive r) = Drive.name newDrive ∧
        cd_managers r = omap (added_manager C (Drive.id newDrive)) managers ∧
        length (cd_managers r) ≤ length managers ∧
        (∀ m, m ∈ cd_managers r →
              Manager.role m = VStr "organizer" ∧ Manager.type m = VStr "user" ∧
              ∃ email p, email ∈ managers ∧
                         permissions_create C (Drive.id newDrive) email = Response p ∧
                         Manager.email m = VStr email ∧
                         Manager.permissionId m = Manager.id p) ∧
        (∀ email p, email ∈ managers →
                    permissions_create C (Drive.id newDrive) email = Response p →
                    ∃ m, m ∈ cd_managers r ∧ Manager.email m = VStr email ∧
                         Manager.permissionId m = Manager.id p)
  end.
Proof.
  intros Hinit.
  destruct (drives_create C name) as [newDrive|e] eqn:Hnew.
  - destruct (createSharedDrive_run name managers w newDrive Hinit Hnew)
      as (r & w' & Hrun & Hdb & Hc & _ & _ & Hid & Hname & Hm).
    exists r, w'. rewrite Hm. split_and!; try done.
    + apply omap_length_le.
    + intros m (email & Hemail & Hadd)%list_elem_of_omap.
      unfold added_manager in Hadd.
      destruct (permissions_create C (Drive.id newDrive) email) as [p|] eqn:Hp; [|done].
      simplify_eq. split_and!; [done|done|]. by exists email, p.
    + intros email p Hemail Hp. eexists. split.
      * apply list_elem_of_omap. exists email. split; [done|].
        unfold added_manager. by rewrite Hp.
      * done.
  - unfold GoogleDriveService.createSharedDrive.
    rewrite (bind_Ok _ _ _ _ _ (gd_ensureInitialized_ok _ Hinit)).
    unfold bind at 1. unfold call at 1. by rewrite Hnew.
Qed.

End CreateDrive.

Lemma createSharedDrive_managers_witness :
  gd_initialized (ex_world ex_db1) = true ∧
  ∃ r w',
    GoogleDriveService.createSharedDrive ex_clock ex_toISOString ex_creator "new"
      ["ana@example.org"; "bad@example.org"; "eva@example.org"] (ex_world ex_db1)
      = (Ok r, w') ∧
    db w' = ex_db1 ∧
    Manager.email <$> cd_managers r = [VStr "ana@example.org"; VStr "eva@example.org"].
Proof.
  split; [reflexivity|].
  pose proof (createSharedDrive_managers ex_clock ex_toISOString ex_creator "new"
                ["ana@example.org"; "bad@example.org"; "eva@example.org"]
                (ex_world ex_db1) eq_refl) as H.
  cbn [drives_create ex_creator] in H.
  destruct H as (r & w' & Hrun & Hdb & _ & _ & _ & Hm & _).
  exists r, w'. split_and!; [done|done|]. rewrite Hm. reflexivity.
Defined.

(** * Creating a drive and saving it *)

Section CreateAndSave.

Variable clock : nat → Z.
Variable autoId : nat → string.
Variable toISOString : Z → string.
Variable C : Creator.

Lemma manager_writes_stored driveId driveName managers (d : DB) n t :
  NoDup (autoId <$> seq n (length managers)) →
  Forall (λ k, drive_managers d !! k = None) (autoId <$> seq n (length managers)) →
  (λ kd, stored_key kd.2) <$>
    existingManagers driveId
      (drive_managers
         (apply_writes
            (manager_writes clock autoId driveId driveName (drive_managers d) n t
               managers) d))
  ≡ₚ supplied_key <$> managers.
Proof.
  intros Hnd Hfresh. unfold manager_writes, manager_sets.
  rewrite apply_writes_app.
  set (es := manager_entries clock autoId driveId driveName n t managers).
  assert (Hkeys : es.*1 = autoId <$> seq n (length managers))
    by apply manager_entries_keys.
  rewrite apply_writes_sets_fresh.
  - rewrite existingManagers_after_deletes, app_nil_r.
    unfold es. by rewrite manager_entries_stored_keys.
  - by rewrite Hkeys.
  - rewrite Hkeys. eapply Forall_impl; [exact Hfresh|].
    intros k Hk. simpl in Hk.
    change (drive_managers ?y) with (coll DRIVE_MANAGERS y).
    rewrite apply_writes_deletes_lookup. by case_decide.
  - apply manager_entries_synced.
Qed.

Lemma seq_prefix n a b : a ≤ b → seq n b = seq n a ++ seq (n + a) (b - a).
Proof. intros Hab. rewrite <- seq_app. f_equal. lia. Qed.

(** X10. Creating a drive and saving the result, as the route
    POST /api/shared-drives does: the mirror gets the record of the new
    drive, marked created_by_frontend, and, when at least one manager could
    be added, the backend-synced manager records of the drive are exactly
    the added managers (by email, role and permission id); when none could
    be added the manager collection is left as it was. Folders are not
    touched. The automatic ids of the new documents are distinct and
    unused. *)
Theorem created_drive_saved (name : string) (emails : list string) (w : World)
    (newDrive : Drive.t) :
  gd_initialized w = true →
  fs_initialized w = true →
  drives_create C name = Response newDrive →
  NoDup (autoId <$> seq (ids w) (length emails)) →
  Forall (λ k, drive_managers (db w) !! k = None)
         (autoId <$> seq (ids w) (length emails)) →
  ∃ r w1 d w2,
    GoogleDriveService.createSharedDrive clock toISOString C name emails w
      = (Ok r, w1) ∧
    FirestoreService.saveNewSharedDrive clock autoId (cd_drive r) (cd_managers r) w1
      = (Ok d, w2) ∧
    shared_drives (db w2) !! Drive.id newDrive = Some d ∧
    d !! "name" = Some (VStr (Drive.name newDrive)) ∧
    d !! "created_by_frontend" = Some (VBool true) ∧
    folders (db w2) = folders (db w) ∧
    cd_managers r = omap (added_manager C (Drive.id newDrive)) emails ∧
    (cd_managers r ≠ [] →
     (λ kd, stored_key kd.2) <$>
       existingManagers (Drive.id newDrive) (drive_managers (db w2))
     ≡ₚ supplied_key <$> cd_managers r) ∧
    (cd_managers r = [] → drive_managers (db w2) = drive_managers (db w)).
Proof.
  intros Hgd Hfs Hnew Hnd Hfresh.
  destruct (createSharedDrive_run clock toISOString C name emails w newDrive Hgd Hnew)
    as (r & w1 & Hrun & Hdb1 & _ & Hids1 & Hfs1 & Hid & Hname & Hm).
  rewrite Hfs in Hfs1.
  destruct (saveNewSharedDrive_spec clock autoId (cd_drive r) (cd_managers r) w1 Hfs1)
    as (w2 & Hsave & _ & Hsd & Hfo & Hnil & Hcons).
  eexists r, w1, _, w2. split; [exact Hrun|]. split; [exact Hsave|].
  rewrite Hsd, Hfo, Hdb1. split_and!; try done.
  - by rewrite Hid, lookup_insert_eq.
  - unfold FirestoreService.newDriveData. rewrite Hname.
    by repeat (rewrite lookup_insert_eq || rewrite lookup_insert_ne by done).
  - intros Hne. destruct (Hcons Hne) as (w0 & Hdb0 & Hids0 & _ & Hfs0 & Hsync).
    destruct (syncManagersForDrive_spec clock autoId (Drive.id (cd_drive r))
                (Drive.name (cd_drive r)) (cd_managers r) w0 Hfs0)
      as (w2' & Hrun' & _ & Hdb2 & _).
    rewrite Hrun' in Hsync. injection Hsync as <-.
    rewrite Hdb2, <- Hid.
    assert (Hlen : length (cd_managers r) ≤ length emails)
      by (rewrite Hm; apply omap_length_le).
    rewrite (seq_prefix _ _ _ Hlen), fmap_app in Hnd, Hfresh.
    apply NoDup_app in Hnd as (Hnd & _ & _).
    apply Forall_app in Hfresh as [Hfresh _].
    apply manager_writes_stored.
    + by rewrite Hids0, Hids1.
    + rewrite Hids0, Hids1, Hdb0, Hdb1. exact Hfresh.
  - intros Hnone. destruct (Hnil Hnone) as [-> _]. by rewrite Hdb1.
Qed.

End CreateAndSave.

Lemma created_drive_saved_witness :
  gd_initialized (ex_world ex_db1) = true ∧
  fs_initialized (ex_world ex_db1) = true ∧
  ∃ r w1 d w2,
    GoogleDriveService.createSharedDrive ex_clock ex_toISOString ex_creator "new"
      ["ana@example.org"; "bad@example.org"; "eva@example.org"] (ex_world ex_db1)
      = (Ok r, w1) ∧
    FirestoreService.saveNewSharedDrive ex_clock ex_autoId (cd_drive r)
      (cd_managers r) w1 = (Ok d, w2) ∧
    shared_drives (db w2) !! "N1" = Some d ∧
    (λ kd, js_get kd.2 "email") <$> existingManagers "N1" (drive_managers (db w2))
      ≡ₚ [VStr "ana@example.org"; VStr "eva@example.org"].
Proof.
  split; [reflexivity|]. split; [reflexivity|].
  destruct (created_drive_saved ex_clock ex_autoId ex_toISOString ex_creator "new"
              ["ana@example.org"; "bad@example.org"; "eva@example.org"]
              (ex_world ex_db1) _ eq_refl eq_refl eq_refl)
    as (r & w1 & d & w2 & Hrun & Hsave & Hd & _ & _ & _ & Hm & Hkeys & _).
  - vm_compute. repeat constructor; set_solver.
  - vm_compute. repeat constructor.
  - exists r, w1, d, w2. split_and!; [done|done|done|].
    rewrite Hm in Hkeys.
    assert (Hne : omap (added_manager ex_creator (Drive.id
                    (Drive.mk "N1" "new" VUndefined VUndefined VUndefined VUndefined
                       VUndefined VUndefined VUndefined None None)))
                    ["ana@example.org"; "bad@example.org"; "eva@example.org"] ≠ [])
      by done.
    specialize (Hkeys Hne).
    apply (fmap_Permutation (λ k : value * value * value, k.1.1)) in Hkeys.
    rewrite <- !list_fmap_compose in Hkeys. exact Hkeys.
Defined.

(** * Run records through a run *)





Section RunRecords.

Variable clock : nat → Z.
Variable autoId : nat → string.

(** The record that recordSyncStart creates. *)
Lemma recordSyncStart_done syncId w :
  fs_initialized w = true →
  ∃ w' h,
    recordSyncStart clock syncId w = (Ok tt, w') ∧
    sync_status (db w') = sync_status (db w) ∧
    (∀ i, i ≠ syncId → sync_history (db w') !! i = sync_history (db w) !! i) ∧
    sync_history (db w') !! syncId = Some h ∧
    h !! "sync_id" = Some (VStr syncId) ∧
    h !! "sync_date" = Some (VDate (clock (ticks w))) ∧
    h !! "start_time" = Some (VDate (clock (S (ticks w)))).
Proof.
  intros Hinit. unfold recordSyncStart.
  rewrite (bind_Ok _ _ _ _ _ (ensureInitialized_ok _ Hinit)).
  rewrite (bind_Ok _ _ _ _ _ (new_Date_eq _ _)), (bind_Ok _ _ _ _ _ (new_Date_eq _ _)).
  rewrite write_now_eq. eexists _, _. split; [reflexivity|].
  cbn [db set_db set_ticks apply_write ticks].
  change (sync_history ?y) with (coll SYNC_HISTORY y).
  rewrite coll_set_coll_eq. split_and!.
  - done.
  - intros i Hi. by rewrite lookup_insert_ne.
  - by rewrite lookup_insert_eq.
  - done.
  - done.
  - done.
Qed.

(** The merge of updateSyncStatus into the status document. *)
Lemma updateSyncStatus_merged status syncId w :
  fs_initialized w = true →
  ∃ w' data,
    updateSyncStatus clock status syncId w = (Ok tt, w') ∧
    sync_history (db w') = sync_history (db w) ∧
    sync_status (db w') !! "current"
      = Some (data ∪ default ∅ (sync_status (db w) !! "current")) ∧
    data !! "status" = Some (VStr status) ∧
    (status = "completed" ∨ status = "failed" →
     data !! "current_sync_id" = Some VNull ∧
     data !! "last_sync" = Some (VDate (clock (S (ticks w))))) ∧
    (status ≠ "completed" → status ≠ "failed" →
     data !! "last_sync" = None ∧
     data !! "current_sync_id"
       = match syncId with
         | Some i => if String.eqb i EmptyString then None else Some (VStr i)
         | None => None
         end).
Proof.
  intros Hinit.
  destruct (updateSyncStatus_done clock status syncId w Hinit)
    as (data & n & Hrun & _ & Hst & Hterm & Hnon & _).
  eexists _, data. split; [exact Hrun|].
  cbn [db set_db set_ticks apply_write].
  change (sync_status ?y) with (coll SYNC_STATUS y).
  rewrite coll_set_coll_eq, lookup_insert_eq. by split_and!.
Qed.

(** The merge of completeSyncRecord into the record of the run. *)
Lemma completeSyncRecord_merged syncId stats status old w :
  fs_initialized w = true →
  sync_history (db w) !! syncId = Some old →
  ∃ w' data,
    completeSyncRecord clock syncId stats status w = (Ok tt, w') ∧
    sync_status (db w') = sync_status (db w) ∧
    (∀ i, i ≠ syncId → sync_history (db w') !! i = sync_history (db w) !! i) ∧
    sync_history (db w') !! syncId = Some (data ∪ old) ∧
    dom data = list_to_set ["status"; "end_time"; "duration_ms"; "duration_minutes";
                            "drives_count"; "folders_count"; "managers_count";
                            "errors"; "completed_at"] ∧
    data !! "status" = Some (VStr status) ∧
    data !! "drives_count" = Some (VNum (Z.of_nat (drives_count stats))) ∧
    data !! "folders_count" = Some (VNum (Z.of_nat (folders_count stats))) ∧
    data !! "managers_count" = Some (VNum (Z.of_nat (managers_count stats))) ∧
    data !! "errors" = Some (VList (errors stats)).
Proof.
  intros Hinit Hold.
  destruct (completeSyncRecord_done clock syncId stats status old w Hinit Hold)
    as (data & Hrun & Hdom & Hst & _ & Hd & Hf & Hm & He).
  eexists _, data. split; [exact Hrun|].
  cbn [db set_db set_ticks apply_write].
  change (sync_history ?y) with (coll SYNC_HISTORY y).
  rewrite coll_set_coll_eq. split_and!; try done.
  - intros i Hi. by rewrite lookup_insert_ne.
  - rewrite lookup_insert_eq. cbn [coll set_doc]. by rewrite Hold.
Qed.








End RunRecords.

(** * The records of a whole run *)

Section WholeRunRecords.

Variable clock : nat → Z.
Variable autoId : nat → string.
Variable uuid : nat → string.
Variable P : Provider.

Lemma enter_run_started w :
  isRunning w = false →
  ∃ w', enter_run clock uuid w = (Ok tt, w') ∧
        db w' = db w ∧ commits w' = commits w ∧ ticks w' = S (ticks w) ∧
        fs_initialized w' = fs_initialized w ∧
        gd_initialized w' = gd_initialized w ∧
        currentSyncId w' = Some (uuid (uuids w)) ∧
        syncStats w' = set_start_time (clock (ticks w)) emptyStats.
Proof.
  intros Hidle. unfold enter_run, bind, gets. rewrite Hidle.
  eexists. split; [reflexivity|]. by split_and!.
Qed.

Lemma final_status_cases (errs : list string) :
  (errs = [] ∧ final_status errs = "completed") ∨
  (errs ≠ [] ∧ final_status errs = "completed_with_errors").
Proof. destruct errs; [by left|by right]. Qed.



(** The [catch] block on an initialised store, with the record of the run
    in place. *)
Lemma performSync_catch_records message syncId h0 w :
  fs_initialized w = true →
  currentSyncId w = Some syncId →
  sync_history (db w) !! syncId = Some h0 →
  ∃ out w' data s,
    performSync_catch clock message w = (Ok out, w') ∧
    success out = false ∧ status out = "failed" ∧ error out = Some message ∧
    sync_id out = Some syncId ∧
    errors (stats out) = errors (syncStats w) ++ ["Error crítico: " +:+ message] ∧
    drives_count (stats out) = drives_count (syncStats w) ∧
    data_same w w' ∧ isRunning w' = isRunning w ∧
    (∀ i, i ≠ syncId → sync_history (db w') !! i = sync_history (db w) !! i) ∧
    sync_history (db w') !! syncId = Some (data ∪ h0) ∧
    dom data = list_to_set ["status"; "end_time"; "duration_ms"; "duration_minutes";
                            "drives_count"; "folders_count"; "managers_count";
                            "errors"; "completed_at"] ∧
    data !! "status" = Some (VStr "failed") ∧
    data !! "errors" = Some (VList (errors (stats out))) ∧
    sync_status (db w') !! "current" = Some s ∧
    s !! "status" = Some (VStr "failed") ∧
    s !! "current_sync_id" = Some VNull ∧
    (∃ t, s !! "last_sync" = Some (VDate t)).
Proof.
  intros Hfs Hid Hh0.
  set (S1 := set_errors (errors (set_end_time (clock (ticks w)) (syncStats w))
                         ++ ["Error crítico: " +:+ message])
               (set_end_time (clock (ticks w)) (syncStats w))).
  set (w1 := set_syncStats S1
               (set_syncStats (set_end_time (clock (ticks w)) (syncStats w))
                  (set_ticks (S (ticks w)) w))).
  destruct (completeSyncRecord_spec clock syncId S1 "failed" w1)
    as (w2 & Hrun2 & Hb2).
  destruct (completeSyncRecord_merged clock syncId S1 "failed" h0 w1 Hfs Hh0)
    as (w2' & data & Hrun2' & Hs2 & Hoth2 & Hh2 & Hdom & Hdst & _ & _ & _ & Hde).
  rewrite Hrun2 in Hrun2'. injection Hrun2' as <-.
  pose proof (bookkeeping_data_same _ _ Hb2) as Hd2.
  destruct Hb2 as (_ & _ & _ & _ & _ & Hfr2).
  pose proof Hfr2 as (Hfs2 & _ & _ & Hrun12 & _ & Hst2).
  change (fs_initialized w1) with (fs_initialized w) in Hfs2. rewrite Hfs in Hfs2.
  destruct (updateSyncStatus_spec clock "failed" None w2) as (w3 & Hrun3 & Hb3).
  destruct (updateSyncStatus_merged clock "failed" None w2 Hfs2)
    as (w3' & data3 & Hrun3' & Hhi3 & Hs3 & Hd3st & Hterm3 & _).
  rewrite Hrun3 in Hrun3'. injection Hrun3' as <-.
  destruct (Hterm3 (or_intror eq_refl)) as [Hc3 Hl3].
  pose proof (bookkeeping_data_same _ _ Hb3) as Hd3.
  destruct Hb3 as (_ & _ & _ & _ & _ & Hfr3).
  pose proof Hfr3 as (_ & _ & _ & Hrun23 & _ & Hst3).
  eexists (mkSyncOutcome false (Some syncId) S1 (Some message) "failed"), w3, data, _.
  split_and!.
  - unfold performSync_catch.
    rewrite (bind_Ok _ _ _ _ _ (stamp_end_eq clock _)).
    unfold push_error. rewrite (bind_Ok _ _ _ _ _ (update_stats_eq _ _)).
    rewrite (bind_Ok _ _ _ _ _ (this_currentSyncId_eq _)).
    erewrite bind_Ok; [|reflexivity].
    cbn [syncStats set_syncStats set_ticks currentSyncId]. rewrite Hid.
    cbn [default]. fold S1. fold w1.
    rewrite (bind_Ok _ _ _ _ _ Hrun2), (bind_Ok _ _ _ _ _ Hrun3). reflexivity.
  - done.
  - done.
  - done.
  - done.
  - done.
  - done.
  - eapply data_same_trans; [|exact Hd3]. eapply data_same_trans; [|exact Hd2].
    unfold data_same, w1. by split_and!.
  - by rewrite Hrun23, Hrun12.
  - intros i Hi. by rewrite Hhi3, Hoth2.
  - by rewrite Hhi3.
  - done.
  - done.
  - done.
  - exact Hs3.
  - rewrite lookup_union, Hd3st.
    by destruct (default ∅ (sync_status (db w2) !! "current") !! "status").
  - rewrite lookup_union, Hc3.
    by destruct (default ∅ (sync_status (db w2) !! "current") !! "current_sync_id").
  - eexists. rewrite lookup_union, Hl3.
    by destruct (default ∅ (sync_status (db w2) !! "current") !! "last_sync").
Qed.

Lemma completeSyncRecord_offline syncId stats status w :
  fs_initialized w = false →
  completeSyncRecord clock syncId stats status w = (Ok tt, w).
Proof.
  intros Hfs. unfold completeSyncRecord.
  destruct (ensureInitialized_throw w Hfs) as [e He].
  by rewrite (try_catch_Throw _ _ _ _ _ (bind_Throw _ _ _ _ _ He)).
Qed.

Lemma updateSyncStatus_offline status syncId w :
  fs_initialized w = false →
  updateSyncStatus clock status syncId w = (Ok tt, w).
Proof.
  intros Hfs. unfold updateSyncStatus.
  destruct (ensureInitialized_throw w Hfs) as [e He].
  by rewrite (try_catch_Throw _ _ _ _ _ (bind_Throw _ _ _ _ _ He)).
Qed.

(** The [catch] block on a store that is not initialised: both writes are
    swallowed. *)
Lemma performSync_catch_offline message syncId w :
  fs_initialized w = false →
  currentSyncId w = Some syncId →
  ∃ out w',
    performSync_catch clock message w = (Ok out, w') ∧
    success out = false ∧ status out = "failed" ∧ error out = Some message ∧
    sync_id out = Some syncId ∧
    errors (stats out) = errors (syncStats w) ++ ["Error crítico: " +:+ message] ∧
    drives_count (stats out) = drives_count (syncStats w) ∧
    db w' = db w ∧ commits w' = commits w ∧ isRunning w' = isRunning w.
Proof.
  intros Hfs Hid. unfold performSync_catch.
  rewrite (bind_Ok _ _ _ _ _ (stamp_end_eq clock _)).
  unfold push_error. rewrite (bind_Ok _ _ _ _ _ (update_stats_eq _ _)).
  rewrite (bind_Ok _ _ _ _ _ (this_currentSyncId_eq _)).
  erewrite bind_Ok; [|reflexivity].
  cbn [syncStats set_syncStats set_ticks currentSyncId]. rewrite Hid.
  match goal with |- context [bind (completeSyncRecord clock ?i ?s ?st) _ ?w0] =>
    rewrite (bind_Ok _ _ _ _ _ (completeSyncRecord_offline i s st w0 Hfs)) end.
  match goal with |- context [bind (updateSyncStatus clock ?st ?i) _ ?w0] =>
    rewrite (bind_Ok _ _ _ _ _ (updateSyncStatus_offline st i w0 Hfs)) end.
  eexists _, _. split; [reflexivity|]. by split_and!.
Qed.

Lemma performFullSync_throw fuel e w :
  gd_initialized w = true →
  drives_list P = Failure e →
  performFullSync P fuel w = (Throw e, w).
Proof.
  intros Hgd Hlist. unfold performFullSync, getAllSharedDrives.
  rewrite (bind_Ok _ _ _ _ _ (gd_ensureInitialized_ok _ Hgd)).
  unfold bind at 1. rewrite (bind_Ok _ _ _ _ _ (gd_ensureInitialized_ok _ Hgd)).
  unfold call. by rewrite Hlist.
Qed.

(** X11. A full sync that cannot start its work (the store or the Drive
    service is not initialised, the connectivity probe fails, or the drives
    cannot be listed) does not throw: it returns success = false with
    status failed and the message of the failure, counts no drive, leaves
    the three data collections and the batch log exactly as they were, and
    ends idle. On an initialised store the failure is recorded: the record
    of the run has status failed and the error list, and the status
    document has status failed, current_sync_id = null and a last_sync. *)
Theorem full_sync_aborted (fuel : nat) (message : string) (w : World) :
  isRunning w = false →
  abort_message P w = Some message →
  ∃ out w',
    performSync clock autoId uuid P fuel w = (Ok out, w') ∧
    success out = false ∧ status out = "failed" ∧ error out = Some message ∧
    sync_id out = Some (uuid (uuids w)) ∧
    errors (stats out) = ["Error crítico: " +:+ message] ∧
    drives_count (stats out) = 0 ∧
    shared_drives (db w') = shared_drives (db w) ∧
    folders (db w') = folders (db w) ∧
    drive_managers (db w') = drive_managers (db w) ∧
    commits w' = commits w ∧
    isRunning w' = false ∧ currentSyncId w' = None ∧
    (fs_initialized w = false → db w' = db w) ∧
    (fs_initialized w = true →
     (∀ i, i ≠ uuid (uuids w) →
           sync_history (db w') !! i = sync_history (db w) !! i) ∧
     ∃ h s,
       sync_history (db w') !! uuid (uuids w) = Some h ∧
       h !! "sync_id" = Some (VStr (uuid (uuids w))) ∧
       h !! "status" = Some (VStr "failed") ∧
       h !! "errors" = Some (VList ["Error crítico: " +:+ message]) ∧
       sync_status (db w') !! "current" = Some s ∧
       s !! "status" = Some (VStr "failed") ∧
       s !! "current_sync_id" = Some VNull ∧
       ∃ t, s !! "last_sync" = Some (VDate t)).
Proof.
  intros Hidle Habort.
  destruct (enter_run_started w Hidle)
    as (w1 & Henter & Hdb1 & Hc1 & _ & Hfs1 & Hgd1 & Hid1 & Hst1).
  set (syncId := uuid (uuids w)) in *.
  unfold performSync. rewrite (bind_Ok _ _ _ _ _ Henter). unfold finally.
  unfold abort_message in Habort.
  destruct (fs_initialized w) eqn:Hfs.
  - (* the store is there: the run is recorded, then the probe or the
       listing fails *)
    destruct (recordSyncStart_spec clock syncId w1 Hfs1) as (w2 & Hrun2 & Hb2 & _).
    destruct (recordSyncStart_done clock syncId w1 Hfs1)
      as (w2' & h0 & Hrun2' & Hst2 & Hoth2 & Hh2 & Hsid & _).
    rewrite Hrun2 in Hrun2'. injection Hrun2' as <-.
    pose proof (bookkeeping_data_same _ _ Hb2) as Hd2.
    destruct Hb2 as (_ & _ & _ & _ & _ & Hfr2).
    pose proof Hfr2 as (Hfs2 & Hgd2 & _ & Hrn2 & Hid2 & Hstat2).
    rewrite Hfs1 in Hfs2. rewrite Hgd1 in Hgd2. rewrite Hid1 in Hid2.
    destruct (updateSyncStatus_spec clock "running" (Some syncId) w2)
      as (w3 & Hrun3 & Hb3).
    destruct (updateSyncStatus_merged clock "running" (Some syncId) w2 Hfs2)
      as (w3' & data3 & Hrun3' & Hhi3 & _).
    rewrite Hrun3 in Hrun3'. injection Hrun3' as <-.
    pose proof (bookkeeping_data_same _ _ Hb3) as Hd3.
    destruct Hb3 as (_ & _ & _ & _ & _ & Hfr3).
    pose proof Hfr3 as (Hfs3 & Hgd3 & _ & Hrn3 & Hid3 & Hstat3).
    rewrite Hfs2 in Hfs3. rewrite Hgd2 in Hgd3. rewrite Hid2 in Hid3.
    assert (Htry : performSync_try clock autoId P fuel w1 = (Throw message, w3)).
    { unfold performSync_try.
      rewrite (bind_Ok _ _ _ _ _ (this_currentSyncId_eq w1)). rewrite Hid1.
      simpl default. fold syncId.
      rewrite (bind_Ok _ _ _ _ _ Hrun2), (bind_Ok _ _ _ _ _ Hrun3).
      rewrite (bind_Ok _ _ _ _ _ (testConnection_eq P w3)). rewrite Hgd3.
      destruct (gd_initialized w) eqn:Hgd.
      - destruct (about_get P) as [user|e]; cbn [negb ct_success ct_error default].
        + destruct (drives_list P) as [drives|e] eqn:Hlist; [done|].
          injection Habort as <-.
          by rewrite (bind_Throw _ _ _ _ _ (performFullSync_throw fuel e w3 Hgd3 Hlist)).
        + by injection Habort as <-.
      - cbn [negb ct_success ct_error default]. by injection Habort as <-. }
    rewrite (try_catch_Throw _ _ _ _ _ Htry).
    destruct (performSync_catch_records message syncId h0 w3 Hfs3 Hid3)
      as (out & w4 & data & s & Hcatch & Hsucc & Hstatus & Herr & Hsid4 & Herrs
          & Hcount & Hd4 & Hrn4 & Hoth4 & Hh4 & Hdom & Hdst & Hde & Hs4 & Hsst
          & Hscur & Hslast).
    { by rewrite Hhi3. }
    rewrite Hcatch.
    assert (Hd14 : data_same w1 w4).
    { eapply data_same_trans; [exact Hd2|]. eapply data_same_trans; [exact Hd3|].
      exact Hd4. }
    destruct Hd14 as (Hsd & Hfo & Hdm & Hc & _).
    rewrite Hstat3, Hstat2, Hst1 in Herrs, Hcount. cbn in Herrs, Hcount.
    eexists out, (leave_run w4). split; [reflexivity|].
    cbn [leave_run db commits isRunning currentSyncId set_currentSyncId
         set_isRunning].
    rewrite Hsd, Hfo, Hdm, Hc, Hdb1, Hc1.
    split_and!; try done.
    intros _. split.
    + intros i Hi. rewrite Hoth4, Hhi3, Hoth2 by done. by rewrite Hdb1.
    + exists (data ∪ h0), s. split_and!; try done.
      * rewrite lookup_union.
        assert (Hnone : data !! "sync_id" = None).
        { apply not_elem_of_dom. rewrite Hdom. set_solver. }
        rewrite Hnone, Hsid. done.
      * rewrite lookup_union, Hdst. by destruct (h0 !! "status").
      * rewrite lookup_union, Hde, Herrs. by destruct (h0 !! "errors").
  - (* the store is not initialised: recordSyncStart throws *)
    injection Habort as <-.
    assert (Hfs1' : fs_initialized w1 = false) by congruence.
    assert (Htry : performSync_try clock autoId P fuel w1
                   = (Throw "Firestore Sync Service no está inicializado. Llama a initialize() primero.", w1)).
    { unfold performSync_try.
      rewrite (bind_Ok _ _ _ _ _ (this_currentSyncId_eq w1)).
      unfold recordSyncStart, ensureInitialized, bind, gets. by rewrite Hfs1'. }
    rewrite (try_catch_Throw _ _ _ _ _ Htry).
    destruct (performSync_catch_offline
                "Firestore Sync Service no está inicializado. Llama a initialize() primero."
                syncId w1 Hfs1' Hid1)
      as (out & w4 & Hcatch & Hsucc & Hstatus & Herr & Hsid4 & Herrs & Hcount
          & Hdb4 & Hc4 & Hrn4).
    rewrite Hcatch. rewrite Hst1 in Herrs, Hcount. cbn in Herrs, Hcount.
    eexists out, (leave_run w4). split; [reflexivity|].
    cbn [leave_run db commits isRunning currentSyncId set_currentSyncId
         set_isRunning].
    rewrite Hdb4, Hc4, Hdb1, Hc1. by split_and!.
Qed.



End WholeRunRecords.

Lemma full_sync_aborted_witness :
  isRunning (ex_world ex_db1) = false ∧
  abort_message ex_offline (ex_world ex_db1)
    = Some "Error de conectividad con Google Drive: invalid_grant" ∧
  ∃ out w' h,
    performSync ex_clock ex_autoId ex_uuid ex_offline 3 (ex_world ex_db1)
      = (Ok out, w') ∧
    success out = false ∧
    error out = Some "Error de conectividad con Google Drive: invalid_grant" ∧
    shared_drives (db w') = shared_drives ex_db1 ∧
    commits w' = [] ∧
    sync_history (db w') !! "run-0" = Some h ∧
    h !! "status" = Some (VStr "failed").
Proof.
  split; [reflexivity|]. split; [reflexivity|].
  destruct (full_sync_aborted ex_clock ex_autoId ex_uuid ex_offline 3
              "Error de conectividad con Google Drive: invalid_grant"
              (ex_world ex_db1) eq_refl eq_refl)
    as (out & w' & Hrun & Hsucc & _ & Herr & _ & _ & _ & Hsd & _ & _ & Hc & _ & _
        & _ & Hrec).
  destruct (Hrec eq_refl) as (_ & h & s & Hh & _ & Hst & _).
  exists out, w', h. by split_and!.
Defined.



(** * Incremental sync of requested drives *)

Section Incremental.

Variable clock : nat → Z.
Variable autoId : nat → string.
Variable uuid : nat → string.
Variable P : Provider.






End Incremental.



(** * Pruning the run history *)

#[local] Instance newer_first_total : Total FirestoreService.newer_first.
Proof.
  intros [t1 [i1 d1]] [t2 [i2 d2]]. unfold FirestoreService.newer_first. simpl.
  destruct (Z.lt_trichotomy t1 t2) as [Hlt|[Heq|Hgt]].
  - right. by left.
  - destruct (String.leb_total i1 i2) as [Hle|Hle].
    + right. right. by split.
    + left. right. by split.
  - left. by left.
Qed.

#[local] Instance not_older_trans : Transitive not_older.
Proof. unfold not_older. intros a b c. lia. Qed.

Lemma Sorted_weaken {A} (R1 R2 : relation A) l :
  (∀ x y, R1 x y → R2 x y) → Sorted R1 l → Sorted R2 l.
Proof.
  intros Himpl. induction 1 as [|x l Hs IH Hhd]; constructor; [done|].
  destruct Hhd; constructor. by apply Himpl.
Qed.

Lemma omap_cons_eq {A B} (f : A → option B) x l :
  omap f (x :: l) = match f x with Some y => y :: omap f l | None => omap f l end.
Proof. done. Qed.

Lemma dated_all history :
  (∀ i h, history !! i = Some h → is_Some (FirestoreService.sync_date_of h)) →
  (dated history).*2 = map_to_list history.
Proof.
  intros Hall. unfold dated.
  assert (Hl : Forall (λ kd, is_Some (FirestoreService.sync_date_of kd.2))
                 (map_to_list history)).
  { apply Forall_forall. intros [i h] Hin%elem_of_map_to_list. by apply (Hall i). }
  induction Hl as [|[i h] l [t Ht] Hl IH]; [done|].
  rewrite omap_cons_eq. cbn [snd] in *. rewrite Ht. cbn [fmap option_fmap option_map].
  rewrite fmap_cons. cbn [snd]. by rewrite IH.
Qed.

Lemma dated_date history t i h :
  (t, (i, h)) ∈ dated history →
  history !! i = Some h ∧ FirestoreService.sync_date_of h = Some t.
Proof.
  unfold dated. intros ([i' h'] & Hin & Hx)%list_elem_of_omap.
  simpl in Hx. destruct (FirestoreService.sync_date_of h') eqn:Hd; [|done].
  simpl in Hx. simplify_eq. split; [|done]. by apply elem_of_map_to_list.
Qed.

Lemma ranked_perm history : ranked history ≡ₚ dated history.
Proof. apply merge_sort_Permutation. Qed.

Lemma ranked_sorted history : StronglySorted not_older (ranked history).
Proof.
  apply Sorted_StronglySorted; [apply _|].
  eapply Sorted_weaken; [|apply (Sorted_merge_sort FirestoreService.newer_first)].
  intros a b [Hlt|[Heq _]]; unfold not_older; lia.
Qed.

Lemma history_query_eq keepLast history :
  FirestoreService.history_query keepLast history
  = (drop keepLast (ranked history)).*2.
Proof. done. Qed.

Lemma size_after_deletes c (D : list string) (d : DB) :
  NoDup D → (∀ i, i ∈ D → is_Some (coll c d !! i)) →
  size (coll c (apply_writes (WDelete c <$> D) d)) = size (coll c d) - length D.
Proof.
  revert d. induction D as [|i D IH]; intros d Hnd Hin.
  - simpl. lia.
  - apply NoDup_cons in Hnd as [Hi Hnd]. rewrite fmap_cons.
    change (apply_writes (?x :: ?l) d) with (apply_writes l (apply_write x d)).
    rewrite IH; [|done|].
    + cbn [apply_write]. rewrite coll_set_coll_eq.
      rewrite map_size_delete_Some by (apply Hin; set_solver). simpl. lia.
    + intros j Hj. cbn [apply_write]. rewrite coll_set_coll_eq.
      rewrite lookup_delete_ne; [apply Hin; set_solver|]. intros ->. done.
Qed.

Lemma ranked_entries history :
  (∀ i h, history !! i = Some h → is_Some (FirestoreService.sync_date_of h)) →
  (ranked history).*2 ≡ₚ map_to_list history.
Proof. intros Hall. by rewrite ranked_perm, dated_all. Qed.

Lemma ranked_elem history t i h :
  (t, (i, h)) ∈ ranked history →
  history !! i = Some h ∧ FirestoreService.sync_date_of h = Some t.
Proof. rewrite ranked_perm. apply dated_date. Qed.

Lemma ranked_split k history :
  ranked history = take k (ranked history) ++ drop k (ranked history).
Proof. by rewrite take_drop. Qed.

Lemma ranked_keys_NoDup history : NoDup (ranked history).*2.*1.
Proof.
  rewrite ranked_perm. unfold dated.
  pose proof (NoDup_fst_map_to_list history) as Hnd.
  induction (map_to_list history) as [|[i h] l IH]; [constructor|].
  rewrite fmap_cons in Hnd. apply NoDup_cons in Hnd as [Hi Hnd].
  rewrite omap_cons_eq. cbn [snd].
  destruct (FirestoreService.sync_date_of h); cbn [fmap option_fmap option_map];
    [|by apply IH].
  rewrite !fmap_cons. cbn [fst snd]. constructor; [|by apply IH].
  intros Hin. apply Hi.
  apply list_elem_of_fmap in Hin as ([i' h'] & -> & Hin).
  apply list_elem_of_fmap in Hin as ([t' kd] & -> & Hin).
  apply list_elem_of_omap in Hin as ([i'' h''] & Hin & Hx).
  cbn [snd] in Hx. destruct (FirestoreService.sync_date_of h''); [|done].
  simpl in Hx. simplify_eq. apply list_elem_of_fmap. by exists (i'', h'').
Qed.

(** What cleanupSyncHistory does on an initialised store. *)
Lemma cleanupSyncHistory_run keepLast w :
  fs_initialized w = true →
  let snapshot := FirestoreService.history_query keepLast (sync_history (db w)) in
  let batch := WDelete SYNC_HISTORY <$> snapshot.*1 in
  FirestoreService.cleanupSyncHistory keepLast w
  = (Ok (length snapshot),
     if bool_decide (snapshot = []) then w
     else set_commits (commits w ++ [batch]) (set_db (apply_writes batch (db w)) w)).
Proof.
  intros Hinit snapshot batch. unfold FirestoreService.cleanupSyncHistory.
  apply try_catch_Ok.
  rewrite (bind_Ok _ _ _ _ _ (ensureInitialized_ok _ Hinit)).
  erewrite bind_Ok; [|reflexivity]. fold snapshot.
  destruct (bool_decide (snapshot = [])) eqn:Hempty.
  - apply bool_decide_eq_true in Hempty. by rewrite Hempty.
  - unfold bind, commit, modify, ret. unfold batch.
    by rewrite <- list_fmap_compose.
Qed.

(** X15. cleanupSyncHistory(keepLast) on run records that all carry a run
    date: it returns the number of records beyond keepLast, removes that
    many and leaves min(keepLast, n) records; every record it leaves is
    unchanged and is at least as recent as every record it removes; all
    the deletes are committed as one batch, and nothing is written when
    there are no more than keepLast records. No other collection is
    touched. *)
Theorem cleanupSyncHistory_prunes (keepLast : nat) (w : World) :
  fs_initialized w = true →
  (∀ i h, sync_history (db w) !! i = Some h →
          is_Some (FirestoreService.sync_date_of h)) →
  ∃ w',
    FirestoreService.cleanupSyncHistory keepLast w
      = (Ok (size (sync_history (db w)) - keepLast), w') ∧
    size (sync_history (db w')) = min keepLast (size (sync_history (db w))) ∧
    (∀ i h, sync_history (db w') !! i = Some h →
            sync_history (db w) !! i = Some h) ∧
    (∀ i h j g t u,
       sync_history (db w') !! i = Some h →
       sync_history (db w) !! j = Some g → sync_history (db w') !! j = None →
       FirestoreService.sync_date_of h = Some t →
       FirestoreService.sync_date_of g = Some u →
       (u ≤ t)%Z) ∧
    (∀ c, c ≠ SYNC_HISTORY → coll c (db w') = coll c (db w)) ∧
    (size (sync_history (db w)) ≤ keepLast → w' = w) ∧
    (keepLast < size (sync_history (db w)) →
     ∃ batch, commits w' = commits w ++ [batch] ∧
              length batch = size (sync_history (db w)) - keepLast ∧
              Forall (λ x, is_delete x = true ∧ write_coll x = SYNC_HISTORY) batch).
Proof.
  intros Hinit Hall.
  set (history := sync_history (db w)) in *.
  set (R := ranked history).
  set (D := (drop keepLast R).*2.*1).
  pose proof (ranked_entries history Hall) as Hperm. fold R in Hperm.
  assert (HlenR : length R = size history).
  { rewrite <- (length_fmap snd), Hperm. apply length_map_to_list. }
  assert (HlenD : length D = size history - keepLast).
  { unfold D. by rewrite !length_fmap, length_drop, HlenR. }
  assert (HndD : NoDup D).
  { unfold D. eapply sublist_NoDup; [apply (ranked_keys_NoDup history)|].
    do 2 apply fmap_sublist. apply sublist_drop. }
  assert (HD : ∀ j, j ∈ D ↔ ∃ t g, (t, (j, g)) ∈ drop keepLast R).
  { intros j. unfold D. split.
    - intros (kd & -> & ([t kd'] & -> & Hin)%list_elem_of_fmap)%list_elem_of_fmap.
      destruct kd' as [j' g']. cbn [fst snd]. eauto.
    - intros (t & g & Hin). apply list_elem_of_fmap. exists (j, g). split; [done|].
      apply list_elem_of_fmap. by exists (t, (j, g)). }
  assert (Hdrop : ∀ x, x ∈ drop keepLast R → x ∈ R).
  { intros x Hx. rewrite <- (take_drop keepLast R). set_solver. }
  assert (HinD : ∀ j, j ∈ D → is_Some (history !! j)).
  { intros j (t & g & Hin)%HD. apply Hdrop in Hin.
    apply ranked_elem in Hin as [Hj _]. by eexists. }
  pose proof (cleanupSyncHistory_run keepLast w Hinit) as Hrun.
  cbv zeta in Hrun. rewrite history_query_eq in Hrun. fold history R D in Hrun.
  rewrite length_fmap, length_drop, HlenR in Hrun.
  eexists. split; [exact Hrun|].
  destruct (bool_decide ((drop keepLast R).*2 = [])) eqn:Hempty.
  - (* nothing to remove *)
    apply bool_decide_eq_true in Hempty.
    assert (Hle : size history ≤ keepLast).
    { apply (f_equal length) in Hempty.
      rewrite length_fmap, length_drop, HlenR in Hempty. simpl in Hempty. lia. }
    assert (HDnil : D = []) by (unfold D; by rewrite Hempty).
    split_and!.
    + fold history. lia.
    + done.
    + intros i h j g t u Hi Hj Hnone. fold history in Hnone. congruence.
    + done.
    + done.
    + fold history. lia.
  - apply bool_decide_eq_false in Hempty.
    assert (Hlt : keepLast < size history).
    { destruct (decide (keepLast < size history)) as [|Hge]; [done|].
      exfalso. apply Hempty. rewrite drop_ge; [done|]. lia. }
    assert (Hlook : ∀ i, sync_history
                        (db (set_commits (commits w ++ [WDelete SYNC_HISTORY <$> D])
                               (set_db (apply_writes (WDelete SYNC_HISTORY <$> D) (db w))
                                  w))) !! i
                      = if decide (i ∈ D) then None else history !! i).
    { intros i. cbn [db set_commits set_db].
      change (sync_history ?y) with (coll SYNC_HISTORY y).
      apply apply_writes_deletes_lookup. }
    split_and!.
    + cbn [db set_commits set_db].
      change (sync_history ?y) with (coll SYNC_HISTORY y).
      rewrite size_after_deletes; [|done|exact HinD].
      change (coll SYNC_HISTORY (db w)) with history. rewrite HlenD. lia.
    + intros i h. rewrite Hlook. by case_decide.
    + intros i h j g t u Hi Hj Hnone Ht Hu.
      rewrite Hlook in Hi, Hnone.
      destruct (decide (i ∈ D)) as [|HiD]; [done|].
      destruct (decide (j ∈ D)) as [HjD|]; [|fold history in Hj; congruence].
      apply HD in HjD as (u' & g' & Hdel).
      pose proof (ranked_elem _ _ _ _ (Hdrop _ Hdel)) as [Hg' Hu'].
      fold history in Hj. assert (g' = g) as -> by congruence.
      assert (u' = u) as -> by congruence.
      assert (Hkept : (t, (i, h)) ∈ take keepLast R).
      { assert (HinR : (t, (i, h)) ∈ R).
        { unfold R. rewrite ranked_perm. unfold dated.
          apply list_elem_of_omap. exists (i, h). split.
          - by apply elem_of_map_to_list.
          - cbn [snd]. by rewrite Ht. }
        rewrite <- (take_drop keepLast R) in HinR.
        apply elem_of_app in HinR as [|Hbad]; [done|].
        exfalso. apply HiD, HD. eauto. }
      pose proof (ranked_sorted history) as Hsorted. fold R in Hsorted.
      rewrite <- (take_drop keepLast R) in Hsorted.
      apply (StronglySorted_app_1_elem_of _ _ _ _ _ Hsorted Hkept Hdel).
    + intros c Hc. cbn [db set_commits set_db].
      apply apply_writes_other. apply Forall_fmap, Forall_forall.
      intros; simpl; congruence.
    + fold history. lia.
    + intros _. eexists. split; [reflexivity|]. split.
      * by rewrite length_fmap.
      * apply Forall_fmap, Forall_forall. by intros.
Qed.

Lemma history_query_keys keepLast history :
  let snapshot := FirestoreService.history_query keepLast history in
  NoDup snapshot.*1 ∧
  (∀ j, j ∈ snapshot.*1 → is_Some (history !! j)) ∧
  length snapshot ≤ size history - keepLast.
Proof.
  intros snapshot. unfold snapshot. rewrite history_query_eq. split_and!.
  - eapply sublist_NoDup; [apply (ranked_keys_NoDup history)|].
    do 2 apply fmap_sublist. apply sublist_drop.
  - intros j (kd & -> & ([t [j' g]] & -> & Hin)%list_elem_of_fmap)%list_elem_of_fmap.
    cbn [fst snd].
    assert (HinR : (t, (j', g)) ∈ ranked history).
    { rewrite <- (take_drop keepLast (ranked history)). set_solver. }
    apply ranked_elem in HinR as [Hj _]. by eexists.
  - rewrite length_fmap, length_drop.
    assert (Hle : length (ranked history) ≤ size history); [|lia].
    rewrite ranked_perm. unfold dated. rewrite <- length_map_to_list.
    induction (map_to_list history) as [|x l IH]; [done|].
    rewrite omap_cons_eq. destruct (_ <$> _); simpl; lia.
Qed.

(** X16. performMaintenance never throws and never reports a failure:
    in every state it returns success with the number of records that
    cleanupSyncHistory(50) removed. On a store that is not initialised that
    number is 0 and nothing changes: the failure is swallowed inside
    cleanupSyncHistory. It removes exactly as many run records as it
    reports and touches no other collection. *)
Theorem performMaintenance_never_fails (w : World) :
  ∃ n w',
    SyncService.performMaintenance w = (Ok (Maintained n), w') ∧
    n = (if fs_initialized w
         then length (FirestoreService.history_query 50 (sync_history (db w)))
         else 0) ∧
    n ≤ size (sync_history (db w)) - 50 ∧
    (n = 0 → w' = w) ∧
    size (sync_history (db w')) = size (sync_history (db w)) - n ∧
    (∀ c, c ≠ SYNC_HISTORY → coll c (db w') = coll c (db w)).
Proof.
  unfold SyncService.performMaintenance.
  destruct (fs_initialized w) eqn:Hinit.
  - pose proof (cleanupSyncHistory_run 50 w Hinit) as Hrun. cbv zeta in Hrun.
    destruct (history_query_keys 50 (sync_history (db w))) as (Hnd & Hin & Hle).
    set (snapshot := FirestoreService.history_query 50 (sync_history (db w))) in *.
    eexists _, _. split.
    { apply try_catch_Ok. rewrite (bind_Ok _ _ _ _ _ Hrun). reflexivity. }
    destruct (bool_decide (snapshot = [])) eqn:Hempty.
    + apply bool_decide_eq_true in Hempty. rewrite Hempty. simpl.
      split_and!; try done; lia.
    + apply bool_decide_eq_false in Hempty. split_and!.
      * done.
      * done.
      * intros Hnil. by apply nil_length_inv in Hnil.
      * cbn [db set_commits set_db].
        change (sync_history ?y) with (coll SYNC_HISTORY y).
        rewrite size_after_deletes; [|done|exact Hin]. by rewrite length_fmap.
      * intros c Hc. cbn [db set_commits set_db].
        apply apply_writes_other. apply Forall_fmap, Forall_forall.
        intros; simpl; congruence.
  - assert (Hrun : FirestoreService.cleanupSyncHistory 50 w = (Ok 0, w)).
    { unfold FirestoreService.cleanupSyncHistory.
      destruct (ensureInitialized_throw w Hinit) as [e He].
      by rewrite (try_catch_Throw _ _ _ _ _ (bind_Throw _ _ _ _ _ He)). }
    eexists _, _. split.
    { apply try_catch_Ok. rewrite (bind_Ok _ _ _ _ _ Hrun). reflexivity. }
    split_and!; try done; lia.
Qed.

Lemma ex_history_dated i h :
  sync_history (db (ex_world ex_history_db)) !! i = Some h →
  is_Some (FirestoreService.sync_date_of h).
Proof.
  intros Hl. cbn [ex_world ex_history_db db sync_history] in Hl.
  repeat (apply lookup_insert_Some in Hl as [[_ <-]|[_ Hl]];
          [eexists; vm_compute; reflexivity|]).
  by rewrite lookup_empty in Hl.
Qed.

Lemma cleanupSyncHistory_prunes_witness :
  fs_initialized (ex_world ex_history_db) = true ∧
  (∀ i h, sync_history (db (ex_world ex_history_db)) !! i = Some h →
          is_Some (FirestoreService.sync_date_of h)) ∧
  ∃ w',
    FirestoreService.cleanupSyncHistory 2 (ex_world ex_history_db) = (Ok 1, w') ∧
    sync_history (db w') !! "r1" = None ∧
    is_Some (sync_history (db w') !! "r2") ∧
    is_Some (sync_history (db w') !! "r3").
Proof.
  split; [reflexivity|]. split; [exact ex_history_dated|].
  destruct (cleanupSyncHistory_prunes 2 (ex_world ex_history_db) eq_refl
              ex_history_dated) as (w' & Hrun & _).
  assert (Hsize : size (sync_history (db (ex_world ex_history_db))) - 2 = 1)
    by (by vm_compute).
  rewrite Hsize in Hrun.
  exists w'. split; [exact Hrun|].
  assert (Hw : w' = (FirestoreService.cleanupSyncHistory 2 (ex_world ex_history_db)).2)
    by (by rewrite Hrun).
  rewrite Hw. split_and!.
  - by vm_compute.
  - vm_compute. by eexists.
  - vm_compute. by eexists.
Defined.

(** * Paths in a forest of folders *)

Lemma build_folderMap_ids fs :
  NoDup (Folder.id <$> fs) → (build_folderMap fs).*1 = Folder.id <$> fs.
Proof.
  induction fs as [|f fs IH] using rev_ind; [done|].
  rewrite fmap_app. intros (Hnd & Hdisj & _)%NoDup_app.
  rewrite build_folderMap_snoc, fm_set_keys, IH by done.
  rewrite decide_False; [done|]. intros Hin. apply (Hdisj _ Hin). set_solver.
Qed.

Section Forest.

Variable folders : list Folder.t.
Variable driveId : string.
Variable rank : Folder.t → nat.

Hypothesis ids_distinct : NoDup (Folder.id <$> folders).
Hypothesis parents_first :
  ∀ f g, f ∈ folders → g ∈ folders →
         first_parent f = Some (Folder.id g) → Folder.id g ≠ driveId →
         rank g < rank f.

Local Abbreviation path_of := (path_of folders driveId).
Local Abbreviation paths_ok := (paths_ok folders driveId).

Lemma same_id X Y : X ∈ folders → Y ∈ folders → Folder.id X = Folder.id Y → X = Y.
Proof. intros HX HY Heq. by eapply (NoDup_fmap_elem Folder.id folders). Qed.

Lemma paths_ok_update m X p :
  X ∈ folders → paths_ok m → path_of X p →
  fm_get m (Folder.id X) = Some (Folder.with_full_path None X) →
  paths_ok (fm_set_full_path (Folder.id X) p m).
Proof.
  intros HX [Hkeys Hent] Hp Hget. split.
  - intros k. rewrite fm_get_set_full_path. case_decide as Hd.
    + subst k. intros _. apply list_elem_of_fmap. by exists X.
    + apply Hkeys.
  - intros Y HY. rewrite fm_get_set_full_path. case_decide as Hd.
    + assert (X = Y) as <- by (by apply same_id).
      rewrite Hget. exists (Some p). split; [done|]. by intros ? [= <-].
    + by apply Hent.
Qed.

Lemma calculatePath_forest fuel k visited m p m' :
  paths_ok m →
  (∀ X Y, X ∈ folders → Folder.id X = k → Y ∈ folders →
          Folder.id Y ∈ visited → rank X < rank Y) →
  calculatePath fuel driveId k visited m = Some (p, m') →
  (∀ X, X ∈ folders → Folder.id X = k → path_of X p) ∧
  (k ∉ Folder.id <$> folders → p = "/") ∧
  paths_ok m'.
Proof.
  revert k visited m p m'.
  induction fuel as [|fuel IH]; intros k visited m p m' Hok Hvisited; [done|].
  pose proof Hok as [Hkeys Hent].
  simpl. case_bool_decide as Hvis.
  { intros [= <- <-]. split_and!; [|done|done].
    intros X HX Hid. pose proof (Hvisited X X HX Hid HX) as Hlt.
    rewrite Hid in Hlt. specialize (Hlt Hvis). lia. }
  destruct (fm_get m k) as [folder|] eqn:Hget.
  2:{ intros [= <- <-]. split_and!; [|done|done].
      intros X HX Hid. destruct (Hent X HX) as (o & Hx & _).
      rewrite Hid in Hx. congruence. }
  assert (Hk : k ∈ Folder.id <$> folders) by (apply Hkeys; eauto).
  apply list_elem_of_fmap in Hk as (X & -> & HX).
  destruct (Hent X HX) as (o & Hx & Ho). rewrite Hget in Hx. injection Hx as ->.
  assert (Honly : ∀ Y, Y ∈ folders → Folder.id Y = Folder.id X → Y = X)
    by (intros Y HY Hid; by apply same_id).
  cbn [Folder.full_path Folder.with_full_path]. destruct o as [q|].
  { intros [= <- <-]. split_and!; [|set_solver|done].
    intros Y HY Hid. rewrite (Honly Y HY Hid). by apply Ho. }
  rewrite first_parent_with_full_path.
  cbn [Folder.name Folder.with_full_path].
  destruct (first_parent X) as [parentId|] eqn:Hparent.
  2:{ intros [= <- <-].
      assert (Hp : path_of X ("/" +:+ Folder.name X)) by (apply path_top; auto).
      split_and!; [|set_solver|by apply paths_ok_update].
      intros Y HY Hid. by rewrite (Honly Y HY Hid). }
  destruct (String.eqb_spec parentId driveId) as [->|Hne].
  { intros [= <- <-].
    assert (Hp : path_of X ("/" +:+ Folder.name X)) by (apply path_top; auto).
    split_and!; [|set_solver|by apply paths_ok_update].
    intros Y HY Hid. by rewrite (Honly Y HY Hid). }
  destruct (calculatePath fuel driveId parentId ({[Folder.id X]} ∪ visited) m)
    as [[pp m1]|] eqn:Hrec; [|done].
  intros [= <- <-].
  destruct (IH parentId ({[Folder.id X]} ∪ visited) m pp m1 Hok)
    as (Hpp & Hslash & Hok1); [|exact Hrec|].
  { intros G Y HG Hid HY [Hin|Hin]%elem_of_union.
    - apply elem_of_singleton in Hin. rewrite (Honly Y HY Hin).
      apply parents_first; [done|done|by rewrite Hid|by rewrite Hid].
    - assert (rank G < rank X).
      { apply parents_first; [done|done|by rewrite Hid|by rewrite Hid]. }
      pose proof (Hvisited X Y HX eq_refl HY Hin). lia. }
  assert (Hp : path_of X (pp +:+ "/" +:+ Folder.name X)).
  { destruct (decide (parentId ∈ Folder.id <$> folders)) as [Hin|Hnin].
    - apply list_elem_of_fmap in Hin as (G & -> & HG).
      apply (path_child _ _ X G); auto.
    - rewrite (Hslash Hnin). by apply (path_orphan _ _ X parentId). }
  split_and!; [|set_solver|].
  - intros Y HY Hid. by rewrite (Honly Y HY Hid).
  - apply paths_ok_update; [done|done|done|].
    erewrite calculatePath_visited; [exact Hget|exact Hrec|set_solver].
Qed.

Lemma calculate_all_forest fuel l m m' :
  paths_ok m → calculate_all fuel driveId l m = Some m' → paths_ok m'.
Proof.
  revert m. induction l as [|f l IH]; intros m Hok; simpl.
  - by intros [= <-].
  - destruct (calculatePath fuel driveId (Folder.id f) ∅ m) as [[p m1]|] eqn:Hcalc;
      [|done].
    apply IH. eapply calculatePath_forest; [exact Hok| |exact Hcalc]. set_solver.
Qed.

Lemma build_folderMap_ok : paths_ok (build_folderMap folders).
Proof.
  split.
  - intros k Hk. apply fm_get_is_Some in Hk. by apply build_folderMap_keys.
  - intros X HX. exists None. split; [|done]. by apply build_folderMap_get.
Qed.

(** X17. calculateFolderPaths on a forest: when the folder ids are
    distinct and the parent links among the listed folders have no cycle,
    the result lists the folders in the order of the input, each with the
    path given by the rules: /name directly under the drive (or with no
    parent), the parent's path followed by /name under a listed folder, and
    //name when the parent is not in the list. *)
Theorem calculateFolderPaths_forest (fuel : nat) :
  length folders < fuel →
  ∃ r, calculateFolderPaths fuel folders driveId = Some r ∧
       Forall2 (λ f f', ∃ p, path_of f p ∧ f' = Folder.with_full_path (Some p) f)
               folders r.
Proof.
  intros Hfuel.
  destruct (calculateFolderPaths_total fuel folders driveId Hfuel)
    as (r & Hr & _ & _ & Hset).
  exists r. split; [exact Hr|].
  unfold calculateFolderPaths in Hr.
  destruct (calculate_all fuel driveId folders (build_folderMap folders))
    as [m|] eqn:Hall; [|done].
  injection Hr as <-.
  pose proof (calculate_all_forest _ _ _ _ build_folderMap_ok Hall) as [_ Hent].
  destruct (calculate_all_spec _ _ _ _ _ Hall) as (Hwf & _ & _).
  specialize (Hwf (build_folderMap_wf folders)).
  assert (Hkeys : m.*1 = Folder.id <$> folders).
  { destruct (calculate_all_total fuel driveId folders (build_folderMap folders))
      as (m2 & Hm2 & Hk2).
    - destruct (build_folderMap_keys folders) as (_ & Hlen & _). lia.
    - by destruct (build_folderMap_keys folders).
    - rewrite Hall in Hm2. injection Hm2 as <-.
      by rewrite Hk2, build_folderMap_ids. }
  assert (Hids : Folder.id <$> m.*2 = Folder.id <$> folders)
    by (by rewrite fm_wf_ids).
  apply Forall2_same_length_lookup. split.
  - apply (f_equal length) in Hids. rewrite !length_fmap in Hids.
    by rewrite length_fmap.
  - intros i f f' Hf Hf'.
    assert (HX : f ∈ folders) by (by eapply list_elem_of_lookup_2).
    destruct (Hent f HX) as (o & Hget & Ho).
    assert (Hsome : is_Some (Folder.full_path f')).
    { rewrite Forall_forall in Hset. apply Hset. by eapply list_elem_of_lookup_2. }
    assert (Hid : Folder.id f' = Folder.id f).
    { assert (H1 : (Folder.id <$> m.*2) !! i = Some (Folder.id f'))
        by (by rewrite list_lookup_fmap, Hf').
      rewrite Hids, list_lookup_fmap, Hf in H1. by injection H1 as ->. }
    assert (Hgot : fm_get m (Folder.id f) = Some f').
    { apply fm_get_elem; [by rewrite Hkeys|].
      apply list_elem_of_lookup. 
      assert (Hfst : m.*1 !! i = Some (Folder.id f))
        by (by rewrite Hkeys, list_lookup_fmap, Hf).
      rewrite list_lookup_fmap in Hfst. rewrite list_lookup_fmap in Hf'.
      destruct (m !! i) as [[k v]|] eqn:Hm; [|done].
      simpl in Hfst, Hf'. simplify_eq. by exists i. }
    rewrite Hget in Hgot. injection Hgot as <-.
    destruct o as [p|]; [|by destruct Hsome].
    exists p. split; [by apply Ho|done].
Qed.

End Forest.

Lemma ex_forest_ids : NoDup (Folder.id <$> ex_forest).
Proof. apply (bool_decide_unpack _). vm_compute. exact I. Qed.

Lemma ex_forest_parents f g :
  f ∈ ex_forest → g ∈ ex_forest →
  first_parent f = Some (Folder.id g) → Folder.id g ≠ "drive-1" →
  ex_depth g < ex_depth f.
Proof.
  unfold ex_forest. intros Hf Hg Hp _.
  repeat (apply elem_of_cons in Hf as [->|Hf]); [..|by apply elem_of_nil in Hf];
    (repeat (apply elem_of_cons in Hg as [->|Hg]); [..|by apply elem_of_nil in Hg]);
    vm_compute in Hp; try discriminate Hp; vm_compute; lia.
Qed.

Lemma calculateFolderPaths_forest_witness :
  length ex_forest < 5 ∧
  ∃ r, calculateFolderPaths 5 ex_forest "drive-1" = Some r ∧
       Folder.full_path <$> r
       = [Some "/A/B/C"; Some "//O"; Some "/A/B"; Some "/A"].
Proof.
  split; [vm_compute; lia|].
  destruct (calculateFolderPaths_forest ex_forest "drive-1" ex_depth ex_forest_ids
              ex_forest_parents 5 ltac:(vm_compute; lia)) as (r & Hr & _).
  exists r. split; [exact Hr|].
  assert (Hr' : Some r = calculateFolderPaths 5 ex_forest "drive-1") by done.
  vm_compute in Hr'. by injection Hr' as ->.
Defined.

(** * Fields that a sync does not write *)




Section ForeignFields.

Variable clock : nat → Z.
Variable autoId : nat → string.




End ForeignFields.



(** * Failing listings of subfolders *)

Section SilentFailures.

Variable clock : nat → Z.
Variable autoId : nat → string.
Variable uuid : nat → string.
Variable P : Provider.



End SilentFailures.



(** * The managers that reach the mirror *)

Section MirroredManagers.

Variable clock : nat → Z.
Variable autoId : nat → string.
Variable P : Provider.

Lemma manager_writes_entries driveId driveName managers (d : DB) n t :
  NoDup (autoId <$> seq n (length managers)) →
  Forall (λ k, drive_managers d !! k = None) (autoId <$> seq n (length managers)) →
  existingManagers driveId
    (drive_managers
       (apply_writes
          (manager_writes clock autoId driveId driveName (drive_managers d) n t
             managers) d))
  ≡ₚ manager_entries clock autoId driveId driveName n t managers.
Proof.
  intros Hnd Hfresh. unfold manager_writes, manager_sets.
  rewrite apply_writes_app.
  set (es := manager_entries clock autoId driveId driveName n t managers).
  assert (Hkeys : es.*1 = autoId <$> seq n (length managers))
    by apply manager_entries_keys.
  rewrite apply_writes_sets_fresh.
  - by rewrite existingManagers_after_deletes, app_nil_r.
  - by rewrite Hkeys.
  - rewrite Hkeys. eapply Forall_impl; [exact Hfresh|].
    intros k Hk. simpl in Hk.
    change (drive_managers ?y) with (coll DRIVE_MANAGERS y).
    rewrite apply_writes_deletes_lookup. by case_decide.
  - apply manager_entries_synced.
Qed.

Lemma manager_entries_origin driveId driveName n t managers kd :
  kd ∈ manager_entries clock autoId driveId driveName n t managers →
  ∃ m now, m ∈ managers ∧ kd.2 = managerData driveId driveName m now.
Proof.
  revert n t. induction managers as [|m managers IH]; intros n t Hin.
  - by apply elem_of_nil in Hin.
  - cbn [manager_entries] in Hin. apply elem_of_cons in Hin as [->|Hin].
    + exists m, (clock t). split; [left|done].
    + destruct (IH _ _ Hin) as (m' & now & Hm' & Hkd).
      exists m', now. split; [by right|done].
Qed.

(** X21. Fetching the managers of a drive and storing them: of the
    permissions that the provider lists for the drive, exactly those with
    role organizer or fileOrganizer reach the mirror. After
    getManagersFromDrive and syncManagersForDrive the backend-synced manager
    records of the drive are, by email, role and permission id, the listed
    permissions with one of the two roles, and every such record has one of
    the two roles. The automatic ids of the new documents are distinct and
    unused. *)
Theorem only_organizers_are_mirrored (driveId driveName : string)
    (permissions : list Manager.t) (w : World) :
  gd_initialized w = true → fs_initialized w = true →
  permissions_list P driveId = Response permissions →
  NoDup (autoId <$> seq (ids w) (length permissions)) →
  Forall (λ k, drive_managers (db w) !! k = None)
         (autoId <$> seq (ids w) (length permissions)) →
  ∃ managers w',
    getManagersFromDrive P driveId driveName w = (Ok managers, w) ∧
    managers = filter (λ p, is_manager_role p = true) permissions ∧
    syncManagersForDrive clock autoId driveId driveName managers w
      = (Ok (length managers), w') ∧
    (λ kd, stored_key kd.2) <$> existingManagers driveId (drive_managers (db w'))
      ≡ₚ supplied_key <$> managers ∧
    (∀ k doc, (k, doc) ∈ existingManagers driveId (drive_managers (db w')) →
              doc !! "role" = Some (VStr "organizer") ∨
              doc !! "role" = Some (VStr "fileOrganizer")).
Proof.
  intros Hgd Hfs Hlist Hnd Hfresh.
  set (managers := filter (λ p, is_manager_role p = true) permissions).
  assert (Hget : getManagersFromDrive P driveId driveName w = (Ok managers, w)).
  { rewrite getManagersFromDrive_pure by done. unfold fetch_managers.
    by rewrite Hlist. }
  assert (Hlen : length managers ≤ length permissions) by apply length_filter.
  rewrite (seq_prefix _ _ _ Hlen), fmap_app in Hnd, Hfresh.
  apply NoDup_app in Hnd as (Hnd & _ & _).
  apply Forall_app in Hfresh as [Hfresh _].
  destruct (syncManagersForDrive_spec clock autoId driveId driveName managers w Hfs)
    as (w' & Hrun & _ & Hdb & _).
  pose proof (manager_writes_entries driveId driveName managers (db w) (ids w)
                (ticks w) Hnd Hfresh) as Hentries.
  rewrite <- Hdb in Hentries.
  exists managers, w'. split_and!; [done|done|done| |].
  - rewrite Hentries. by rewrite manager_entries_stored_keys.
  - intros k doc Hin. rewrite Hentries in Hin.
    apply manager_entries_origin in Hin as (m & now & Hm & Hdoc).
    cbn [snd] in Hdoc. subst doc.
    apply list_elem_of_filter in Hm as [Hrole _].
    unfold is_manager_role in Hrole. apply orb_prop in Hrole as [Hr|Hr];
      apply bool_decide_eq_true in Hr; [left|right];
      unfold managerData; rewrite !lookup_insert_ne by done;
      by rewrite lookup_insert_eq, Hr.
Qed.

End MirroredManagers.

Lemma only_organizers_are_mirrored_witness :
  gd_initialized (ex_world ex_db1) = true ∧
  fs_initialized (ex_world ex_db1) = true ∧
  permissions_list (ex_remote false) "D1"
    = Response [ex_permission "p1" "ana@example.org" "organizer";
                ex_permission "p2" "eva@example.org" "reader"] ∧
  ∃ managers w',
    getManagersFromDrive (ex_remote false) "D1" "one" (ex_world ex_db1)
      = (Ok managers, ex_world ex_db1) ∧
    syncManagersForDrive ex_clock ex_autoId "D1" "one" managers (ex_world ex_db1)
      = (Ok 1, w') ∧
    (λ kd, js_get kd.2 "email") <$> existingManagers "D1" (drive_managers (db w'))
      = [VStr "ana@example.org"].
Proof.
  split_and!; [reflexivity|reflexivity|reflexivity|].
  destruct (only_organizers_are_mirrored ex_clock ex_autoId (ex_remote false) "D1" "one"
              [ex_permission "p1" "ana@example.org" "organizer";
               ex_permission "p2" "eva@example.org" "reader"]
              (ex_world ex_db1) eq_refl eq_refl eq_refl)
    as (managers & w' & Hget & Hms & Hrun & Hkeys & _).
  - vm_compute. repeat constructor; set_solver.
  - vm_compute. repeat constructor.
  - exists managers, w'.
    assert (Hms' : managers = [ex_permission "p1" "ana@example.org" "organizer"])
      by (rewrite Hms; by vm_compute).
    rewrite Hms' in Hkeys. split_and!; [exact Hget|by rewrite Hrun, Hms'|].
    apply (fmap_Permutation (λ k : value * value * value, k.1.1)) in Hkeys.
    rewrite <- !list_fmap_compose in Hkeys.
    apply Permutation_singleton_r in Hkeys. exact Hkeys.
Defined.
